(** * autoname_functions.py: a shallow embedding and its verified properties

    The script renames unnamed functions and data of an IDA database from
    nearby strings and from the names of what they reference.  The IDA API
    (get_func, Name, MakeNameEx, XrefsFrom, ...) is external to the script
    and is taken as an interface; everything else is translated from
    [autoname_functions.py]. *)

From Stdlib Require Import ZArith QArith List String Ascii Bool Lia.
From Stdlib Require Import Numbers.DecimalString Numbers.DecimalPos.
From Stdlib Require Import Numbers.DecimalZ.
From Stdlib Require Floats.SpecFloat.
From stdpp Require Import base gmap fin_maps list.
Import ListNotations.

Local Open Scope string_scope.
Local Open Scope Z_scope.

(** ** Python byte strings *)

Module PyStr.

(** A Python 2 [str] is a sequence of bytes; it is embedded as [string],
    and seen as a [list ascii] where the code works character by
    character. *)
Definition chars (s : string) : list ascii := list_ascii_of_string s.
Definition of_chars (l : list ascii) : string := string_of_list_ascii l.

(** [s.startswith(p)] *)
Definition startswith (s p : string) : bool := String.prefix p s.

(** [s[n:]] for [0 <= n] *)
Fixpoint slice_from (n : nat) (s : string) : string :=
  match n, s with
  | O, _ => s
  | S _, EmptyString => EmptyString
  | S k, String _ t => slice_from k t
  end.

(** [s[:n]] for [0 <= n] *)
Fixpoint slice_to (n : nat) (s : string) : string :=
  match n, s with
  | O, _ => EmptyString
  | S _, EmptyString => EmptyString
  | S k, String c t => String c (slice_to k t)
  end.

(** [s.lstrip(ch)] and [s.rstrip(ch)] for a one-character argument, on
    the characters of [s]. *)
Fixpoint lstrip_chars (ch : ascii) (l : list ascii) : list ascii :=
  match l with
  | [] => []
  | c :: t => if Ascii.eqb c ch then lstrip_chars ch t else l
  end.

Fixpoint rstrip_chars (ch : ascii) (l : list ascii) : list ascii :=
  match l with
  | [] => []
  | c :: t =>
      match rstrip_chars ch t with
      | [] => if Ascii.eqb c ch then [] else [c]
      | r => c :: r
      end
  end.

(** [s.strip(ch)] *)
Definition strip_chars (ch : ascii) (l : list ascii) : list ascii :=
  rstrip_chars ch (lstrip_chars ch l).

(** [s.strip()]: leading and trailing whitespace removed. *)
Definition is_space (c : ascii) : bool :=
  let n := nat_of_ascii c in
  ((9 <=? n)%nat && (n <=? 13)%nat) || (n =? 32)%nat.

Fixpoint lstrip_ws (l : list ascii) : list ascii :=
  match l with
  | [] => []
  | c :: t => if is_space c then lstrip_ws t else l
  end.

Fixpoint rstrip_ws (l : list ascii) : list ascii :=
  match l with
  | [] => []
  | c :: t =>
      match rstrip_ws t with
      | [] => if is_space c then [] else [c]
      | r => c :: r
      end
  end.

Definition strip (s : string) : string :=
  of_chars (rstrip_ws (lstrip_ws (chars s))).

(** [str(x)] of an integer: its decimal digits, with a sign when
    negative and no leading zero. *)
Definition str (x : Z) : string := NilZero.string_of_int (Z.to_int x).

(** [range(n)] *)
Definition range (n : Z) : list Z := map Z.of_nat (seq 0 (Z.to_nat n)).

(** [enumerate(l)] *)
Definition enumerate {A : Type} (l : list A) : list (Z * A) :=
  combine (map Z.of_nat (seq 0 (length l))) l.

End PyStr.

(** ** The fragment of [re] the script uses

    Every pattern compiled by the script is a sequence of character
    classes, each under a greedy quantifier ([x], [x?], [x*], [x+],
    [x{0,2}]), matched at a given position.  The matcher below is the
    backtracking one of [re]: a quantified class first takes as many
    characters as it can and gives them back one by one while the rest of
    the pattern fails. *)

Module Re.

Record item := Item {
  cls  : ascii -> bool;       (* the character class *)
  rmin : nat;                 (* least number of repetitions *)
  rmax : option nat           (* greatest one; [None] is unbounded *)
}.

Definition pattern := list item.

Definition one (c : ascii -> bool) : item := Item c 1 (Some 1%nat).
Definition opt (c : ascii -> bool) : item := Item c 0 (Some 1%nat).
Definition star (c : ascii -> bool) : item := Item c 0 None.
Definition plus (c : ascii -> bool) : item := Item c 1 None.
Definition upto (n : nat) (c : ascii -> bool) : item := Item c 0 (Some n).

(** Number of leading characters of [s] in class [c], at most [limit]. *)
Fixpoint run_length (c : ascii -> bool) (limit : option nat)
    (s : list ascii) : nat :=
  match limit, s with
  | Some O, _ => O
  | _, [] => O
  | _, a :: t =>
      if c a then S (run_length c (option_map Nat.pred limit) t) else O
  end.

(** Backtracking: try [n], [n-1], ..., [lo] repetitions. *)
Fixpoint try_counts (f : nat -> option nat) (n lo : nat) : option nat :=
  if (n <? lo)%nat then None
  else match f n with
       | Some r => Some r
       | None => match n with
                 | O => None
                 | S n' => try_counts f n' lo
                 end
       end.

(** [match_here p s]: length of the match of [p] at the start of [s],
    as [re.match] finds it. *)
Fixpoint match_here (p : pattern) (s : list ascii) : option nat :=
  match p with
  | [] => Some O
  | it :: rest =>
      try_counts
        (fun k => option_map (Nat.add k) (match_here rest (skipn k s)))
        (run_length (cls it) (rmax it) s) (rmin it)
  end.

(** [re.sub(p, repl, s)]: the leftmost non-overlapping matches are
    replaced, scanning left to right.  [skip] counts the characters of
    the current match still to be dropped.  No pattern of the script
    matches the empty string (lemma [match_here_positive] below), so the
    branch for an empty match is never taken by the script. *)
Fixpoint sub_from (p : pattern) (repl s : list ascii) (skip : nat)
    : list ascii :=
  match s with
  | [] => []
  | c :: t =>
      match skip with
      | S k => sub_from p repl t k
      | O =>
          match match_here p s with
          | Some (S n) => repl ++ sub_from p repl t n
          | Some O => repl ++ c :: sub_from p repl t O
          | None => c :: sub_from p repl t O
          end
      end
  end.

Definition sub (p : pattern) (repl s : list ascii) : list ascii :=
  sub_from p repl s O.

(** *** Character classes *)

Definition code (a : ascii) : nat := nat_of_ascii a.
Definition between (lo hi : nat) (a : ascii) : bool :=
  (lo <=? code a)%nat && (code a <=? hi)%nat.
Definition lit (c : ascii) (a : ascii) : bool := Ascii.eqb a c.
Definition oneof (l : string) (a : ascii) : bool :=
  existsb (Ascii.eqb a) (PyStr.chars l).

(** [\d] *)
Definition digit : ascii -> bool := between 48 57.
(** [a-zA-Z0-9_] *)
Definition word (a : ascii) : bool :=
  between 97 122 a || between 65 90 a || digit a || lit "_" a.
(** [.] : anything but a newline *)
Definition dot (a : ascii) : bool := negb (code a =? 10)%nat.

End Re.

(** ** Module constants (lines 18-21) *)

(** [AUTONAMED_RE = re.compile(r"^z.?_")] *)
Definition AUTONAMED_RE : Re.pattern :=
  [Re.one (Re.lit "z"); Re.opt Re.dot; Re.one (Re.lit "_")].

(** [BADPREFIXES_RE = re.compile(r"^(sub|loc|flt|off|unk|byte|word|dword)_")]:
    an alternation of literals followed by an underscore, anchored at the
    start; it matches exactly when one of the alternatives followed by
    ["_"] is a prefix. *)
Definition BADPREFIXES : list string :=
  ["sub"; "loc"; "flt"; "off"; "unk"; "byte"; "word"; "dword"].

Definition BADPREFIXES_RE_match (name : string) : bool :=
  existsb (fun p => PyStr.startswith name (p ++ "_")) BADPREFIXES.

(** [re.match] of a sequence pattern. *)
Definition re_match (p : Re.pattern) (s : string) : bool :=
  match Re.match_here p (PyStr.chars s) with
  | Some _ => true
  | None => false
  end.

(** ** stripExistingPrefix (lines 114-118) *)

Definition stripExistingPrefix (name : string) : string :=
  if re_match AUTONAMED_RE name then PyStr.slice_from 2 name else name.

(** ** sanitizeString (lines 282-287) *)

(** [%[\+ -#0]*[\d\.]*[lhLzjt]{0,2}[diufFeEgGxXoscpaAn]]: inside the first
    class, [ -#] is the range from the space to [#]. *)
Definition fmt_flags (a : ascii) : bool :=
  Re.lit "+" a || Re.between 32 35 a || Re.lit "0" a.
Definition fmt_width (a : ascii) : bool := Re.digit a || Re.lit "." a.
Definition fmt_length : ascii -> bool := Re.oneof "lhLzjt".
Definition fmt_conv : ascii -> bool := Re.oneof "diufFeEgGxXoscpaAn".

Definition FORMAT_RE : Re.pattern :=
  [Re.one (Re.lit "%"); Re.star fmt_flags; Re.star fmt_width;
   Re.upto 2 fmt_length; Re.one fmt_conv].

(** [[^a-zA-Z0-9_]+] *)
Definition NONWORD_RE : Re.pattern := [Re.plus (fun a => negb (Re.word a))].

(** [_+] *)
Definition UNDERSCORES_RE : Re.pattern := [Re.plus (Re.lit "_")].

Definition underscore : list ascii := ["_"%char].

Definition sanitizeChars (s : list ascii) : list ascii :=
  let ret := s in
  let ret := Re.sub FORMAT_RE underscore ret in
  let ret := Re.sub NONWORD_RE underscore ret in
  let ret := Re.sub UNDERSCORES_RE underscore ret in
  PyStr.strip_chars "_" ret.

Definition sanitizeString (s : string) : string :=
  PyStr.of_chars (sanitizeChars (PyStr.chars s)).


(** ** Exceptions *)

Inductive exn : Type :=
  | RaisedString (msg : string)      (* [raise( errorMessage )], line 140:
                                        the exception that leaves
                                        [safeName], whatever class
                                        Python gives it *)
  | AttributeError (attr : string)   (* a method or field that is not there *)
  | KeyError                         (* [d[k]] for a key that is not there *)
  | ZeroDivisionError
  | OverflowError.                   (* a quotient too large for a float *)

Inductive outcome (A : Type) : Type :=
  | Ret (a : A)
  | Raise (e : exn).
Arguments Ret {A} a.
Arguments Raise {A} e.

(** ** MarkovState and MarkovModel (lines 28-100)

    The script starts with [from __future__ import division], so the
    quotient of line 100 is the true quotient of the two counts.  Python
    rounds it to a double.  [weight] and [cull] keep the exact rational;
    [weight_double] and [cull_double], further down, round it as Python
    does.  The two culls agree at the cutoff 0.5 the script uses as long
    as no total reaches 2^54 ([cull_double_exact_half]). *)

Record MarkovState := mkMarkovState {
  stateID : Z;
  transistions_total : Z;
  edges : gmap Z Z
}.

Definition MarkovState_init (stateID : Z) : MarkovState :=
  mkMarkovState stateID 0 ∅.

Definition MarkovState_addTransition (s : MarkovState) (toStateID : Z)
    : MarkovState :=
  let e0 := match edges s !! toStateID with
            | None => <[toStateID := 0]> (edges s)
            | Some _ => edges s
            end in
  let e1 := <[toStateID := default 0 (e0 !! toStateID) + 1]> e0 in
  mkMarkovState (stateID s) (transistions_total s + 1) e1.

Definition weight (s : MarkovState) (toStateID : Z) : outcome Q :=
  match edges s !! toStateID with
  | None => Raise KeyError
  | Some c =>
      if Z.eqb (transistions_total s) 0 then Raise ZeroDivisionError
      else Ret (Qdiv (inject_Z c) (inject_Z (transistions_total s)))
  end.

Definition Qltb (x y : Q) : bool := if Qlt_le_dec x y then true else false.

(** [PROBABILITY_CUTTOFF = 0.5] *)
Definition PROBABILITY_CUTTOFF : Q := Qmake 1 2.

(** A dict is iterated in an order Python 2 leaves unspecified: it comes
    from the hash table.  The embedding takes the order as a parameter: an
    enumeration of the keys, each of them once.  [gmap_order], the order of
    [map_to_list], is the one used where a run is computed. *)
Class DictOrder := {
  dict_order : forall V : Type, gmap Z V -> list Z;
  dict_order_perm : forall (V : Type) (m : gmap Z V),
    Permutation (dict_order V m) (map fst (map_to_list m))
}.

Definition keys {ord : DictOrder} {V} (m : gmap Z V) : list Z :=
  dict_order V m.

#[export] Instance gmap_order : DictOrder := {|
  dict_order := fun V m => map fst (map_to_list m);
  dict_order_perm := fun V m => Permutation_refl _
|}.

Abbreviation MarkovModel := (gmap Z MarkovState).

Definition MarkovModel_init : MarkovModel := ∅.

Definition addTransition (m : MarkovModel) (fromStateID toStateID : Z)
    : MarkovModel :=
  let m0 := match m !! fromStateID with
            | None => <[fromStateID := MarkovState_init fromStateID]> m
            | Some _ => m
            end in
  match m0 !! fromStateID with
  | Some st => <[fromStateID := MarkovState_addTransition st toStateID]> m0
  | None => m0
  end.

(** Lines 47-50: the destinations to remove from one source. *)
Fixpoint cull_collect (source : MarkovState) (cutoffWeight : Q)
    (dests : list Z) (cullList : list Z) : outcome (list Z) :=
  match dests with
  | [] => Ret cullList
  | destID :: rest =>
      match weight source destID with
      | Raise e => Raise e
      | Ret wt =>
          if Qltb wt cutoffWeight
          then cull_collect source cutoffWeight rest (cullList ++ [destID])
          else cull_collect source cutoffWeight rest cullList
      end
  end.

(** Lines 51-52. *)
Definition cull_delete (source : MarkovState) (cullList : list Z)
    : MarkovState :=
  mkMarkovState (stateID source) (transistions_total source)
    (foldl (fun e destID => delete destID e) (edges source) cullList).

(** The body of the loop of line 44, for one source. *)
Definition cull_source (cutoffWeight : Q) (source : MarkovState)
    : outcome MarkovState :=
  match cull_collect source cutoffWeight (keys (edges source)) [] with
  | Raise e => Raise e
  | Ret cullList => Ret (cull_delete source cullList)
  end.

Fixpoint cull_sources (cutoffWeight : Q) (m : MarkovModel)
    (sources : list Z) : outcome MarkovModel :=
  match sources with
  | [] => Ret m
  | sourceID :: rest =>
      match m !! sourceID with
      | None => Raise KeyError
      | Some source =>
          match cull_source cutoffWeight source with
          | Raise e => Raise e
          | Ret source' =>
              cull_sources cutoffWeight (<[sourceID := source']> m) rest
          end
      end
  end.

Definition cull (m : MarkovModel) (cutoffWeight : Q) : outcome MarkovModel :=
  cull_sources cutoffWeight m (keys m).

(** ** The quotient of line 100 as a double

    [weight] above keeps the exact quotient.  Python rounds it: under
    [from __future__ import division] the quotient of two ints is the
    double nearest to it, a tie going to the even mantissa, and a quotient
    beyond the doubles raises OverflowError.  [weight_double] and
    [cull_double] are lines 100 and 43-52 with that rounding.  A float is
    represented by the rational it stands for, so the comparison of line
    49 is the comparison of rationals. *)

Module Double.

(** The integer nearest to [a / b], a tie going to the even one, for
    [0 <= a] and [0 < b]. *)
Definition rne_div (a b : Z) : Z :=
  let q := a / b in
  let r := a mod b in
  match Z.compare (2 * r) b with
  | Lt => q
  | Gt => q + 1
  | Eq => if Z.even q then q else q + 1
  end.

(** [floor (log2 (a / b))] for [0 < a] and [0 < b]. *)
Definition ilog2_ratio (a b : Z) : Z :=
  let k := Z.log2 a - Z.log2 b in
  if (if Z.leb 0 k then Z.leb (b * 2 ^ k) a else Z.leb b (a * 2 ^ (- k)))
  then k else k - 1.

(** The double nearest to [a / b], as a mantissa [M] and an exponent [e]:
    its value is [M * 2^e].  A double has 53 bits of mantissa; below
    [2^-1022] the exponent stays at [-1074]. *)
Definition nearest (a b : Z) : Z * Z :=
  let e := Z.max (ilog2_ratio a b - 52) (-1074) in
  let M := if Z.ltb e 0 then rne_div (a * 2 ^ (- e)) b
           else rne_div a (b * 2 ^ e) in
  (M, e).

Definition value (d : Z * Z) : Q :=
  let '(M, e) := d in
  if Z.ltb e 0 then Qmake M (Z.to_pos (2 ^ (- e)))
  else inject_Z (M * 2 ^ e).

(** Every double is below [2^1024]. *)
Definition overflows (d : Z * Z) : bool :=
  let '(M, e) := d in
  if Z.ltb e 0 then Z.leb (2 ^ 1024 * 2 ^ (- e)) M
  else Z.leb (2 ^ 1024) (M * 2 ^ e).

End Double.

(** [a / b] on two ints. *)
Definition true_div (a b : Z) : outcome Q :=
  if Z.eqb b 0 then Raise ZeroDivisionError
  else if Z.eqb a 0 then Ret (inject_Z 0)
  else
    let d := Double.nearest (Z.abs a) (Z.abs b) in
    if Double.overflows d then Raise OverflowError
    else Ret (if Z.ltb (Z.sgn a * Z.sgn b) 0 then Qopp (Double.value d)
              else Double.value d).

(** Line 100. *)
Definition weight_double (s : MarkovState) (toStateID : Z) : outcome Q :=
  match edges s !! toStateID with
  | None => Raise KeyError
  | Some c => true_div c (transistions_total s)
  end.

(** Lines 47-50. *)
Fixpoint cull_collect_double (source : MarkovState) (cutoffWeight : Q)
    (dests : list Z) (cullList : list Z) : outcome (list Z) :=
  match dests with
  | [] => Ret cullList
  | destID :: rest =>
      match weight_double source destID with
      | Raise e => Raise e
      | Ret wt =>
          if Qltb wt cutoffWeight
          then cull_collect_double source cutoffWeight rest
                 (cullList ++ [destID])
          else cull_collect_double source cutoffWeight rest cullList
      end
  end.

(** The body of the loop of line 44, for one source. *)
Definition cull_source_double {ord : DictOrder} (cutoffWeight : Q)
    (source : MarkovState) : outcome MarkovState :=
  match cull_collect_double source cutoffWeight (keys (edges source)) [] with
  | Raise e => Raise e
  | Ret cullList => Ret (cull_delete source cullList)
  end.

Fixpoint cull_sources_double {ord : DictOrder} (cutoffWeight : Q)
    (m : MarkovModel) (sources : list Z) : outcome MarkovModel :=
  match sources with
  | [] => Ret m
  | sourceID :: rest =>
      match m !! sourceID with
      | None => Raise KeyError
      | Some source =>
          match cull_source_double cutoffWeight source with
          | Raise e => Raise e
          | Ret source' =>
              cull_sources_double cutoffWeight (<[sourceID := source']> m)
                                  rest
          end
      end
  end.

(** Lines 43-52. *)
Definition cull_double {ord : DictOrder} (m : MarkovModel)
    (cutoffWeight : Q) : outcome MarkovModel :=
  cull_sources_double cutoffWeight m (keys m).

(** ** The IDA database

    The script is written against IDAPython.  The calls it makes are the
    fields of this interface, over the state [db] of the open database.
    [MakeNameEx] is the only call that changes the database. *)

Class IDA (db : Type) := {
  (** [get_func(ea)]: bounds [(startEA, endEA)] of the function holding
      [ea], or [None]. *)
  get_func : db -> Z -> option (Z * Z);
  (** [Name(ea)]: the name at [ea], empty when there is none. *)
  Name : db -> Z -> string;
  (** [Demangle(name, INF_LONG_DN)]: the demangled name, or [None]. *)
  Demangle : db -> string -> option string;
  (** [MakeNameEx(ea, name, flags)]: non-zero when the name was set. *)
  MakeNameEx : db -> Z -> string -> Z -> Z * db;
  (** [FuncItems(start)]: addresses of the items of a function. *)
  FuncItems : db -> Z -> list Z;
  (** [XrefsFrom(ea, 0)], each reference by its target [to]. *)
  XrefsFrom : db -> Z -> list Z;
  (** [XrefsTo(ea, 0)], each reference by its origin [frm]. *)
  XrefsTo : db -> Z -> list Z;
  (** [Functions()] *)
  Functions : db -> list Z;
  (** [Segments()], each with its class and its end [SegEnd]. *)
  Segments : db -> list (Z * string * Z);
  (** [Heads(start, end)] *)
  Heads : db -> Z -> Z -> list Z;
  (** [Strings(False)] after [setup(strtypes = Strings.STR_C)] and
      [Strings()]: each item is [None] or has an address [ea] and a text
      [str(item)]. *)
  Strings_C : db -> list (option (Z * string));
  Strings_default : db -> list (option (Z * string));
  SN_NOCHECK : Z;
  SN_AUTO : Z;
  SN_NOWARN : Z
}.

(** ** The run state and the monad of the script *)

(** What the run did to its surroundings, oldest first.  The script keeps
    no such list; it is what an observer of the calls would write down. *)
Inductive event : Type :=
  | CallSafeName (addr : Z) (baseName oldName : string)
  | CallMakeNameEx (addr : Z) (name : string) (flags : Z) (ret : Z).

Section Script.

Context {db : Type} `{IDA db} {ord : DictOrder}.

Record World := mkWorld {
  ida : db;                   (* the database *)
  renamesTotal : Z;           (* [Stats.renamesTotal] *)
  stdout : list string;       (* lines printed, oldest first *)
  events : list event
}.

Definition M (A : Type) : Type := World -> outcome A * World.

Definition ret {A} (a : A) : M A := fun w => (Ret a, w).
Definition raise {A} (e : exn) : M A := fun w => (Raise e, w).
Definition bind {A B} (m : M A) (k : A -> M B) : M B :=
  fun w => match m w with
           | (Ret a, w') => k a w'
           | (Raise e, w') => (Raise e, w')
           end.

Definition print (line : string) : M unit :=
  fun w => (Ret tt, mkWorld (ida w) (renamesTotal w) (stdout w ++ [line])
                            (events w)).

Definition note (e : event) (w : World) : World :=
  mkWorld (ida w) (renamesTotal w) (stdout w) (events w ++ [e]).

Definition count_rename : M unit :=
  fun w => (Ret tt, mkWorld (ida w) (renamesTotal w + 1) (stdout w)
                            (events w)).

Definition call_MakeNameEx (addr : Z) (name : string) (flags : Z) : M Z :=
  fun w =>
    let '(r, d) := MakeNameEx (ida w) addr name flags in
    (Ret r, note (CallMakeNameEx addr name flags r)
              (mkWorld d (renamesTotal w) (stdout w) (events w))).

(** ** safeName (lines 123-140) *)

Definition name_flags : Z := Z.lor (Z.lor SN_NOCHECK SN_AUTO) SN_NOWARN.

(** [[""] + [ str(x) for x in range(10000)]] *)
Definition suffixes : list string := "" :: map PyStr.str (PyStr.range 10000).

(** The [for] loop of lines 131-136 over the suffixes still to try, and
    lines 138-140 once they are used up.  [newName] is the variable of
    that name, which the message of line 138 reads after the loop. *)
Fixpoint safeName_loop (addr : Z) (baseName oldName : string)
    (todo : list string) (newName : string) : M unit :=
  match todo with
  | [] =>
      let errorMessage :=
        "Unable to name variable: " ++ oldName ++ " -> " ++ baseName
          ++ " @ " ++ newName in
      bind (print errorMessage) (fun _ => raise (RaisedString errorMessage))
  | suffix :: rest =>
      let newName := baseName ++ suffix in
      bind (call_MakeNameEx addr newName name_flags) (fun r =>
      if negb (Z.eqb r 0) then print (oldName ++ " -> " ++ newName)
      else safeName_loop addr baseName oldName rest newName)
  end.

Definition safeName_noop (baseName oldName : string) : bool :=
  String.eqb oldName baseName || PyStr.startswith oldName baseName.

Definition safeName (addr : Z) (baseName oldName : string) : M unit :=
  fun w =>
    let w := note (CallSafeName addr baseName oldName) w in
    if safeName_noop baseName oldName then (Ret tt, w)
    else
      let newName := baseName in
      bind count_rename
           (fun _ => safeName_loop addr baseName oldName suffixes newName) w.


(** ** Thing (lines 145-217) *)

Record Thing := mkThing {
  addr : Z;
  endEA : Z;
  isFunction : bool;
  name : string;
  xrefs : option (gset Z)     (* [None] until [getXrefs] fills it *)
}.

(** [Thing.__init__] *)
Definition Thing_init (d : db) (a : Z) : Thing :=
  let '(start, stop, isf) :=
    match get_func d a with
    | Some (startEA, endEA) => (startEA, endEA, true)
    | None => (a, a + 4, false)
    end in
  let nm := Name d start in
  let nm := match Demangle d nm with
            | Some testName =>
                if String.eqb testName "" then nm else testName
            | None => nm
            end in
  mkThing start stop isf nm None.

(** The condition of line 190. *)
Definition outside (t : Thing) (to : Z) : bool :=
  (to <? addr t) || (to >? endEA t).

(** Lines 178-191: the set the two loops build. *)
Definition collect_xrefs (d : db) (t : Thing) : gset Z :=
  let fromAddrs := if isFunction t then FuncItems d (addr t)
                   else [addr t] in
  foldl (fun acc fromAddr =>
           foldl (fun acc to =>
                    if outside t to then acc ∪ {[to]} else acc)
                 acc (XrefsFrom d fromAddr))
        ∅ fromAddrs.

(** [Thing.getXrefs]: the result and the object with its cache filled.
    An empty cached set is false in line 176, as [None] is. *)
Definition getXrefs (d : db) (t : Thing) : gset Z * Thing :=
  match xrefs t with
  | Some xs =>
      if decide (xs = ∅) then
        let xs' := collect_xrefs d t in
        (xs', mkThing (addr t) (endEA t) (isFunction t) (name t) (Some xs'))
      else (xs, t)
  | None =>
      let xs' := collect_xrefs d t in
      (xs', mkThing (addr t) (endEA t) (isFunction t) (name t) (Some xs'))
  end.

(** [Thing.isNamed] *)
Definition isNamed (t : Thing) : bool :=
  negb (String.eqb (name t) "") && negb (BADPREFIXES_RE_match (name t)).

(** [thing.xrefsFrom()], called at lines 234 and 255.  Class [Thing]
    defines no such method: the only definition is commented out (lines
    169-172).  The call raises [AttributeError]. *)
Definition xrefsFrom (t : Thing) : M (list Thing) :=
  raise (AttributeError "xrefsFrom").

(** A [for] loop whose body updates local variables [S]. *)
Fixpoint for_each {A S : Type} (l : list A) (body : A -> S -> M S) (s : S)
    : M S :=
  match l with
  | [] => ret s
  | a :: rest => bind (body a s) (for_each rest body)
  end.

Definition get_db : M db := fun w => (Ret (ida w), w).

(** ** renameData (lines 223-242) *)

Definition renameData_head (head : Z) (changes : Z) : M Z :=
  bind get_db (fun d =>
  let thing := Thing_init d head in
  if negb (isFunction thing) && negb (String.eqb (name thing) "")
     && negb (isNamed thing)
  then
    bind (xrefsFrom thing) (fun xrefs_from =>
    match xrefs_from with
    | [reffedThing] =>
        if isNamed reffedThing then
          let newName := "z_" ++ stripExistingPrefix (name reffedThing) in
          bind (safeName (addr thing) newName (name thing)) (fun _ =>
          ret (changes + 1))
        else ret changes
    | _ => ret changes
    end)
  else ret changes).

Definition renameData : M Z :=
  bind (print "Renaming Data...") (fun _ =>
  bind get_db (fun d =>
  for_each (Segments d)
    (fun '(segment, clazz, segEnd) changes =>
       if String.eqb clazz "CODE" then ret changes
       else bind get_db (fun d =>
            for_each (Heads d segment segEnd) renameData_head changes))
    0)).

(** ** renameFunctions (lines 247-263) *)

Definition renameFunctions_func (funcAddr : Z) (changes : Z) : M Z :=
  bind get_db (fun d =>
  let func := Thing_init d funcAddr in
  if negb (isNamed func) then
    bind (xrefsFrom func) (fun xrefs_from =>
    match xrefs_from with
    | [calledThing] =>
        if isNamed calledThing then
          let newName := "z_" ++ stripExistingPrefix (name calledThing) in
          let changes := changes + 1 in
          bind (safeName (addr func) newName (name func)) (fun _ =>
          ret changes)
        else ret changes
    | _ => ret changes
    end)
  else ret changes).

Definition renameFunctions : M Z :=
  bind (print "Renaming Functions...") (fun _ =>
  bind get_db (fun d =>
  for_each (Functions d) renameFunctions_func 0)).

(** ** processStringXrefs (lines 292-319) *)

Definition link : Type := Z * Z * string.   (* (funcAddr, refAddr, string) *)

(** Lines 297-306. *)
Definition string_links (d : db) (ea : Z) (text : string) : list link :=
  let stripped := PyStr.strip text in   (* the variable [string] *)
  foldl (fun links refAddr =>
           match get_func d refAddr with
           | Some (funcAddr, _) =>
               let functionName := Name d funcAddr in
               if PyStr.startswith functionName "sub_"
                  || PyStr.startswith functionName "z_"
               then (links ++ [(funcAddr, refAddr, stripped)])%list
               else links
           | None => links
           end)
        [] (XrefsTo d ea).

Definition processStringXrefs (d : db) (item : Z * string)
    (functionsHash : gmap Z link) : gmap Z link :=
  let links := string_links d (fst item) (snd item) in
  match links with
  | [lnk] =>
      let funcAddr := fst (fst lnk) in
      let '(lastLink, functionsHash) :=
        match functionsHash !! funcAddr with
        | Some l => (l, functionsHash)
        | None => (lnk, <[funcAddr := lnk]> functionsHash)
        end in
      if snd (fst lnk) <? snd (fst lastLink)
      then <[funcAddr := lnk]> functionsHash
      else functionsHash
  | _ => functionsHash
  end.

(** ** renameFunctionsBasedOnStrings (lines 325-347) *)

(** Lines 333-339. *)
Definition collect_functionsHash (d : db) : M (gmap Z link) :=
  for_each (PyStr.enumerate (Strings_C d))
    (fun '(index, stringItem) functionsHash =>
       match stringItem with
       | None =>
           bind (print ("Nothing for string #" ++ PyStr.str index))
                (fun _ => ret functionsHash)
       | Some item => ret (processStringXrefs d item functionsHash)
       end)
    ∅.

(** The name line 346 builds. *)
Definition function_newName (text : string) : string :=
  "z_" ++ sanitizeString text.

Definition renameFunctionsBasedOnStrings : M unit :=
  bind (print "Renaming based on strings...") (fun _ =>
  bind get_db (fun d =>
  bind (collect_functionsHash d) (fun functionsHash =>
  bind (for_each (keys (ord := ord) functionsHash)
          (fun funcAddr (_ : unit) =>
             match functionsHash !! funcAddr with
             | None => raise KeyError
             | Some lnk =>
                 let text := snd lnk in   (* the variable [string] *)
                 bind get_db (fun d =>
                 let oldName := Name d funcAddr in
                 let newName := function_newName text in
                 safeName funcAddr newName oldName)
             end)
          tt)
       (fun _ => ret tt)))).

(** ** fixupIdaStringNames (lines 352-358) *)

(** The name lines 356-357 build. *)
Definition string_newName (text : string) : string :=
  let newName := "z_" ++ sanitizeString text in
  PyStr.slice_to 256 newName.

Definition fixupIdaStringNames : M unit :=
  bind get_db (fun d =>
  bind (for_each (Strings_default d)
          (fun s (_ : unit) =>
             match s with
             | None => raise (AttributeError "ea")
             | Some (ea, text) =>
                 bind get_db (fun d =>
                 let nm := Name d ea in
                 if negb (String.eqb nm "")
                    && negb (PyStr.startswith nm "z_")
                 then safeName ea (string_newName text) nm
                 else ret tt)
             end)
          tt)
       (fun _ => ret tt)).

(** ** buildMarkovModel (lines 363-391) *)

Definition lift {A} (o : outcome A) : M A := fun w => (o, w).

(** Lines 375-376 and 385-386: one transition per reference of a thing. *)
Definition add_xrefs (d : db) (thing : Thing) (markovModel : MarkovModel)
    : MarkovModel :=
  foldl (fun m xref => addTransition m (addr thing) xref)
        markovModel (elements (fst (getXrefs d thing))).

Definition buildMarkovModel : M MarkovModel :=
  let markovModel := MarkovModel_init in
  bind (print "Building markov model for data...") (fun _ =>
  bind get_db (fun d =>
  bind (for_each (Segments d)
          (fun '(segment, clazz, segEnd) markovModel =>
             if String.eqb clazz "CODE" then ret markovModel
             else for_each (Heads d segment segEnd)
                    (fun head markovModel =>
                       let thing := Thing_init d head in
                       if negb (isFunction thing)
                          && negb (String.eqb (name thing) "")
                          && negb (isNamed thing)
                       then ret (add_xrefs d thing markovModel)
                       else ret markovModel)
                    markovModel)
          markovModel) (fun markovModel =>
  bind (print "Building markov model for functions...") (fun _ =>
  bind (print "... chill mon.. this may take a while...") (fun _ =>
  bind (for_each (Functions d)
          (fun funcAddr markovModel =>
             let func := Thing_init d funcAddr in
             if negb (isNamed func)
             then ret (add_xrefs d func markovModel)
             else ret markovModel)
          markovModel) (fun markovModel =>
  bind (print "Culling at 50%") (fun _ =>
  lift (cull markovModel PROBABILITY_CUTTOFF)))))))).

(** ** tester (lines 395-421) *)

(** Lines 413-418: the body of the inner loop, for one destination.
    [sourceThing] was built at line 407, before the loop. *)
Definition tester_dest (sourceThing : Thing) (destID : Z)
    (counts : Z * Z) : M (Z * Z) :=
  let '(changes, changes_total) := counts in
  bind get_db (fun d =>
  let destThing := Thing_init d destID in
  if isNamed destThing then
    let newName := "z_" ++ stripExistingPrefix (name destThing) in
    bind (safeName (addr sourceThing) newName (name sourceThing)) (fun _ =>
    ret (changes + 1, changes_total + 1))
  else ret counts).

(** Lines 407-418: the body of the outer loop, for one source. *)
Definition tester_source (markovModel : MarkovModel) (sourceID : Z)
    (counts : Z * Z) : M (Z * Z) :=
  bind get_db (fun d =>
  let sourceThing := Thing_init d sourceID in
  if isNamed sourceThing then ret counts
  else
    match markovModel !! sourceID with
    | None => raise KeyError
    | Some source =>
        for_each (keys (ord := ord) (edges source))
                 (tester_dest sourceThing) counts
    end).

(** Lines 404-419: one pass; the result is [(changes, changes_total)]. *)
Definition tester_pass (markovModel : MarkovModel) (iteration : Z)
    (changes_total : Z) : M (Z * Z) :=
  bind (print (" Pass " ++ PyStr.str iteration)) (fun _ =>
  let changes := 0 in
  bind (for_each (keys (ord := ord) markovModel) (tester_source markovModel)
          (changes, changes_total)) (fun counts =>
  bind (print ("Pass " ++ PyStr.str iteration ++ ", "
                 ++ PyStr.str (fst counts) ++ " changes")) (fun _ =>
  ret counts))).

(** The [while] loop of line 403; [None] when [fuel] passes were not
    enough to leave it. *)
Fixpoint tester_while (fuel : nat) (markovModel : MarkovModel)
    (changes changes_total iteration : Z) : M (option Z) :=
  if changes >? 0 then
    match fuel with
    | O => ret None
    | S fuel' =>
        bind (tester_pass markovModel iteration changes_total)
             (fun '(changes, changes_total) =>
                tester_while fuel' markovModel changes changes_total
                             iteration)
    end
  else ret (Some changes_total).

Definition print_total (prefix suffix : string) : M unit :=
  fun w => print (prefix ++ PyStr.str (renamesTotal w) ++ suffix) w.

Definition tester (fuel : nat) : M (option unit) :=
  bind fixupIdaStringNames (fun _ =>
  bind renameFunctionsBasedOnStrings (fun _ =>
  bind buildMarkovModel (fun markovModel =>
  let changes := 1 in
  let changes_total := 0 in
  let iteration := 0 in
  bind (tester_while fuel markovModel changes changes_total iteration)
       (fun r =>
          match r with
          | None => ret None
          | Some _ =>
              bind (print_total "DONE! " " changes total.") (fun _ =>
              ret (Some tt))
          end)))).

(** ** main (lines 427-443) *)

(** Lines 434-440: one pass; the result is [changes]. *)
Definition main_pass (iteration : Z) : M Z :=
  let changes := 0 in
  bind (print ("Pass " ++ PyStr.str iteration ++ ".")) (fun _ =>
  bind renameData (fun n =>
  let changes := changes + n in
  bind (print ("Pass " ++ PyStr.str iteration ++ ".")) (fun _ =>
  bind renameFunctions (fun n =>
  let changes := changes + n in
  bind (print ("Pass " ++ PyStr.str iteration ++ " had "
                 ++ PyStr.str changes ++ " changes")) (fun _ =>
  ret changes))))).

(** The [while] loop of line 433; [None] when [fuel] passes were not
    enough to leave it. *)
Fixpoint main_while (fuel : nat) (changes iteration : Z) : M (option Z) :=
  if changes >? 0 then
    match fuel with
    | O => ret None
    | S fuel' =>
        let iteration := iteration + 1 in
        bind (main_pass iteration) (fun changes =>
        main_while fuel' changes iteration)
    end
  else ret (Some iteration).

Definition main (fuel : nat) : M (option unit) :=
  bind fixupIdaStringNames (fun _ =>
  bind renameFunctionsBasedOnStrings (fun _ =>
  let changes := 1 in
  let iteration := 0 in
  bind (main_while fuel changes iteration) (fun r =>
  match r with
  | None => ret None
  | Some _ =>
      bind (print_total "Done with a total of " " changes") (fun _ =>
      ret (Some tt))
  end))).

End Script.

Arguments World db : clear implicits.
Arguments M db A : clear implicits.

(** ** A concrete database

    A small database on which the script can be run.  Names are kept in
    an association list with the latest binding first.  [MakeNameEx]
    follows what the specification asks of the backend (section 6: set
    the name, succeeding only if it is not already taken elsewhere); it
    also refuses an address outside the image [sim_lo, sim_hi). *)

Record SimDb := mkSimDb {
  sim_names : list (Z * string);
  sim_funcs : list (Z * Z);             (* (startEA, endEA) *)
  sim_heads : list Z;
  sim_xrefs : list (Z * Z);             (* (frm, to) *)
  sim_segments : list (Z * string * Z); (* (start, class, end) *)
  sim_strings : list (option (Z * string));
  sim_lo : Z;
  sim_hi : Z
}.

Fixpoint sim_lookup (ea : Z) (l : list (Z * string)) : string :=
  match l with
  | [] => ""
  | (a, n) :: rest => if Z.eqb a ea then n else sim_lookup ea rest
  end.

Fixpoint sim_remove (ea : Z) (l : list (Z * string)) : list (Z * string) :=
  match l with
  | [] => []
  | (a, n) :: rest =>
      if Z.eqb a ea then sim_remove ea rest else (a, n) :: sim_remove ea rest
  end.

Definition sim_taken (ea : Z) (nm : string) (l : list (Z * string)) : bool :=
  existsb (fun '(a, n) => negb (Z.eqb a ea) && String.eqb n nm) l.

Definition sim_in_range (lo hi x : Z) : bool := (lo <=? x) && (x <? hi).

Definition sim_get_func (d : SimDb) (ea : Z) : option (Z * Z) :=
  find (fun '(s, e) => sim_in_range s e ea) (sim_funcs d).

Definition sim_MakeNameEx (d : SimDb) (ea : Z) (nm : string) (flags : Z)
    : Z * SimDb :=
  if negb (sim_in_range (sim_lo d) (sim_hi d) ea)
     || sim_taken ea nm (sim_names d)
  then (0, d)
  else (1, mkSimDb ((ea, nm) :: sim_remove ea (sim_names d)) (sim_funcs d)
             (sim_heads d) (sim_xrefs d) (sim_segments d) (sim_strings d)
             (sim_lo d) (sim_hi d)).

Definition sim_FuncItems (d : SimDb) (start : Z) : list Z :=
  match sim_get_func d start with
  | Some (s, e) => List.filter (sim_in_range s e) (sim_heads d)
  | None => []
  end.

#[export] Instance SimDb_IDA : IDA SimDb := {
  get_func := sim_get_func;
  Name d ea := sim_lookup ea (sim_names d);
  Demangle _ _ := None;
  MakeNameEx := sim_MakeNameEx;
  FuncItems := sim_FuncItems;
  XrefsFrom d ea :=
    map snd (List.filter (fun x => Z.eqb (fst x) ea) (sim_xrefs d));
  XrefsTo d ea :=
    map fst (List.filter (fun x => Z.eqb (snd x) ea) (sim_xrefs d));
  Functions d := map fst (sim_funcs d);
  Segments := sim_segments;
  Heads d lo hi := List.filter (sim_in_range lo hi) (sim_heads d);
  Strings_C := sim_strings;
  Strings_default := sim_strings;
  SN_NOCHECK := 1;
  SN_AUTO := 32;
  SN_NOWARN := 256
}.

Definition sim_world (d : SimDb) : World SimDb := mkWorld d 0 [] [].

(** Two functions: [sub_1000] at 0x1000-0x1010 calls [CreateFileW] at
    0x2000-0x2010 from 0x1004. *)
Definition db_call : SimDb :=
  mkSimDb [(4096, "sub_1000"); (8192, "CreateFileW")]
          [(4096, 4112); (8192, 8208)]
          [4096; 4100; 4104; 8192; 8196]
          [(4100, 8192)]
          [(4096, "CODE", 12288)]
          []
          4096 12288.

(** * Vocabulary of the statements *)

(** ** The shape of a sanitized text *)

(** No two underscores in a row. *)
Fixpoint no_double (l : list ascii) : Prop :=
  match l with
  | a :: (b :: _) as t => ~ (a = "_"%char /\ b = "_"%char) /\ no_double t
  | _ => True
  end.

Definition head_not_underscore (l : list ascii) : Prop :=
  match l with
  | a :: _ => a <> "_"%char
  | [] => True
  end.

Fixpoint last_not_underscore (l : list ascii) : Prop :=
  match l with
  | [] => True
  | [a] => a <> "_"%char
  | _ :: t => last_not_underscore t
  end.

Definition all_word (l : list ascii) : Prop :=
  Forall (fun a => Re.word a = true) l.

Record sanitized (l : list ascii) : Prop := {
  san_word : all_word l;
  san_no_double : no_double l;
  san_head : head_not_underscore l;
  san_last : last_not_underscore l
}.

(** ** What [safeName] does to the database *)

(** The names a call of [safeName] may try, in order: the base name, then
    the base name followed by 0, 1, ..., 9999. *)
Definition candidates (baseName : string) : list string :=
  baseName :: map (fun x => baseName ++ PyStr.str x) (PyStr.range 10000).

(** The answers of the database to [MakeNameEx] on [names], one after
    the other, and the database they leave. *)
Fixpoint replay {db : Type} `{IDA db} (d : db) (addr flags : Z)
    (names : list string) : list Z * db :=
  match names with
  | [] => ([], d)
  | n :: rest =>
      let '(r, d') := MakeNameEx d addr n flags in
      let '(rs, d'') := replay d' addr flags rest in
      (r :: rs, d'')
  end.

Fixpoint calls_of (addr flags : Z) (names : list string) (rets : list Z)
    : list event :=
  match names, rets with
  | n :: names', r :: rets' =>
      CallMakeNameEx addr n flags r :: calls_of addr flags names' rets'
  | _, _ => []
  end.

Definition rejected (e : event) : bool :=
  match e with
  | CallMakeNameEx _ _ _ r => Z.eqb r 0
  | CallSafeName _ _ _ => true
  end.

Definition is_raised_string {A} (o : outcome A) : bool :=
  match o with
  | Raise (RaisedString _) => true
  | _ => false
  end.

(** Three names around [sub_1000]: ["z_x"] and ["z_x0"] are taken by
    other addresses. *)
Definition db_taken : SimDb :=
  mkSimDb [(4096, "sub_1000"); (8192, "z_x"); (8196, "z_x0")]
          [(4096, 4112)]
          [4096; 4100; 8192; 8196]
          []
          [(4096, "CODE", 12288)]
          []
          4096 12288.

(** A data item [off_3000] at 0x3000 whose one reference goes to 0x3004,
    the end of the four bytes it owns. *)
Definition db_end : SimDb :=
  mkSimDb [(12288, "off_3000"); (12292, "table")]
          []
          [12288; 12292]
          [(12288, 12292)]
          [(12288, "DATA", 16384)]
          []
          4096 16384.

(** ** References that qualify for a string *)

(** The test of lines 299-304 on one reference to a string. *)
Definition qualifies {db : Type} `{IDA db} (d : db) (refAddr : Z) : bool :=
  match get_func d refAddr with
  | Some (funcAddr, _) =>
      PyStr.startswith (Name d funcAddr) "sub_"
      || PyStr.startswith (Name d funcAddr) "z_"
  | None => false
  end.

Definition qualifying_refs {db : Type} `{IDA db} (d : db) (ea : Z) : list Z :=
  List.filter (qualifies d) (XrefsTo d ea).

Definition func_of {db : Type} `{IDA db} (d : db) (refAddr : Z) : Z :=
  match get_func d refAddr with
  | Some (funcAddr, _) => funcAddr
  | None => 0
  end.

(** The distinct functions the qualifying references to a string lie in. *)
Definition qualifying_functions {db : Type} `{IDA db} (d : db) (ea : Z)
    : gset Z :=
  list_to_set (map (func_of d) (qualifying_refs d ea)).

(** Recording a candidate: an earlier candidate of the same function
    stays unless the new one has the lower [refAddr]. *)
Definition record_candidate (lnk : link) (functionsHash : gmap Z link)
    : gmap Z link :=
  let funcAddr := fst (fst lnk) in
  match functionsHash !! funcAddr with
  | None => <[funcAddr := lnk]> functionsHash
  | Some lastLink =>
      if snd (fst lnk) <? snd (fst lastLink)
      then <[funcAddr := lnk]> functionsHash
      else functionsHash
  end.

(** [sub_1000] refers twice, from 0x1004 and 0x1008, to the string at
    0x2000. *)
Definition db_twice : SimDb :=
  mkSimDb [(4096, "sub_1000"); (8192, "aHello")]
          [(4096, 4112)]
          [4096; 4100; 4104; 8192]
          [(4100, 8192); (4104, 8192)]
          [(4096, "CODE", 8192); (8192, "DATA", 12288)]
          [Some (8192, "hello")]
          4096 12288.

(** [n] times the character [c]. *)
Fixpoint string_of (n : nat) (c : ascii) : string :=
  match n with
  | O => EmptyString
  | S k => String c (string_of k c)
  end.

(** [sub_1000] refers once to a string of 300 letters at 0x2000. *)
Definition db_long : SimDb :=
  mkSimDb [(4096, "sub_1000"); (8192, "aAaaa")]
          [(4096, 4112)]
          [4096; 4100; 8192]
          [(4100, 8192)]
          [(4096, "CODE", 8192); (8192, "DATA", 12288)]
          [Some (8192, string_of 300 "A")]
          4096 12288.

(** A chain: [sub_1000] calls [sub_2000], which calls [CreateFileW]. *)
Definition db_chain : SimDb :=
  mkSimDb [(4096, "sub_1000"); (8192, "sub_2000"); (12288, "CreateFileW")]
          [(4096, 4112); (8192, 8208); (12288, 12304)]
          [4096; 4100; 8192; 8196; 12288]
          [(4100, 8192); (8196, 12288)]
          [(4096, "CODE", 16384)]
          []
          4096 16384.

(** ** What renaming leaves alone

    [MakeNameEx] sets the name at one address.  It moves no function, it
    changes no other name, and it does not change how names demangle. *)
Class IDA_frame (db : Type) `{IDA db} : Prop := {
  MakeNameEx_get_func : forall d a n f x,
    get_func (snd (MakeNameEx d a n f)) x = get_func d x;
  MakeNameEx_Name : forall d a n f x,
    x <> a -> Name (snd (MakeNameEx d a n f)) x = Name d x;
  MakeNameEx_Demangle : forall d a n f s,
    Demangle (snd (MakeNameEx d a n f)) s = Demangle d s
}.

(** Every thing that does not sit at address [a] is the same in [d'] as
    in [d]. *)
Definition same_things_except {db : Type} `{IDA db} (a : Z) (d d' : db)
    : Prop :=
  forall x, addr (Thing_init d x) <> a -> Thing_init d' x = Thing_init d x.

(** The calls of [safeName] among the events. *)
Definition is_CallSafeName (e : event) : bool :=
  match e with
  | CallSafeName _ _ _ => true
  | CallMakeNameEx _ _ _ _ => false
  end.

Definition safeName_calls (evs : list event) : list event :=
  List.filter is_CallSafeName evs.

(** [sub_1000] refers once to [alpha] and once to [beta]. *)
Definition db_two : SimDb :=
  mkSimDb [(4096, "sub_1000"); (8192, "alpha"); (12288, "beta")]
          [(4096, 4112); (8192, 8208); (12288, 12304)]
          [4096; 4100; 4104; 8192; 12288]
          [(4100, 8192); (4104, 12288)]
          [(4096, "CODE", 16384)]
          []
          4096 16384.

(** The model [buildMarkovModel] makes of [db_two]: both edges of
    [sub_1000] weigh one half and survive the cull. *)
Definition source_two : MarkovState :=
  mkMarkovState 4096 2 (<[8192 := 1]> (<[12288 := 1]> ∅)).

Definition model_two : MarkovModel := <[4096 := source_two]> ∅.

(** The destinations that are named in [d], and the calls of [safeName]
    a source makes for them: one for each, all with the name the source
    had when its [Thing] was built. *)
Definition named_dests {db : Type} `{IDA db} (d : db) (dests : list Z)
    : list Z :=
  List.filter (fun destID => isNamed (Thing_init d destID)) dests.

Definition expected_calls {db : Type} `{IDA db} (d : db)
    (sourceThing : Thing) (dests : list Z) : list event :=
  map (fun destID =>
         CallSafeName (addr sourceThing)
           ("z_" ++ stripExistingPrefix (name (Thing_init d destID)))
           (name sourceThing))
      (named_dests d dests).

(** ** Models the script can build *)

(** A model is built from the empty one by [addTransition] (lines 364,
    376 and 386). *)
Inductive built : MarkovModel -> Prop :=
  | built_init : built MarkovModel_init
  | built_add (m : MarkovModel) (fromStateID toStateID : Z) :
      built m -> built (addTransition m fromStateID toStateID).

Definition edge_sum (e : gmap Z Z) : Z :=
  map_fold (fun _ c acc => c + acc) 0 e.

(** Every edge was counted at least once and the total is the sum of the
    counts. *)
Definition wf_state (s : MarkovState) : Prop :=
  (forall d c, edges s !! d = Some c -> 1 <= c) /\
  edge_sum (edges s) = transistions_total s.

(** The weight of an edge of count [c], as line 100 computes it. *)
Definition edge_weight (s : MarkovState) (c : Z) : Q :=
  Qdiv (inject_Z c) (inject_Z (transistions_total s)).

(** The test of line 49 on a destination. *)
Definition below (s : MarkovState) (cutoffWeight : Q) (destID : Z) : bool :=
  match edges s !! destID with
  | Some c => Qltb (edge_weight s c) cutoffWeight
  | None => false
  end.

(** One source with two destinations, each reached once. *)
Definition model_tie : MarkovModel :=
  addTransition (addTransition MarkovModel_init 1 2) 1 3.

(** ** What a match of a pattern looks like *)

Definition within (lo : nat) (hi : option nat) (n : nat) : Prop :=
  (lo <= n)%nat /\ match hi with Some h => (n <= h)%nat | None => True end.

(** [l] is cut into one run per item of the pattern, each run made of
    characters of the item's class and of a permitted length. *)
Fixpoint matches (p : Re.pattern) (l : list ascii) : Prop :=
  match p with
  | [] => l = []
  | it :: rest =>
      exists l1 l2,
        l = (l1 ++ l2)%list /\
        Forall (fun a => Re.cls it a = true) l1 /\
        within (Re.rmin it) (Re.rmax it) (length l1) /\
        matches rest l2
  end.

(** A letter or a digit. *)
Definition alnum (a : ascii) : bool := Re.word a && negb (Re.lit "_" a).

(** ** Reading a model *)

(** How often the transition from [fromStateID] to [toStateID] was
    added, and how many transitions left [fromStateID] in all. *)
Definition edge_count (m : MarkovModel) (fromStateID toStateID : Z) : Z :=
  match m !! fromStateID with
  | Some s => default 0 (edges s !! toStateID)
  | None => 0
  end.

Definition total_count (m : MarkovModel) (fromStateID : Z) : Z :=
  match m !! fromStateID with
  | Some s => transistions_total s
  | None => 0
  end.


(** A state [cull] can work on: line 100 divides by the total only
    where there is an edge. *)
Definition cullable (s : MarkovState) : Prop :=
  edges s <> ∅ -> transistions_total s <> 0.


(** ** Databases with nothing to do *)

(** The destinations of the edges of a source. *)
Definition dests_of (m : MarkovModel) (sourceID : Z) : list Z :=
  match m !! sourceID with
  | Some s => keys (edges s)
  | None => []
  end.

(** Nothing for a pass of [tester] to rename: every source is named by
    now, or none of its destinations is. *)
Definition nothing_to_propagate {db : Type} `{IDA db} (d : db)
    (m : MarkovModel) : Prop :=
  Forall (fun sourceID =>
            isNamed (Thing_init d sourceID) = true \/
            Forall (fun destID => isNamed (Thing_init d destID) = false)
                   (dests_of m sourceID))
         (keys m).

(** The test of lines 233 and 374 on a head. *)
Definition unnamed_data {db : Type} `{IDA db} (d : db) (head : Z) : bool :=
  let thing := Thing_init d head in
  negb (isFunction thing) && negb (String.eqb (name thing) "")
  && negb (isNamed thing).

(** Nothing for a pass of [main] to look at: no unnamed data outside the
    code segments and no unnamed function. *)
Definition all_named {db : Type} `{IDA db} (d : db) : Prop :=
  Forall (fun seg : Z * string * Z =>
            snd (fst seg) = "CODE" \/
            Forall (fun head => unnamed_data d head = false)
                   (Heads d (fst (fst seg)) (snd seg)))
         (Segments d) /\
  Forall (fun funcAddr => isNamed (Thing_init d funcAddr) = true)
         (Functions d).

(** Two unnamed functions that call each other. *)
Definition db_cycle : SimDb :=
  mkSimDb [(4096, "sub_1000"); (8192, "sub_2000")]
          [(4096, 4112); (8192, 8208)]
          [4096; 4100; 8192; 8196]
          [(4100, 8192); (8196, 4096)]
          [(4096, "CODE", 12288)]
          []
          4096 12288.

Definition model_cycle : MarkovModel :=
  addTransition (addTransition MarkovModel_init 4096 8192) 8192 4096.

(** Two named functions and a named table. *)
Definition db_named : SimDb :=
  mkSimDb [(4096, "main"); (8192, "CreateFileW"); (12288, "table")]
          [(4096, 4112); (8192, 8208)]
          [4096; 4100; 8192; 12288]
          [(4100, 8192); (12288, 4096)]
          [(4096, "CODE", 12288); (12288, "DATA", 16384)]
          [Some (12292, "hello")]
          4096 16384.

(** A database whose list of strings has a hole. *)
Definition db_none : SimDb :=
  mkSimDb [(4096, "sub_1000"); (8192, "aHello")]
          [(4096, 4112)]
          [4096; 4100; 8192]
          [(4100, 8192)]
          [(4096, "CODE", 8192); (8192, "DATA", 12288)]
          [Some (8192, "hello"); None]
          4096 12288.

(** ** The table of candidates *)

(** Lines 335-339 without the messages: the table after all strings. *)
Definition fold_strings {db : Type} `{IDA db} (d : db)
    (items : list (option (Z * string))) : gmap Z link :=
  foldl (fun functionsHash stringItem =>
           match stringItem with
           | Some item => processStringXrefs d item functionsHash
           | None => functionsHash
           end)
        ∅ items.

(** [sub_1000] is the one function that refers to each of two strings,
    to ["second"] from 0x1008 and to ["first"] from 0x1004. *)
Definition db_two_strings : SimDb :=
  mkSimDb [(4096, "sub_1000"); (8192, "aSecond"); (8200, "aFirst")]
          [(4096, 4112)]
          [4096; 4100; 4104; 8192; 8200]
          [(4104, 8192); (4100, 8200)]
          [(4096, "CODE", 8192); (8192, "DATA", 12288)]
          [Some (8192, "second"); Some (8200, "first")]
          4096 12288.

(** [addTransition] of one state to each destination of a list. *)
Definition fold_state (s : MarkovState) (dests : list Z) : MarkovState :=
  foldl MarkovState_addTransition s dests.

(** ** Weights as doubles *)

(** The weight of an edge of count [c] as line 100 returns it: the double
    nearest to [c / transistions_total]. *)
Definition double_weight (s : MarkovState) (c : Z) : Q :=
  Double.value (Double.nearest c (transistions_total s)).

(** The test of line 49 on a destination, on doubles. *)
Definition below_double (s : MarkovState) (cutoffWeight : Q) (destID : Z)
    : bool :=
  match edges s !! destID with
  | Some c => Qltb (double_weight s c) cutoffWeight
  | None => false
  end.

(** One source whose total is [2^54 + 1]: two destinations reached [2^53]
    times each and a third reached once. *)
Definition source_wide : MarkovState :=
  mkMarkovState 1 (2 ^ 54 + 1)
    (<[2 := 2 ^ 53]> (<[3 := 2 ^ 53]> (<[4 := 1]> ∅))).

Definition model_wide : MarkovModel := <[1 := source_wide]> ∅.

(** The quotient of two positive ints as the Standard Library's
    specification of IEEE 754 rounds it, for a double: 53 bits of mantissa
    and exponents below 1024. *)
Definition spec_div (a b : Z) : SpecFloat.spec_float :=
  let '(m, e, l) := SpecFloat.SFdiv_core_binary 53 1024 a 0 b 0 in
  SpecFloat.binary_round_aux 53 1024 false m e l.

(** [d] stands for the float [f]. *)
Definition same_double (f : SpecFloat.spec_float) (d : Z * Z) : bool :=
  match f with
  | SpecFloat.S754_zero false => Z.eqb (fst d) 0
  | SpecFloat.S754_finite false m e =>
      Qeq_bool (Double.value (Zpos m, e)) (Double.value d)
      && negb (Double.overflows d)
  | SpecFloat.S754_infinity false => Double.overflows d
  | _ => false
  end.

(** Quotients to compare on: small counts, and quotients at a tie, next
    to one half, below the normal doubles and beyond the doubles. *)
Definition sample_quotients : list (Z * Z) :=
  (list_prod (map Z.of_nat (seq 1 30)) (map Z.of_nat (seq 1 30)) ++
   [(1, 10); (2 ^ 53, 2 ^ 54 + 1); (2 ^ 53, 2 ^ 54 - 1);
    (2 ^ 53 + 1, 2 ^ 54 + 1); (2 ^ 53 + 1, 2); (2 ^ 54 + 2, 4);
    (2 ^ 54 + 6, 4); (1, 2 ^ 1074); (3, 2 ^ 1075); (1, 2 ^ 1075);
    (1, 2 ^ 1076); (2 ^ 1024, 1); (2 ^ 1024 - 2 ^ 970, 1);
    (2 ^ 1024 - 2 ^ 970 - 1, 1)])%list.

(** ** One destination of a source *)

(** What lines 413-418 do for one named destination, as seen from the
    start of the loop: one call of [safeName] on the source, with the name
    line 407 read, and one more change. *)
Definition rename_after {db : Type} `{IDA db} (d : db) (sourceThing : Thing)
    (destID : Z) (counts : Z * Z) : M db (Z * Z) :=
  let '(changes, changes_total) := counts in
  bind (safeName (addr sourceThing)
          ("z_" ++ stripExistingPrefix (name (Thing_init d destID)))
          (name sourceThing))
       (fun _ => ret (changes + 1, changes_total + 1)).

(** The order of [map_to_list] backwards: another order a dict may be
    iterated in. *)
Definition reverse_order : DictOrder := {|
  dict_order := fun V m => rev (map fst (map_to_list m));
  dict_order_perm := fun V m => Permutation_sym (Permutation_rev _)
|}.

(** * Properties *)

(** ** The matcher and [re.sub] *)

Section ReFacts.

Variables (p : Re.pattern) (repl : list ascii).

(** Dropping the rest of a match is skipping that many characters. *)
Lemma sub_from_skipn (s : list ascii) (k : nat) :
  Re.sub_from p repl s k = Re.sub_from p repl (skipn k s) 0.
Proof.
  revert k. induction s as [|c t IH]; intros [|k]; simpl; auto.
Qed.

(** The equation [re.sub] obeys at a non-empty input. *)
Lemma sub_cons (c : ascii) (t : list ascii) :
  Re.sub p repl (c :: t) =
    match Re.match_here p (c :: t) with
    | Some (S n) => (repl ++ Re.sub p repl (skipn n t))%list
    | Some O => (repl ++ c :: Re.sub p repl t)%list
    | None => c :: Re.sub p repl t
    end.
Proof.
  unfold Re.sub. simpl Re.sub_from at 1.
  destruct (Re.match_here p (c :: t)) as [[|n]|]; auto.
  now rewrite sub_from_skipn.
Qed.

(** Induction along the scan of [re.sub], for a pattern that matches no
    empty string. *)
Lemma sub_scan_ind (P : list ascii -> list ascii -> Prop) :
  (forall s, Re.match_here p s <> Some O) ->
  P [] [] ->
  (forall c t out,
      Re.match_here p (c :: t) = None -> P t out -> P (c :: t) (c :: out)) ->
  (forall c t n out,
      Re.match_here p (c :: t) = Some (S n) ->
      P (skipn n t) out -> P (c :: t) (repl ++ out)%list) ->
  forall s, P s (Re.sub p repl s).
Proof.
  intros Hpos Hnil Hcopy Hrepl s.
  remember (length s) as n eqn:Hn.
  revert s Hn. induction n as [n IH] using lt_wf_ind. intros s Hn.
  destruct s as [|c t]; [exact Hnil|].
  rewrite sub_cons.
  destruct (Re.match_here p (c :: t)) as [[|k]|] eqn:Hm.
  - now apply Hpos in Hm.
  - apply Hrepl with (n := k); auto.
    apply (IH (length (skipn k t))); auto.
    rewrite length_skipn. simpl in Hn. lia.
  - apply Hcopy; auto. apply (IH (length t)); auto. simpl in Hn. lia.
Qed.

End ReFacts.

(** A pattern made of one class under [+]. *)
Lemma match_here_plus (c : ascii -> bool) (s : list ascii) :
  Re.match_here [Re.plus c] s =
    match Re.run_length c None s with
    | O => None
    | S n => Some (S (n + 0))
    end.
Proof.
  simpl. destruct (Re.run_length c None s) as [|n]; simpl; auto.
Qed.

Lemma run_length_unbounded_cons (c : ascii -> bool) (a : ascii) t :
  Re.run_length c None (a :: t) =
    if c a then S (Re.run_length c None t) else O.
Proof. reflexivity. Qed.

(** After the longest run of a class comes the end or a character
    outside the class. *)
Lemma run_length_stops (c : ascii -> bool) (s : list ascii) :
  match skipn (Re.run_length c None s) s with
  | [] => True
  | a :: _ => c a = false
  end.
Proof.
  induction s as [|a t IH]; simpl; auto.
  destruct (c a) eqn:Ha; simpl; auto.
Qed.

(** A pattern whose first item is a single literal fails where the input
    starts with another character. *)
Lemma match_here_first_literal (ch a : ascii) rest t :
  a <> ch -> Re.match_here (Re.one (Re.lit ch) :: rest) (a :: t) = None.
Proof.
  intros Hne. simpl. unfold Re.lit at 1.
  destruct (Ascii.eqb a ch) eqn:E.
  - apply Ascii.eqb_eq in E. contradiction.
  - reflexivity.
Qed.

Lemma match_here_first_literal_nil (ch : ascii) rest :
  Re.match_here (Re.one (Re.lit ch) :: rest) [] = None.
Proof. reflexivity. Qed.

Lemma try_counts_some (f : nat -> option nat) (n lo r : nat) :
  Re.try_counts f n lo = Some r ->
  exists k, (lo <= k <= n)%nat /\ f k = Some r.
Proof.
  induction n as [|n IH]; simpl.
  - destruct (0 <? lo)%nat eqn:E; [discriminate|].
    apply Nat.ltb_ge in E.
    destruct (f 0%nat) eqn:F; [|discriminate].
    intros [= <-]. exists 0%nat. split; [lia|assumption].
  - destruct (S n <? lo)%nat eqn:E; [discriminate|].
    apply Nat.ltb_ge in E.
    destruct (f (S n)) eqn:F.
    + intros [= <-]. exists (S n). split; [lia|assumption].
    + intros Hr. destruct (IH Hr) as (k & Hk & Hf).
      exists k. split; [lia|assumption].
Qed.

(** A pattern whose first item must be repeated at least once matches no
    empty string: [re.sub] never takes its empty-match branch on it. *)
Lemma match_here_positive (it : Re.item) (rest : Re.pattern) s :
  (1 <= Re.rmin it)%nat -> Re.match_here (it :: rest) s <> Some O.
Proof.
  intros Hmin Hm. simpl in Hm.
  apply try_counts_some in Hm. destruct Hm as (k & Hk & Hf).
  destruct (Re.match_here rest (skipn k s)); simpl in Hf; [|discriminate].
  injection Hf as Hf. lia.
Qed.

(** ** sanitizeString *)

Lemma lit_true (ch a : ascii) : Re.lit ch a = true <-> a = ch.
Proof. unfold Re.lit. apply Ascii.eqb_eq. Qed.

Lemma lit_false (ch a : ascii) : Re.lit ch a = false <-> a <> ch.
Proof. unfold Re.lit. apply Ascii.eqb_neq. Qed.

Lemma word_underscore : Re.word "_" = true.
Proof. reflexivity. Qed.

Lemma word_not_percent (a : ascii) : Re.word a = true -> a <> "%"%char.
Proof. intros Hw ->. discriminate Hw. Qed.

(** *** Step 2: every run of other characters becomes an underscore *)

Lemma sub_nonword_all_word (s : list ascii) :
  all_word (Re.sub NONWORD_RE underscore s).
Proof.
  apply (sub_scan_ind NONWORD_RE underscore (fun _ out => all_word out)).
  - intros s'. apply match_here_positive. simpl. lia.
  - constructor.
  - intros c t out Hm Hout. constructor; auto.
    unfold NONWORD_RE in Hm. rewrite match_here_plus in Hm.
    rewrite run_length_unbounded_cons in Hm.
    destruct (Re.word c); [reflexivity|discriminate].
  - intros c t n out _ Hout. constructor; auto.
Qed.

Lemma sub_nonword_id (s : list ascii) :
  all_word s -> Re.sub NONWORD_RE underscore s = s.
Proof.
  induction 1 as [|a t Ha Ht IH]; [reflexivity|].
  rewrite sub_cons. unfold NONWORD_RE at 1. rewrite match_here_plus.
  rewrite run_length_unbounded_cons, Ha. cbn [negb]. now rewrite IH.
Qed.

(** *** Step 1 leaves a text without a percent sign alone *)

Lemma sub_format_id (s : list ascii) :
  all_word s -> Re.sub FORMAT_RE underscore s = s.
Proof.
  induction 1 as [|a t Ha Ht IH]; [reflexivity|].
  rewrite sub_cons. unfold FORMAT_RE at 1.
  rewrite match_here_first_literal by now apply word_not_percent.
  now rewrite IH.
Qed.

(** *** Step 3: runs of underscores collapse *)

Lemma sub_underscores_shape (s : list ascii) :
  let out := Re.sub UNDERSCORES_RE underscore s in
  no_double out /\
  (all_word s -> all_word out) /\
  (forall r, out = "_"%char :: r -> exists t, s = "_"%char :: t).
Proof.
  apply (sub_scan_ind UNDERSCORES_RE underscore
           (fun s out =>
              no_double out /\ (all_word s -> all_word out) /\
              (forall r, out = "_"%char :: r -> exists t, s = "_"%char :: t))).
  - intros s'. apply match_here_positive. simpl. lia.
  - split; [exact I|]. split; [auto|]. discriminate.
  - intros c t out Hm (Hnd & Hw & Hhd).
    unfold UNDERSCORES_RE in Hm. rewrite match_here_plus in Hm.
    rewrite run_length_unbounded_cons in Hm.
    destruct (Re.lit "_" c) eqn:Hc; [discriminate|].
    apply lit_false in Hc.
    split; [|split].
    + destruct out as [|b out']; simpl; auto. split; auto. tauto.
    + intros Hs. inversion Hs; subst. constructor; auto. now apply Hw.
    + intros r [= -> _]. contradiction.
  - intros c t n out Hm (Hnd & Hw & Hhd).
    unfold UNDERSCORES_RE in Hm. rewrite match_here_plus in Hm.
    rewrite run_length_unbounded_cons in Hm.
    destruct (Re.lit "_" c) eqn:Hc; [|discriminate].
    apply lit_true in Hc. subst c.
    injection Hm as Hm. rewrite Nat.add_0_r in Hm. subst n.
    split; [|split].
    + simpl. destruct out as [|b out']; auto. split; auto.
      intros [_ ->]. destruct (Hhd out' eq_refl) as [t' Ht'].
      pose proof (run_length_stops (Re.lit "_") t) as Hstop.
      rewrite Ht' in Hstop. discriminate Hstop.
    + intros Hs. inversion Hs as [|x l Hx Hl]; subst.
      constructor; [reflexivity|].
      apply Hw. unfold all_word in *. now apply Forall_drop.
    + intros r _. eauto.
Qed.

Lemma sub_underscores_id (s : list ascii) :
  no_double s -> Re.sub UNDERSCORES_RE underscore s = s.
Proof.
  induction s as [|a t IH]; [reflexivity|]. intros Hnd.
  assert (Ht : no_double t).
  { destruct t; simpl in *; tauto. }
  rewrite sub_cons. unfold UNDERSCORES_RE at 1. rewrite match_here_plus.
  rewrite run_length_unbounded_cons.
  destruct (Re.lit "_" a) eqn:Ha.
  - apply lit_true in Ha. subst a.
    assert (Hrun : Re.run_length (Re.lit "_") None t = 0%nat).
    { destruct t as [|b t']; [reflexivity|].
      rewrite run_length_unbounded_cons.
      destruct (Re.lit "_" b) eqn:Hb; [|reflexivity].
      apply lit_true in Hb. subst b. simpl in Hnd. tauto. }
    rewrite Hrun. change (drop (0 + 0) t) with t.
    rewrite IH by assumption. reflexivity.
  - now rewrite IH.
Qed.

(** *** Step 4: [strip('_')] *)

Lemma no_double_tail (a : ascii) (t : list ascii) :
  no_double (a :: t) -> no_double t.
Proof. destruct t; simpl; tauto. Qed.

Lemma lstrip_shape (l : list ascii) :
  head_not_underscore (PyStr.lstrip_chars "_" l) /\
  (all_word l -> all_word (PyStr.lstrip_chars "_" l)) /\
  (no_double l -> no_double (PyStr.lstrip_chars "_" l)).
Proof.
  induction l as [|a t (IH1 & IH2 & IH3)]; simpl.
  - repeat split; auto.
  - destruct (Ascii.eqb a "_") eqn:E.
    + split; [exact IH1|]. split.
      * intros Hw. inversion Hw; auto.
      * intros Hnd. apply IH3. now apply no_double_tail in Hnd.
    + apply Ascii.eqb_neq in E. split; [exact E|]. split; auto.
Qed.

(** What [rstrip] keeps is a prefix of its input. *)
Lemma rstrip_cons_inv (l : list ascii) (x : ascii) (r : list ascii) :
  PyStr.rstrip_chars "_" l = x :: r -> exists t, l = x :: t.
Proof.
  destruct l as [|a t]; simpl; [discriminate|].
  destruct (PyStr.rstrip_chars "_" t).
  - destruct (Ascii.eqb a "_"); [discriminate|]. intros [= -> _]. eauto.
  - intros [= -> _]. eauto.
Qed.

Lemma rstrip_shape (l : list ascii) :
  last_not_underscore (PyStr.rstrip_chars "_" l) /\
  (all_word l -> all_word (PyStr.rstrip_chars "_" l)) /\
  (no_double l -> no_double (PyStr.rstrip_chars "_" l)) /\
  (head_not_underscore l -> head_not_underscore (PyStr.rstrip_chars "_" l)).
Proof.
  induction l as [|a t (IH1 & IH2 & IH3 & IH4)]; simpl.
  - repeat split; auto.
  - destruct (PyStr.rstrip_chars "_" t) as [|x r] eqn:Hr.
    + destruct (Ascii.eqb a "_") eqn:E; simpl.
      * repeat split; auto. intros; constructor.
      * apply Ascii.eqb_neq in E. split; [exact E|]. split; [|split; auto].
        intros Hw. inversion Hw; subst. repeat constructor; auto.
    + destruct (rstrip_cons_inv t x r Hr) as [t' ->].
      split; [exact IH1|]. split; [|split].
      * intros Hw. inversion Hw; subst. constructor; auto. now apply IH2.
      * intros Hnd. simpl in Hnd. destruct Hnd as [Hab Hnd].
        change (~ (a = "_"%char /\ x = "_"%char) /\ no_double (x :: r)).
        split; auto.
      * auto.
Qed.

Lemma lstrip_id (l : list ascii) :
  head_not_underscore l -> PyStr.lstrip_chars "_" l = l.
Proof.
  destruct l as [|a t]; simpl; auto. intros Ha.
  apply Ascii.eqb_neq in Ha. now rewrite Ha.
Qed.

Lemma rstrip_id (l : list ascii) :
  last_not_underscore l -> PyStr.rstrip_chars "_" l = l.
Proof.
  induction l as [|a t IH]; simpl; auto.
  destruct t as [|b t'].
  - intros Ha. apply Ascii.eqb_neq in Ha. simpl. now rewrite Ha.
  - intros Hl. rewrite (IH Hl). reflexivity.
Qed.

(** *** The shape of a sanitized text *)

Lemma sanitizeChars_sanitized (s : list ascii) : sanitized (sanitizeChars s).
Proof.
  unfold sanitizeChars, PyStr.strip_chars.
  set (s1 := Re.sub FORMAT_RE underscore s).
  set (s2 := Re.sub NONWORD_RE underscore s1).
  pose proof (sub_nonword_all_word s1) as Hw2. fold s2 in Hw2.
  destruct (sub_underscores_shape s2) as (Hnd3 & Hw3 & _).
  set (s3 := Re.sub UNDERSCORES_RE underscore s2) in *.
  destruct (lstrip_shape s3) as (Hh4 & Hw4 & Hnd4).
  set (s4 := PyStr.lstrip_chars "_" s3) in *.
  destruct (rstrip_shape s4) as (Hl5 & Hw5 & Hnd5 & Hh5).
  constructor; auto.
Qed.

Lemma sanitizeChars_fixed (l : list ascii) :
  sanitized l -> sanitizeChars l = l.
Proof.
  intros [Hw Hnd Hh Hl]. unfold sanitizeChars, PyStr.strip_chars.
  rewrite sub_format_id by assumption.
  rewrite sub_nonword_id by assumption.
  rewrite sub_underscores_id by assumption.
  rewrite lstrip_id by assumption.
  now apply rstrip_id.
Qed.

Lemma chars_of_chars (l : list ascii) : PyStr.chars (PyStr.of_chars l) = l.
Proof. apply list_ascii_of_string_of_list_ascii. Qed.

Lemma no_double_app_inv (l1 l2 : list ascii) :
  no_double (l1 ++ "_"%char :: "_"%char :: l2) -> False.
Proof.
  induction l1 as [|a t IH]; simpl.
  - tauto.
  - intros H. apply IH. destruct (t ++ _)%list eqn:E; simpl in *; tauto.
Qed.

Lemma last_not_underscore_app_inv (l : list ascii) :
  last_not_underscore (l ++ ["_"%char]) -> False.
Proof.
  induction l as [|a t IH]; simpl.
  - tauto.
  - destruct (t ++ ["_"%char])%list eqn:E.
    + destruct t; discriminate.
    + auto.
Qed.

(** C9. [sanitizeString] is idempotent; its result holds only characters
    of [A-Za-z0-9_], never two underscores in a row, no underscore at
    either end; and ["Error: %d occurred!!"] becomes ["Error_occurred"]. *)
Theorem sanitizeString_idempotent_identifier :
  (forall s : string,
      let out := sanitizeString s in
      sanitizeString out = out /\
      Forall (fun a => Re.word a = true) (PyStr.chars out) /\
      (forall l1 l2,
          PyStr.chars out <> (l1 ++ "_"%char :: "_"%char :: l2)%list) /\
      (forall l, PyStr.chars out <> "_"%char :: l) /\
      (forall l, PyStr.chars out <> (l ++ ["_"%char])%list)) /\
  sanitizeString "Error: %d occurred!!" = "Error_occurred".
Proof.
  split; [|vm_compute; reflexivity].
  intros s out. subst out. unfold sanitizeString.
  rewrite chars_of_chars.
  pose proof (sanitizeChars_sanitized (PyStr.chars s)) as Hs.
  set (l := sanitizeChars (PyStr.chars s)) in *.
  split; [|split; [|split; [|split]]].
  - now rewrite sanitizeChars_fixed.
  - exact (san_word _ Hs).
  - intros l1 l2 E. pose proof (san_no_double _ Hs) as Hnd.
    rewrite E in Hnd. now apply no_double_app_inv in Hnd.
  - intros t E. pose proof (san_head _ Hs) as Hh.
    rewrite E in Hh. now apply Hh.
  - intros t E. pose proof (san_last _ Hs) as Hl.
    rewrite E in Hl. now apply last_not_underscore_app_inv in Hl.
Qed.

(** ** stripExistingPrefix *)

Lemma stripExistingPrefix_no_match (name : string) :
  re_match AUTONAMED_RE name = false -> stripExistingPrefix name = name.
Proof. unfold stripExistingPrefix. now intros ->. Qed.

(** The marker the script writes itself, ["z_"], is removed whole. *)
Lemma stripExistingPrefix_z_underscore (rest : string) :
  stripExistingPrefix (String "z" (String "_" rest)) = rest.
Proof.
  unfold stripExistingPrefix, re_match, PyStr.chars. simpl.
  destruct rest as [|c rest']; simpl; [reflexivity|].
  unfold Re.lit. destruct (Ascii.eqb c "_"); reflexivity.
Qed.

(** C4. Where the marker has the optional character, [AUTONAMED_RE]
    matches three characters and line 116 removes two: the underscore of
    the marker stays.  ["zx_foo"] becomes ["_foo"]. *)
Theorem stripExistingPrefix_leaves_underscore :
  (forall (c : ascii) (rest : string),
      stripExistingPrefix (String "z" (String c (String "_" rest))) =
        if Re.dot c then String "_" rest
        else String "z" (String c (String "_" rest))) /\
  re_match AUTONAMED_RE "zx_foo" = true /\
  stripExistingPrefix "zx_foo" = "_foo".
Proof.
  split; [|split; vm_compute; reflexivity].
  intros c rest.
  unfold stripExistingPrefix, re_match, PyStr.chars. simpl.
  destruct (Re.dot c) eqn:Hdot; simpl.
  - reflexivity.
  - unfold Re.lit at 1.
    destruct (Ascii.eqb c "_") eqn:E; [|reflexivity].
    apply Ascii.eqb_eq in E. subst c. discriminate Hdot.
Qed.

(** ** safeName *)

Lemma append_cons (c : ascii) (s t : string) :
  String c s ++ t = String c (s ++ t).
Proof. reflexivity. Qed.

Lemma append_empty_r (s : string) : s ++ "" = s.
Proof.
  induction s as [|c s IH]; [reflexivity|].
  rewrite append_cons. congruence.
Qed.

Lemma candidates_suffixes (baseName : string) :
  map (String.append baseName) suffixes = candidates baseName.
Proof.
  unfold suffixes, candidates. cbn [map]. rewrite append_empty_r.
  now rewrite map_map.
Qed.

Lemma length_suffixes : Z.of_nat (length suffixes) = 10001.
Proof.
  unfold suffixes, PyStr.range. cbn [length].
  rewrite !length_map, length_seq. lia.
Qed.

Lemma safeName_noop_iff (baseName oldName : string) :
  safeName_noop baseName oldName = true <->
  oldName = baseName \/ PyStr.startswith oldName baseName = true.
Proof.
  unfold safeName_noop. rewrite orb_true_iff, String.eqb_eq. tauto.
Qed.

Section SafeNameFacts.

Context {db : Type} `{IDA db}.

Lemma safeName_loop_cons (addr : Z) (baseName oldName suffix : string)
    (rest : list string) (newName : string) (w : World db) :
  safeName_loop addr baseName oldName (suffix :: rest) newName w =
    let rd := MakeNameEx (ida w) addr (baseName ++ suffix) name_flags in
    let w1 := note (CallMakeNameEx addr (baseName ++ suffix) name_flags
                      (fst rd))
                (mkWorld (snd rd) (renamesTotal w) (stdout w) (events w)) in
    if negb (Z.eqb (fst rd) 0)
    then print (oldName ++ " -> " ++ baseName ++ suffix) w1
    else safeName_loop addr baseName oldName rest (baseName ++ suffix) w1.
Proof.
  cbn [safeName_loop]. unfold bind at 1, call_MakeNameEx.
  destruct (MakeNameEx (ida w) addr (baseName ++ suffix) name_flags)
    as [r d].
  cbn [fst snd]. destruct (negb (Z.eqb r 0)); reflexivity.
Qed.

(** The loop of lines 131-136 asks the database about the names in
    order and stops at the first one it takes. *)
Lemma safeName_loop_spec (addr : Z) (baseName oldName : string)
    (todo : list string) (newName : string) (w : World db) :
  exists k : nat,
    (k <= length todo)%nat /\
    let tried := firstn k (map (String.append baseName) todo) in
    let rets := fst (replay (ida w) addr name_flags tried) in
    let r := fst (safeName_loop addr baseName oldName todo newName w) in
    let w' := snd (safeName_loop addr baseName oldName todo newName w) in
    ida w' = snd (replay (ida w) addr name_flags tried) /\
    renamesTotal w' = renamesTotal w /\
    events w' = (events w ++ calls_of addr name_flags tried rets)%list /\
    ((r = Ret tt /\
      exists (j : nat) (accepted : string) (ret : Z),
        k = S j /\ ret <> 0 /\ rets = (repeat 0 j ++ [ret])%list /\
        nth_error tried j = Some accepted /\
        stdout w' =
          (stdout w ++ [(oldName ++ " -> " ++ accepted)%string])%list) \/
     (k = length todo /\ rets = repeat 0 k /\
      exists msg, r = Raise (RaisedString msg) /\
                  stdout w' = (stdout w ++ [msg])%list)).
Proof.
  revert newName w. induction todo as [|suffix rest IH]; intros newName w.
  - exists 0%nat. split; [reflexivity|]. cbn.
    rewrite app_nil_r. repeat split; auto. right. repeat split; eauto.
  - rewrite safeName_loop_cons. cbv zeta.
    destruct (MakeNameEx (ida w) addr (baseName ++ suffix) name_flags)
      as [ret d1] eqn:Hmk.
    cbn [fst snd].
    destruct (Z.eqb ret 0) eqn:Hret; cbn [negb].
    + apply Z.eqb_eq in Hret. subst ret.
      set (w1 := note _ _).
      destruct (IH (baseName ++ suffix) w1)
        as (k & Hk & Hida & Htot & Hev & Hout).
      exists (S k). split; [simpl; lia|].
      cbn [map firstn replay]. rewrite Hmk.
      change (ida w1) with d1 in Hida, Hev, Hout.
      destruct (replay d1 addr name_flags
                  (firstn k (map (String.append baseName) rest)))
        as [rs d2] eqn:Hrep.
      cbn [fst snd] in *.
      split; [exact Hida|]. split; [exact Htot|].
      split.
      { rewrite Hev. subst w1. unfold note. cbn [events calls_of].
        now rewrite <- app_assoc. }
      destruct Hout as [(Hr & j & acc & rt & -> & Hrt & Hrs & Hnth & Hstd)
                       |(-> & Hrs & msg & Hr & Hstd)].
      * left. split; [exact Hr|].
        exists (S j), acc, rt. repeat split; auto.
        now rewrite Hrs.
      * right. repeat split; auto.
        { now rewrite Hrs. }
        exists msg. split; auto.
    + apply Z.eqb_neq in Hret.
      exists 1%nat. split; [simpl; lia|].
      cbn [map firstn replay]. rewrite Hmk. cbn [fst snd].
      unfold print, note. cbn [fst snd ida renamesTotal events stdout calls_of].
      repeat split; auto.
      left. split; [reflexivity|].
      exists 0%nat, (baseName ++ suffix), ret. repeat split; auto.
Qed.

End SafeNameFacts.

Section SafeNameTheorems.

Context {db : Type} `{IDA db}.

(** A database whose rejections change nothing is left as it was by a
    run of rejections. *)
Lemma replay_rejected (d : db) (addr flags : Z) (names : list string) :
  (forall d n, fst (MakeNameEx d addr n flags) = 0 ->
               snd (MakeNameEx d addr n flags) = d) ->
  fst (replay d addr flags names) = repeat 0 (length names) ->
  snd (replay d addr flags names) = d.
Proof.
  intros Hrej. revert d. induction names as [|n rest IH]; intros d; simpl.
  - reflexivity.
  - specialize (Hrej d n).
    destruct (MakeNameEx d addr n flags) as [r d1].
    specialize (IH d1).
    destruct (replay d1 addr flags rest) as [rs d2]. simpl in *.
    intros [= -> Hrs]. rewrite IH by assumption. now apply Hrej.
Qed.

Lemma safeName_not_noop (addr : Z) (baseName oldName : string)
    (w : World db) :
  safeName_noop baseName oldName = false ->
  safeName addr baseName oldName w =
    safeName_loop addr baseName oldName suffixes baseName
      (mkWorld (ida w) (renamesTotal w + 1) (stdout w)
               (events w ++ [CallSafeName addr baseName oldName])).
Proof. intros Hnoop. unfold safeName. now rewrite Hnoop. Qed.

(** C1, as the code has it.  A call with [oldName] equal to [baseName]
    or starting with it changes nothing and leaves the counter alone.
    Every other call adds one to the counter, at line 129, before the
    first candidate is tried: the counter goes up whether or not a
    candidate is accepted afterwards. *)
Theorem safeName_counter (addr : Z) (baseName oldName : string)
    (w : World db) :
  let r := fst (safeName addr baseName oldName w) in
  let w' := snd (safeName addr baseName oldName w) in
  (safeName_noop baseName oldName = true <->
   oldName = baseName \/ PyStr.startswith oldName baseName = true) /\
  (if safeName_noop baseName oldName
   then r = Ret tt /\ renamesTotal w' = renamesTotal w /\
        ida w' = ida w /\ stdout w' = stdout w
   else renamesTotal w' = renamesTotal w + 1).
Proof.
  cbv zeta. split; [apply safeName_noop_iff|].
  destruct (safeName_noop baseName oldName) eqn:Hnoop.
  - unfold safeName. rewrite Hnoop. auto.
  - rewrite safeName_not_noop by assumption.
    set (w1 := mkWorld _ _ _ _).
    destruct (safeName_loop_spec addr baseName oldName suffixes baseName w1)
      as (k & _ & _ & Htot & _).
    cbv zeta in Htot. rewrite Htot. reflexivity.
Qed.

(** C2. A call that is not a no-op asks the database about
    [baseName], [baseName+"0"], ..., [baseName+"9999"] in this order and
    about nothing else.  It stops at the first name the database takes
    and returns; when all 10001 names are refused it raises.  The
    database it leaves is the one those calls of [MakeNameEx] leave:
    nothing is undone, and a database whose refusals change nothing is
    left untouched by the failed call. *)
Theorem safeName_candidates_in_order (addr : Z) (baseName oldName : string)
    (w : World db) :
  safeName_noop baseName oldName = false ->
  exists k : nat,
    1 <= Z.of_nat k <= 10001 /\
    let tried := firstn k (candidates baseName) in
    let rets := fst (replay (ida w) addr name_flags tried) in
    let r := fst (safeName addr baseName oldName w) in
    let w' := snd (safeName addr baseName oldName w) in
    events w' =
      (events w ++ CallSafeName addr baseName oldName
                :: calls_of addr name_flags tried rets)%list /\
    ida w' = snd (replay (ida w) addr name_flags tried) /\
    ((r = Ret tt /\
      exists (j : nat) (accepted : string) (ret : Z),
        k = S j /\ ret <> 0 /\ rets = (repeat 0 j ++ [ret])%list /\
        nth_error (candidates baseName) j = Some accepted /\
        stdout w' = (stdout w ++ [(oldName ++ " -> " ++ accepted)%string])%list) \/
     (Z.of_nat k = 10001 /\ rets = repeat 0 k /\
      (exists msg, r = Raise (RaisedString msg)) /\
      ((forall d n, fst (MakeNameEx d addr n name_flags) = 0 ->
                    snd (MakeNameEx d addr n name_flags) = d) ->
       ida w' = ida w))).
Proof.
  intros Hnoop. rewrite safeName_not_noop by assumption.
  set (w1 := mkWorld _ _ _ _).
  destruct (safeName_loop_spec addr baseName oldName suffixes baseName w1)
    as (k & Hk & Hida & _ & Hev & Hout).
  cbv zeta in *. rewrite candidates_suffixes in *.
  change (ida w1) with (ida w) in *.
  pose proof length_suffixes as Hlen.
  exists k. split.
  { destruct Hout as [(_ & j & _ & _ & -> & _)|(-> & _)]; lia. }
  split.
  { rewrite Hev. subst w1. cbn [events].
    now rewrite <- app_assoc. }
  split; [exact Hida|].
  destruct Hout as [(Hr & j & acc & rt & -> & Hrt & Hrs & Hnth & Hstd)
                   |(-> & Hrs & msg & Hr & Hstd)].
  - left. split; [exact Hr|]. exists j, acc, rt.
    repeat split; auto.
    rewrite nth_error_firstn in Hnth.
    replace (j <? S j)%nat with true in Hnth
      by (symmetry; apply Nat.ltb_lt; lia).
    exact Hnth.
  - right. split; [lia|]. split; [exact Hrs|]. split; [eauto|].
    intros Hrej. rewrite Hida. apply replay_rejected; [exact Hrej|].
    rewrite Hrs. apply (f_equal (repeat 0)).
    rewrite length_firstn, <- (candidates_suffixes baseName), length_map.
    lia.
Qed.

End SafeNameTheorems.

(** C1, against the claim as written: at an address outside the image
    every candidate is refused, the call raises, and the counter has gone
    up all the same. *)
Lemma safeName_counter_counterexample :
  let w := sim_world db_taken in
  let r := safeName 0 "z_x" "sub_0" w in
  is_raised_string (fst r) = true /\
  forallb rejected (events (snd r)) = true /\
  renamesTotal (snd r) <> renamesTotal w.
Proof.
  cbv zeta.
  set (r := safeName 0 "z_x" "sub_0" (sim_world db_taken)).
  assert (Hrun : is_raised_string (fst r)
                 && forallb rejected (events (snd r))
                 && negb (Z.eqb (renamesTotal (snd r))
                                (renamesTotal (sim_world db_taken))) = true)
    by (vm_compute; reflexivity).
  apply andb_true_iff in Hrun. destruct Hrun as [Hrun Hcount].
  apply andb_true_iff in Hrun. destruct Hrun as [Hraise Hrej].
  apply negb_true_iff, Z.eqb_neq in Hcount. auto.
Qed.

Lemma safeName_candidates_in_order_witness :
  safeName_noop "z_x" "sub_1000" = false /\
  exists k : nat,
    1 <= Z.of_nat k <= 10001 /\
    let w := sim_world db_taken in
    let tried := firstn k (candidates "z_x") in
    let rets := fst (replay (ida w) 4096 name_flags tried) in
    let r := fst (safeName 4096 "z_x" "sub_1000" w) in
    let w' := snd (safeName 4096 "z_x" "sub_1000" w) in
    events w' =
      (events w ++ CallSafeName 4096 "z_x" "sub_1000"
                :: calls_of 4096 name_flags tried rets)%list /\
    ida w' = snd (replay (ida w) 4096 name_flags tried) /\
    ((r = Ret tt /\
      exists (j : nat) (accepted : string) (ret : Z),
        k = S j /\ ret <> 0 /\ rets = (repeat 0 j ++ [ret])%list /\
        nth_error (candidates "z_x") j = Some accepted /\
        stdout w' = (stdout w ++ [("sub_1000" ++ " -> " ++ accepted)%string])%list) \/
     (Z.of_nat k = 10001 /\ rets = repeat 0 k /\
      (exists msg, r = Raise (RaisedString msg)) /\
      ((forall d n, fst (MakeNameEx d 4096 n name_flags) = 0 ->
                    snd (MakeNameEx d 4096 n name_flags) = d) ->
       ida w' = ida w))).
Proof.
  split; [reflexivity|].
  apply (safeName_candidates_in_order 4096 "z_x" "sub_1000"
           (sim_world db_taken)).
  reflexivity.
Defined.

(** On [db_taken] the third candidate, ["z_x1"], is the one accepted. *)
Example safeName_third_candidate :
  let r := safeName 4096 "z_x" "sub_1000" (sim_world db_taken) in
  fst r = Ret tt /\
  events (snd r) =
    [CallSafeName 4096 "z_x" "sub_1000";
     CallMakeNameEx 4096 "z_x" 289 0;
     CallMakeNameEx 4096 "z_x0" 289 0;
     CallMakeNameEx 4096 "z_x1" 289 1] /\
  stdout (snd r) = ["sub_1000 -> z_x1"] /\
  renamesTotal (snd r) = 1.
Proof. vm_compute. auto. Qed.

(** ** Thing.getXrefs *)

Section XrefFacts.

Context {db : Type} `{IDA db}.

Lemma collect_inner (t : Thing) (targets : list Z) (acc : gset Z) (to : Z) :
  to ∈ foldl (fun acc to => if outside t to then acc ∪ {[to]} else acc)
             acc targets
  <-> to ∈ acc \/ (to ∈ targets /\ outside t to = true).
Proof.
  revert acc. induction targets as [|x l IH]; intros acc; simpl.
  - rewrite elem_of_nil. tauto.
  - rewrite IH, elem_of_cons. destruct (outside t x) eqn:Hx.
    + rewrite elem_of_union, elem_of_singleton.
      split; [intros [[?| ->]|[? ?]]|intros [?|[[ -> |?] ?]]]; auto.
    + split; [intros [?|[? ?]]|intros [?|[[ -> |?] ?]]]; auto.
      congruence.
Qed.

Lemma collect_outer (d : db) (t : Thing) (fromAddrs : list Z)
    (acc : gset Z) (to : Z) :
  to ∈ foldl (fun acc fromAddr =>
                foldl (fun acc to =>
                         if outside t to then acc ∪ {[to]} else acc)
                      acc (XrefsFrom d fromAddr))
             acc fromAddrs
  <-> to ∈ acc \/
      ((exists fromAddr, fromAddr ∈ fromAddrs /\ to ∈ XrefsFrom d fromAddr)
       /\ outside t to = true).
Proof.
  revert acc. induction fromAddrs as [|a l IH]; intros acc; simpl.
  - split; [auto|]. intros [?|[(x & Hx & _) _]]; auto.
    now apply elem_of_nil in Hx.
  - rewrite IH, collect_inner. split.
    + intros [[?|[? ?]]|[(x & Hx & Hto) ?]]; auto.
      * right. split; auto. exists a. split; auto. apply elem_of_cons; auto.
      * right. split; auto. exists x. split; auto. apply elem_of_cons; auto.
    + intros [?|[(x & Hx & Hto) ?]]; auto.
      apply elem_of_cons in Hx. destruct Hx as [ -> |Hx]; auto.
      right. split; eauto.
Qed.

Lemma outside_true (t : Thing) (to : Z) :
  outside t to = true <-> to < addr t \/ to > endEA t.
Proof.
  unfold outside. rewrite orb_true_iff, Z.ltb_lt, Z.gtb_gt. tauto.
Qed.

(** C3, as the code has it.  A fresh [Thing] keeps exactly the targets
    of its outward references that are below [addr] or above [endEA]:
    those outside the closed range [addr, endEA].  No kept target lies
    in [addr, endEA), and a target equal to [endEA] is dropped (the
    bounds of a thing are in order, [addr <= endEA]). *)
Theorem getXrefs_outside_closed_range (d : db) (t : Thing) (to : Z) :
  xrefs t = None ->
  let fromAddrs := if isFunction t then FuncItems d (addr t)
                   else [addr t] in
  (to ∈ fst (getXrefs d t) <->
   (exists fromAddr, fromAddr ∈ fromAddrs /\ to ∈ XrefsFrom d fromAddr)
   /\ (to < addr t \/ to > endEA t)) /\
  (to ∈ fst (getXrefs d t) -> ~ (addr t <= to < endEA t)) /\
  (addr t <= endEA t -> to = endEA t -> to ∉ fst (getXrefs d t)).
Proof.
  intros Hfresh fromAddrs.
  assert (Hiff : to ∈ fst (getXrefs d t) <->
           (exists fromAddr,
               fromAddr ∈ fromAddrs /\ to ∈ XrefsFrom d fromAddr)
           /\ (to < addr t \/ to > endEA t)).
  { unfold getXrefs. rewrite Hfresh. cbn [fst]. unfold collect_xrefs.
    fold fromAddrs. rewrite collect_outer, outside_true.
    split; [intros [Hin|?]; auto|auto].
    now apply not_elem_of_empty in Hin. }
  split; [exact Hiff|]. split.
  - intros Hin. apply Hiff in Hin. destruct Hin as [_ Hin]. lia.
  - intros Hle Hto Hin. apply Hiff in Hin. destruct Hin as [_ Hin]. lia.
Qed.

End XrefFacts.

(** C3, against the claim as written: the reference of [off_3000] goes to
    0x3004, which is outside [0x3000, 0x3004), and is not kept. *)
Lemma getXrefs_end_counterexample :
  let t := Thing_init db_end 12288 in
  addr t = 12288 /\ endEA t = 12292 /\
  12292 ∈ XrefsFrom db_end (addr t) /\
  ~ (addr t <= 12292 < endEA t) /\
  12292 ∉ fst (getXrefs db_end t).
Proof.
  cbv zeta. split; [reflexivity|]. split; [reflexivity|].
  split; [vm_compute; apply list_elem_of_here|].
  split; [vm_compute; intros [_ Hlt]; discriminate Hlt|].
  assert (Hempty : fst (getXrefs db_end (Thing_init db_end 12288)) = ∅)
    by (vm_compute; reflexivity).
  rewrite Hempty. apply not_elem_of_empty.
Qed.

Lemma getXrefs_outside_closed_range_witness :
  let d := db_call in
  let t := Thing_init d 4096 in
  let to := 8192 in
  xrefs t = None /\
  let fromAddrs := if isFunction t then FuncItems d (addr t)
                   else [addr t] in
  (to ∈ fst (getXrefs d t) <->
   (exists fromAddr, fromAddr ∈ fromAddrs /\ to ∈ XrefsFrom d fromAddr)
   /\ (to < addr t \/ to > endEA t)) /\
  (to ∈ fst (getXrefs d t) -> ~ (addr t <= to < endEA t)) /\
  (addr t <= endEA t -> to = endEA t -> to ∉ fst (getXrefs d t)).
Proof.
  split; [reflexivity|].
  apply (getXrefs_outside_closed_range db_call (Thing_init db_call 4096) 8192).
  reflexivity.
Defined.

(** ** processStringXrefs *)

Section StringFacts.

Context {db : Type} `{IDA db}.

Lemma string_links_fold (d : db) (text : string) (refs : list Z)
    (links : list link) :
  foldl (fun links refAddr =>
           match get_func d refAddr with
           | Some (funcAddr, _) =>
               let functionName := Name d funcAddr in
               if PyStr.startswith functionName "sub_"
                  || PyStr.startswith functionName "z_"
               then (links ++ [(funcAddr, refAddr, PyStr.strip text)])%list
               else links
           | None => links
           end)
        links refs =
  (links ++ map (fun refAddr => (func_of d refAddr, refAddr,
                                 PyStr.strip text))
                (List.filter (qualifies d) refs))%list.
Proof.
  revert links. induction refs as [|r l IH]; intros links; simpl.
  - now rewrite app_nil_r.
  - rewrite IH. unfold qualifies, func_of.
    destruct (get_func d r) as [[f e]|] eqn:Hg; [|reflexivity].
    cbv zeta.
    destruct (PyStr.startswith (Name d f) "sub_"
              || PyStr.startswith (Name d f) "z_"); [|reflexivity].
    cbn [map]. rewrite Hg. now rewrite <- app_assoc.
Qed.

Lemma string_links_qualifying (d : db) (ea : Z) (text : string) :
  string_links d ea text =
    map (fun refAddr => (func_of d refAddr, refAddr, PyStr.strip text))
        (qualifying_refs d ea).
Proof. unfold string_links. cbv zeta. now rewrite string_links_fold. Qed.

Lemma processStringXrefs_record (d : db) (item : Z * string) (lnk : link)
    (functionsHash : gmap Z link) :
  string_links d (fst item) (snd item) = [lnk] ->
  processStringXrefs d item functionsHash =
    record_candidate lnk functionsHash.
Proof.
  intros Hl. unfold processStringXrefs, record_candidate. rewrite Hl.
  cbv zeta.
  destruct (functionsHash !! lnk.1.1) as [lastLink|] eqn:E;
    rewrite ?E, ?Z.ltb_irrefl; reflexivity.
Qed.

(** C5, as the code has it.  A string yields a candidate exactly when
    it has one qualifying reference: the references are counted, not
    the distinct functions they lie in.  The candidate is then recorded
    for its function unless that function already has one with a
    [refAddr] that is not higher. *)
Theorem processStringXrefs_single_reference (d : db) (ea : Z)
    (text : string) (functionsHash : gmap Z link) :
  processStringXrefs d (ea, text) functionsHash =
    match qualifying_refs d ea with
    | [refAddr] =>
        record_candidate (func_of d refAddr, refAddr, PyStr.strip text)
                         functionsHash
    | _ => functionsHash
    end /\
  (processStringXrefs d (ea, text) ∅ <> ∅ <->
   length (qualifying_refs d ea) = 1%nat).
Proof.
  assert (Heq : processStringXrefs d (ea, text) functionsHash =
    match qualifying_refs d ea with
    | [refAddr] =>
        record_candidate (func_of d refAddr, refAddr, PyStr.strip text)
                         functionsHash
    | _ => functionsHash
    end).
  { pose proof (string_links_qualifying d ea text) as Hl.
    destruct (qualifying_refs d ea) as [|r [|r' l]] eqn:Hq.
    - unfold processStringXrefs. cbn [fst snd]. now rewrite Hl.
    - now apply processStringXrefs_record.
    - unfold processStringXrefs. cbn [fst snd]. now rewrite Hl. }
  split; [exact Heq|].
  pose proof (string_links_qualifying d ea text) as Hl.
  destruct (qualifying_refs d ea) as [|r [|r' l]] eqn:Hq.
  - unfold processStringXrefs. cbn [fst snd]. rewrite Hl. simpl.
    split; [congruence|discriminate].
  - rewrite (processStringXrefs_record d (ea, text) _ ∅ Hl).
    unfold record_candidate. rewrite lookup_empty.
    split; [reflexivity|]. intros _. apply insert_non_empty.
  - unfold processStringXrefs. cbn [fst snd]. rewrite Hl. simpl.
    split; [congruence|discriminate].
Qed.

End StringFacts.

(** C5, against the claim as written: one function, [sub_1000], refers to
    the string, and it qualifies; it refers twice, and no candidate is
    recorded. *)
Lemma processStringXrefs_twice_counterexample :
  qualifying_functions db_twice 8192 = {[4096]} /\
  qualifying_refs db_twice 8192 = [4100; 4104] /\
  processStringXrefs db_twice (8192, "hello") ∅ = ∅.
Proof.
  split; [vm_compute; reflexivity|].
  split; [vm_compute; reflexivity|].
  vm_compute. reflexivity.
Qed.

(** ** The names built from strings *)

Lemma slice_to_length (n : nat) (s : string) :
  (String.length (PyStr.slice_to n s) <= n)%nat.
Proof.
  revert s. induction n as [|n IH]; intros [|c s]; simpl; try lia.
  specialize (IH s). lia.
Qed.

(** [fixupIdaStringNames] hands [safeName] at most 256 characters. *)
Lemma string_newName_length (text : string) :
  (String.length (string_newName text) <= 256)%nat.
Proof. unfold string_newName. apply slice_to_length. Qed.

(** C6. [fixupIdaStringNames] cuts the name at 256 characters (line 357);
    [renameFunctionsBasedOnStrings] has no such line.  For a string of
    300 letters referred to once by [sub_1000], the function is given a
    name of 302 characters, while the string itself is given the first
    256 of them. *)
Theorem renameFunctionsBasedOnStrings_not_truncated :
  let text := string_of 300 "A" in
  let w1 := snd (renameFunctionsBasedOnStrings (sim_world db_long)) in
  let w2 := snd (fixupIdaStringNames (sim_world db_long)) in
  sanitizeString text = text /\
  events w1 = [CallSafeName 4096 ("z_" ++ text) "sub_1000";
               CallMakeNameEx 4096 ("z_" ++ text) 289 1] /\
  String.length ("z_" ++ text) = 302%nat /\
  events w2 = [CallSafeName 8192 ("z_" ++ string_of 254 "A") "aAaaa";
               CallMakeNameEx 8192 ("z_" ++ string_of 254 "A") 289 1] /\
  String.length ("z_" ++ string_of 254 "A") = 256%nat.
Proof.
  cbv zeta. repeat split; vm_compute; reflexivity.
Qed.

(** ** main: the direct strategy *)

(** C8. [renameData] and [renameFunctions] call [xrefsFrom] on every
    unnamed thing they meet, and [Thing] has no such method.  So a pass of
    [main] stops with [AttributeError] at the first unnamed function
    instead of renaming it: on the chain [sub_1000 -> sub_2000 ->
    CreateFileW] nothing is renamed. *)
Theorem main_raises_on_unnamed_function :
  (forall (db : Type) (I : IDA db) (funcAddr changes : Z) (w : World db),
      renameFunctions_func funcAddr changes w =
        if isNamed (Thing_init (ida w) funcAddr)
        then (Ret changes, w)
        else (Raise (AttributeError "xrefsFrom"), w)) /\
  (let r := main 3 (sim_world db_chain) in
   fst r = Raise (AttributeError "xrefsFrom") /\
   ida (snd r) = db_chain /\
   renamesTotal (snd r) = 0 /\
   events (snd r) = []).
Proof.
  split.
  - intros db I funcAddr changes w.
    unfold renameFunctions_func, bind, get_db.
    destruct (isNamed (Thing_init (ida w) funcAddr)); reflexivity.
  - cbv zeta. repeat split; vm_compute; reflexivity.
Qed.

(** ** tester: the Markov-guided strategy *)

Lemma sim_lookup_remove (x a : Z) (l : list (Z * string)) :
  x <> a -> sim_lookup x (sim_remove a l) = sim_lookup x l.
Proof.
  intros Hne. induction l as [|[b n] l IH]; simpl; [reflexivity|].
  destruct (Z.eqb b a) eqn:Eba.
  - apply Z.eqb_eq in Eba. subst b.
    destruct (Z.eqb a x) eqn:Eax; [apply Z.eqb_eq in Eax; congruence|].
    exact IH.
  - simpl. now rewrite IH.
Qed.

#[export] Instance SimDb_frame : IDA_frame SimDb.
Proof.
  split.
  - intros d a n f x. simpl. unfold sim_MakeNameEx.
    destruct (_ || _); reflexivity.
  - intros d a n f x Hne. simpl. unfold sim_MakeNameEx.
    destruct (_ || _); simpl; [reflexivity|].
    destruct (Z.eqb a x) eqn:Eax; [apply Z.eqb_eq in Eax; congruence|].
    now apply sim_lookup_remove.
  - reflexivity.
Qed.

Lemma calls_of_no_safeName (addr flags : Z) (names : list string)
    (rets : list Z) :
  safeName_calls (calls_of addr flags names rets) = [].
Proof.
  revert rets. induction names as [|n l IH]; intros [|r rs]; simpl; auto.
Qed.

Section TesterFacts.

Context {db : Type} `{IDA db} `{!IDA_frame db}.

Lemma same_things_refl (a : Z) (d : db) : same_things_except a d d.
Proof. intros x _. reflexivity. Qed.

Lemma same_things_trans (a : Z) (d1 d2 d3 : db) :
  same_things_except a d1 d2 -> same_things_except a d2 d3 ->
  same_things_except a d1 d3.
Proof.
  intros H12 H23 x Hx. rewrite <- (H12 x Hx). apply H23.
  now rewrite (H12 x Hx).
Qed.

Lemma MakeNameEx_same_things (d : db) (a : Z) (n : string) (f : Z) :
  same_things_except a d (snd (MakeNameEx d a n f)).
Proof.
  intros x Hx. unfold Thing_init in *.
  rewrite MakeNameEx_get_func.
  destruct (get_func d x) as [[s e]|]; cbn [addr] in *.
  - rewrite MakeNameEx_Name by assumption.
    now rewrite MakeNameEx_Demangle.
  - rewrite MakeNameEx_Name by assumption.
    now rewrite MakeNameEx_Demangle.
Qed.

Lemma replay_same_things (d : db) (a f : Z) (names : list string) :
  same_things_except a d (snd (replay d a f names)).
Proof.
  revert d. induction names as [|n l IH]; intros d; simpl.
  - apply same_things_refl.
  - pose proof (MakeNameEx_same_things d a n f) as Hstep.
    destruct (MakeNameEx d a n f) as [r d1]. cbn [snd] in Hstep.
    specialize (IH d1). destruct (replay d1 a f l) as [rs d2].
    cbn [snd] in *. eapply same_things_trans; eauto.
Qed.

(** What one call of [safeName] does, as far as [tester] can tell. *)
Lemma safeName_effect (a : Z) (baseName oldName : string) (w : World db) :
  let r := fst (safeName a baseName oldName w) in
  let w' := snd (safeName a baseName oldName w) in
  (r = Ret tt \/ exists msg, r = Raise (RaisedString msg)) /\
  same_things_except a (ida w) (ida w') /\
  exists evs,
    events w' = (events w ++ CallSafeName a baseName oldName :: evs)%list
    /\ safeName_calls evs = [].
Proof.
  cbv zeta. destruct (safeName_noop baseName oldName) eqn:Hnoop.
  - unfold safeName. rewrite Hnoop. cbn [fst snd note ida events].
    split; [auto|]. split; [apply same_things_refl|].
    exists []. auto.
  - rewrite safeName_not_noop by assumption.
    set (w1 := mkWorld _ _ _ _).
    destruct (safeName_loop_spec a baseName oldName suffixes baseName w1)
      as (k & _ & Hida & _ & Hev & Hout).
    cbv zeta in *. change (ida w1) with (ida w) in *.
    split; [|split].
    + destruct Hout as [(Hr & _)|(_ & _ & msg & Hr & _)]; eauto.
    + rewrite Hida. apply replay_same_things.
    + eexists. split.
      * rewrite Hev. subst w1. cbn [events]. now rewrite <- app_assoc.
      * apply calls_of_no_safeName.
Qed.

Lemma tester_dest_eq (sourceThing : Thing) (destID : Z) (c ct : Z)
    (w : World db) :
  tester_dest sourceThing destID (c, ct) w =
    let destThing := Thing_init (ida w) destID in
    if isNamed destThing then
      match safeName (addr sourceThing)
              ("z_" ++ stripExistingPrefix (name destThing))
              (name sourceThing) w with
      | (Ret _, w') => (Ret (c + 1, ct + 1), w')
      | (Raise e, w') => (Raise e, w')
      end
    else (Ret (c, ct), w).
Proof.
  unfold tester_dest, bind, get_db. cbv zeta.
  destruct (isNamed (Thing_init (ida w) destID)); [|reflexivity].
  destruct (safeName _ _ _ w) as [[u|e] w']; reflexivity.
Qed.

Lemma same_things_dests (a : Z) (d d' : db) (sourceThing : Thing)
    (dests : list Z) :
  same_things_except a d d' ->
  Forall (fun x => addr (Thing_init d x) <> a) dests ->
  Forall (fun x => addr (Thing_init d' x) <> a) dests /\
  named_dests d' dests = named_dests d dests /\
  expected_calls d' sourceThing dests = expected_calls d sourceThing dests.
Proof.
  intros Hsame Hall. unfold expected_calls.
  induction Hall as [|x l Hx Hl (IH1 & IH2 & IH3)]; [auto|].
  pose proof (Hsame x Hx) as Hthing.
  split; [|split].
  - constructor; [now rewrite Hthing|exact IH1].
  - unfold named_dests in *. cbn [List.filter].
    rewrite Hthing, IH2. reflexivity.
  - unfold named_dests in *. cbn [List.filter]. rewrite Hthing.
    destruct (isNamed (Thing_init d x)); cbn [map].
    + rewrite Hthing. f_equal. exact IH3.
    + exact IH3.
Qed.

Lemma for_each_cons {A S : Type} (a : A) (l : list A)
    (body : A -> S -> M db S) (s : S) (w : World db) :
  for_each (a :: l) body s w =
    match body a s w with
    | (Ret s', w') => for_each l body s' w'
    | (Raise e, w') => (Raise e, w')
    end.
Proof. reflexivity. Qed.

(** The inner loop of [tester] (lines 412-418) is one [rename_after] for
    each destination that is named in [d0], a database that differs from
    the current one at the source only. *)
Lemma tester_dests_run (sourceThing : Thing) (dests : list Z) (d0 : db)
    (c ct : Z) (w : World db) :
  same_things_except (addr sourceThing) d0 (ida w) ->
  Forall (fun x => addr (Thing_init d0 x) <> addr sourceThing) dests ->
  for_each dests (tester_dest sourceThing) (c, ct) w =
    for_each (named_dests d0 dests) (rename_after d0 sourceThing) (c, ct) w.
Proof.
  revert c ct w. induction dests as [|x l IH]; intros c ct w Hsame Hall.
  - reflexivity.
  - inversion Hall as [|x' l' Hx Hl]; subst.
    rewrite for_each_cons, tester_dest_eq. cbv zeta.
    unfold named_dests. cbn [List.filter]. rewrite (Hsame x Hx).
    destruct (isNamed (Thing_init d0 x)) eqn:Hnamed.
    + rewrite for_each_cons. unfold rename_after at 1. unfold bind, ret.
      pose proof (safeName_effect (addr sourceThing)
                    ("z_" ++ stripExistingPrefix (name (Thing_init d0 x)))
                    (name sourceThing) w) as Heff.
      cbv zeta in Heff.
      destruct (safeName _ _ _ w) as [[u|e] w1]; cbn [fst snd] in Heff;
        [|reflexivity].
      destruct Heff as (_ & Hsame1 & _).
      apply IH; [|exact Hl].
      eapply same_things_trans; eauto.
    + apply IH; assumption.
Qed.

(** The inner loop of [tester] (lines 412-418): the counts and the calls
    of [safeName] when it ends, and the calls made when it is left by
    line 140. *)
Lemma tester_dests_calls (sourceThing : Thing) (dests : list Z)
    (c ct : Z) (w : World db) :
  Forall (fun x => addr (Thing_init (ida w) x) <> addr sourceThing) dests ->
  let res := for_each dests (tester_dest sourceThing) (c, ct) w in
  match fst res with
  | Ret (c', ct') =>
      c' = c + Z.of_nat (length (named_dests (ida w) dests)) /\
      ct' = ct + Z.of_nat (length (named_dests (ida w) dests)) /\
      exists evs,
        events (snd res) = (events w ++ evs)%list /\
        safeName_calls evs = expected_calls (ida w) sourceThing dests
  | Raise e =>
      exists (msg : string) (evs : list event) (n : nat),
        e = RaisedString msg /\
        events (snd res) = (events w ++ evs)%list /\
        (n < length (named_dests (ida w) dests))%nat /\
        safeName_calls evs =
          firstn (S n) (expected_calls (ida w) sourceThing dests)
  end.
Proof.
  revert c ct w. induction dests as [|x l IH]; intros c ct w Hall.
  - cbn. split; [lia|]. split; [lia|]. exists [].
    now rewrite app_nil_r.
  - inversion Hall as [|x' l' Hx Hl]; subst.
    cbv zeta. rewrite for_each_cons, tester_dest_eq. cbv zeta.
    unfold expected_calls, named_dests. cbn [List.filter].
    destruct (isNamed (Thing_init (ida w) x)) eqn:Hnamed.
    + pose proof (safeName_effect (addr sourceThing)
                    ("z_" ++ stripExistingPrefix
                               (name (Thing_init (ida w) x)))
                    (name sourceThing) w) as Heff.
      cbv zeta in Heff.
      destruct (safeName _ _ _ w) as [[u|e] w1]; cbn [fst snd] in Heff.
      * destruct Heff as (_ & Hsame & evs1 & Hev1 & Hno1).
        destruct (same_things_dests _ _ _ sourceThing l Hsame Hl)
          as (Hl1 & Hnamed1 & Hcalls1).
        specialize (IH (c + 1) (ct + 1) w1 Hl1). cbv zeta in IH.
        destruct (for_each l (tester_dest sourceThing) (c + 1, ct + 1) w1)
          as [[[c' ct']|e] w2]; cbn [fst snd] in *.
        -- destruct IH as (Hc & Hct & evs2 & Hev2 & Hcalls2).
           rewrite Hnamed1 in Hc, Hct.
           unfold named_dests in Hc, Hct.
           cbn [length map]. split; [lia|]. split; [lia|].
           exists (CallSafeName (addr sourceThing)
                     ("z_" ++ stripExistingPrefix
                                (name (Thing_init (ida w) x)))
                     (name sourceThing) :: evs1 ++ evs2)%list.
           split.
           { rewrite Hev2, Hev1. rewrite <- !app_assoc. reflexivity. }
           unfold safeName_calls in *. cbn [List.filter is_CallSafeName].
           rewrite List.filter_app, Hno1, Hcalls2, Hcalls1. reflexivity.
        -- destruct IH as (msg & evs2 & n & He & Hev2 & Hn & Hcalls2).
           rewrite Hnamed1 in Hn. rewrite Hcalls1 in Hcalls2.
           exists msg,
             (CallSafeName (addr sourceThing)
                ("z_" ++ stripExistingPrefix
                           (name (Thing_init (ida w) x)))
                (name sourceThing) :: evs1 ++ evs2)%list, (S n).
           split; [exact He|]. split.
           { rewrite Hev2, Hev1. rewrite <- !app_assoc. reflexivity. }
           unfold named_dests in Hn. cbn [length map]. split; [lia|].
           unfold safeName_calls in *. cbn [List.filter is_CallSafeName].
           rewrite List.filter_app, Hno1, Hcalls2. reflexivity.
      * destruct Heff as ([Hr|[msg Hr]] & _ & evs1 & Hev1 & Hno1);
          [discriminate|].
        injection Hr as ->. cbn [fst snd].
        exists msg,
          (CallSafeName (addr sourceThing)
             ("z_" ++ stripExistingPrefix (name (Thing_init (ida w) x)))
             (name sourceThing) :: evs1)%list, 0%nat.
        split; [reflexivity|]. split; [exact Hev1|].
        cbn [length map]. split; [lia|].
        unfold safeName_calls in *. cbn [List.filter is_CallSafeName].
        rewrite Hno1. reflexivity.
    + specialize (IH c ct w Hl). cbv zeta in IH.
      destruct (for_each l (tester_dest sourceThing) (c, ct) w)
        as [[[c' ct']|e] w2]; cbn [fst snd] in *; exact IH.
Qed.

(** C10. Whatever the order in which the dict of its edges is iterated,
    a source that is not named when the pass reaches it runs, for the
    destinations of its edges that are named, one call of [safeName]
    each, with the name read when its [Thing] was built at line 407, and
    counts one change for each: lines 407-418 are that sequence of calls
    and nothing else.  When they end, the two counts of the pass have
    gone up by the number of those destinations and the calls of
    [safeName] made are the expected ones, in the order of iteration;
    when they are left by the exception of line 140, the calls made are
    the expected ones up to the call that raised.  (The destinations are
    other things than the source.) *)
Theorem tester_source_calls {ord : DictOrder} (markovModel : MarkovModel)
    (sourceID : Z) (source : MarkovState) (c ct : Z) (w : World db) :
  let sourceThing := Thing_init (ida w) sourceID in
  let dests := keys (edges source) in
  isNamed sourceThing = false ->
  markovModel !! sourceID = Some source ->
  Forall (fun destID =>
            addr (Thing_init (ida w) destID) <> addr sourceThing) dests ->
  let res := tester_source markovModel sourceID (c, ct) w in
  res = for_each (named_dests (ida w) dests)
                 (rename_after (ida w) sourceThing) (c, ct) w /\
  match fst res with
  | Ret (changes, changes_total) =>
      changes = c + Z.of_nat (length (named_dests (ida w) dests)) /\
      changes_total = ct + Z.of_nat (length (named_dests (ida w) dests)) /\
      exists evs,
        events (snd res) = (events w ++ evs)%list /\
        safeName_calls evs = expected_calls (ida w) sourceThing dests
  | Raise e =>
      exists (msg : string) (evs : list event) (n : nat),
        e = RaisedString msg /\
        events (snd res) = (events w ++ evs)%list /\
        (n < length (named_dests (ida w) dests))%nat /\
        safeName_calls evs =
          firstn (S n) (expected_calls (ida w) sourceThing dests)
  end.
Proof.
  intros sourceThing dests Hunnamed Hsource Hall res. subst res.
  unfold tester_source, bind, get_db. fold sourceThing.
  rewrite Hunnamed, Hsource. fold dests. split.
  - apply tester_dests_run; [apply same_things_refl|exact Hall].
  - apply (tester_dests_calls sourceThing dests c ct w Hall).
Qed.

End TesterFacts.

Lemma tester_source_calls_witness :
  let w := sim_world db_two in
  let sourceThing := Thing_init (ida w) 4096 in
  let dests := keys (edges source_two) in
  isNamed sourceThing = false /\
  model_two !! 4096 = Some source_two /\
  Forall (fun destID =>
            addr (Thing_init (ida w) destID) <> addr sourceThing) dests /\
  let res := tester_source model_two 4096 (0, 0) w in
  res = for_each (named_dests (ida w) dests)
                 (rename_after (ida w) sourceThing) (0, 0) w /\
  match fst res with
  | Ret (changes, changes_total) =>
      changes = 0 + Z.of_nat (length (named_dests (ida w) dests)) /\
      changes_total = 0 + Z.of_nat (length (named_dests (ida w) dests)) /\
      exists evs,
        events (snd res) = (events w ++ evs)%list /\
        safeName_calls evs = expected_calls (ida w) sourceThing dests
  | Raise e =>
      exists (msg : string) (evs : list event) (n : nat),
        e = RaisedString msg /\
        events (snd res) = (events w ++ evs)%list /\
        (n < length (named_dests (ida w) dests))%nat /\
        safeName_calls evs =
          firstn (S n) (expected_calls (ida w) sourceThing dests)
  end.
Proof.
  assert (Hunnamed : isNamed (Thing_init (ida (sim_world db_two)) 4096)
                     = false) by reflexivity.
  assert (Hsource : model_two !! 4096 = Some source_two)
    by (vm_compute; reflexivity).
  assert (Hall : Forall (fun destID =>
                   addr (Thing_init (ida (sim_world db_two)) destID)
                   <> addr (Thing_init (ida (sim_world db_two)) 4096))
                   (keys (edges source_two))).
  { vm_compute. repeat constructor; discriminate. }
  split; [exact Hunnamed|]. split; [exact Hsource|]. split; [exact Hall|].
  exact (tester_source_calls model_two 4096 source_two 0 0
           (sim_world db_two) Hunnamed Hsource Hall).
Defined.

(** On [db_two] the model is [model_two], and one pass renames
    [sub_1000] twice: both calls of [safeName] carry the old name
    [sub_1000], both names are accepted, and the pass counts two
    changes. *)
Example tester_pass_renames_twice :
  fst (buildMarkovModel (sim_world db_two)) = Ret model_two /\
  let res := tester_source model_two 4096 (0, 0) (sim_world db_two) in
  fst res = Ret (2, 2) /\
  safeName_calls (events (snd res)) =
    expected_calls db_two (Thing_init db_two 4096) (keys (edges source_two)) /\
  Forall (fun e => match e with
                   | CallSafeName a _ old => a = 4096 /\ old = "sub_1000"
                   | CallMakeNameEx a _ _ r => a = 4096 /\ r = 1
                   end) (events (snd res)) /\
  length (events (snd res)) = 4%nat /\
  renamesTotal (snd res) = 2.
Proof.
  split; [vm_compute; reflexivity|].
  cbv zeta. split; [vm_compute; reflexivity|].
  split; [vm_compute; reflexivity|].
  split; [vm_compute; repeat constructor|].
  split; vm_compute; reflexivity.
Qed.

(** On [db_two], in either order of the two edges: [sub_1000] is renamed
    twice in one pass, both calls of [safeName] carry the old name
    [sub_1000], and the pass counts two changes.  The order decides which
    of the two names is the one left. *)
Example tester_source_either_order :
  let run (ord : DictOrder) :=
    tester_source (ord := ord) model_two 4096 (0, 0) (sim_world db_two) in
  keys (ord := gmap_order) (edges source_two) =
    rev (keys (ord := reverse_order) (edges source_two)) /\
  fst (run gmap_order) = Ret (2, 2) /\
  fst (run reverse_order) = Ret (2, 2) /\
  safeName_calls (events (snd (run reverse_order))) =
    rev (safeName_calls (events (snd (run gmap_order)))) /\
  Forall (fun e => match e with
                   | CallSafeName a _ old => a = 4096 /\ old = "sub_1000"
                   | CallMakeNameEx a _ _ r => a = 4096 /\ r = 1
                   end) (events (snd (run reverse_order))) /\
  Name (ida (snd (run gmap_order))) 4096 <>
    Name (ida (snd (run reverse_order))) 4096.
Proof.
  cbv zeta. split; [vm_compute; reflexivity|].
  split; [vm_compute; reflexivity|]. split; [vm_compute; reflexivity|].
  split; [vm_compute; reflexivity|].
  split; [vm_compute; repeat constructor|].
  vm_compute. discriminate.
Qed.

(** ** MarkovModel.cull *)

Lemma edge_sum_comm (e : gmap Z Z) :
  forall (j1 j2 : Z) (z1 z2 y : Z),
    j1 <> j2 -> e !! j1 = Some z1 -> e !! j2 = Some z2 ->
    z1 + (z2 + y) = z2 + (z1 + y).
Proof. intros. lia. Qed.

Lemma edge_sum_empty : edge_sum ∅ = 0.
Proof. unfold edge_sum. apply map_fold_empty. Qed.

Lemma edge_sum_insert (e : gmap Z Z) (k v : Z) :
  e !! k = None -> edge_sum (<[k := v]> e) = v + edge_sum e.
Proof.
  intros Hk. unfold edge_sum.
  rewrite map_fold_insert_L; [reflexivity| |exact Hk].
  intros. lia.
Qed.

Lemma edge_sum_delete (e : gmap Z Z) (k c : Z) :
  e !! k = Some c -> edge_sum e = c + edge_sum (delete k e).
Proof.
  intros Hk. unfold edge_sum.
  rewrite (map_fold_delete_L _ _ k c e); [reflexivity| |exact Hk].
  intros. lia.
Qed.

Lemma edge_sum_insert_delete (e : gmap Z Z) (k v : Z) :
  edge_sum (<[k := v]> e) = v + edge_sum (delete k e).
Proof.
  rewrite <- insert_delete_eq. apply edge_sum_insert, lookup_delete_eq.
Qed.

(** Counts of at least one add up to at least the number of edges. *)
Lemma edge_sum_ge_size (e : gmap Z Z) :
  (forall d c, e !! d = Some c -> 1 <= c) ->
  Z.of_nat (size e) <= edge_sum e.
Proof.
  induction e as [|k v e Hk IH] using map_ind; intros Hpos.
  - rewrite map_size_empty, edge_sum_empty. lia.
  - rewrite map_size_insert_None, edge_sum_insert by assumption.
    assert (1 <= v) by (apply (Hpos k); apply lookup_insert_eq).
    assert (Z.of_nat (size e) <= edge_sum e).
    { apply IH. intros d c Hd. apply (Hpos d).
      rewrite lookup_insert_ne; [exact Hd|]. intros ->. congruence. }
    lia.
Qed.

Lemma wf_state_init (stateID : Z) : wf_state (MarkovState_init stateID).
Proof.
  split; simpl.
  - intros d c Hd. now rewrite lookup_empty in Hd.
  - apply edge_sum_empty.
Qed.

Lemma wf_state_addTransition (s : MarkovState) (toStateID : Z) :
  wf_state s -> wf_state (MarkovState_addTransition s toStateID).
Proof.
  intros [Hpos Hsum]. unfold MarkovState_addTransition.
  destruct (edges s !! toStateID) as [c|] eqn:Hto; cbv zeta.
  - rewrite Hto. cbn [from_option id]. split; cbn [edges transistions_total].
    + intros d c' Hd. rewrite lookup_insert in Hd.
      destruct (decide (toStateID = d)) as [->|Hne].
      * injection Hd as <-. specialize (Hpos _ _ Hto). lia.
      * eauto.
    + rewrite edge_sum_insert_delete.
      rewrite (edge_sum_delete _ _ _ Hto) in Hsum. lia.
  - rewrite lookup_insert_eq. cbn [from_option id]. rewrite insert_insert_eq.
    split; cbn [edges transistions_total].
    + intros d c' Hd. rewrite lookup_insert in Hd.
      destruct (decide (toStateID = d)) as [->|Hne].
      * injection Hd as <-. lia.
      * eauto.
    + rewrite edge_sum_insert by assumption. lia.
Qed.

Lemma built_wf (m : MarkovModel) :
  built m -> forall sourceID source,
    m !! sourceID = Some source -> wf_state source.
Proof.
  induction 1 as [|m f t Hb IH]; intros sourceID source Hs.
  - unfold MarkovModel_init in Hs. now rewrite lookup_empty in Hs.
  - unfold addTransition in Hs.
    destruct (m !! f) as [st|] eqn:Hf.
    + rewrite Hf in Hs. rewrite lookup_insert in Hs.
      destruct (decide (f = sourceID)) as [->|Hne].
      * injection Hs as <-. apply wf_state_addTransition. eauto.
      * eauto.
    + rewrite lookup_insert_eq in Hs. rewrite insert_insert_eq in Hs.
      rewrite lookup_insert in Hs.
      destruct (decide (f = sourceID)) as [->|Hne].
      * injection Hs as <-. apply wf_state_addTransition, wf_state_init.
      * eauto.
Qed.

(** In a well-formed state an edge has a count between one and the
    total. *)
Lemma wf_count_bounds (s : MarkovState) (d c : Z) :
  wf_state s -> edges s !! d = Some c -> 1 <= c <= transistions_total s.
Proof.
  intros [Hpos Hsum] Hd. split; [eauto|].
  rewrite (edge_sum_delete _ _ _ Hd) in Hsum.
  assert (Z.of_nat (size (delete d (edges s))) <= edge_sum (delete d (edges s))).
  { apply edge_sum_ge_size. intros d' c' Hd'.
    rewrite lookup_delete in Hd'. case_decide; [discriminate|eauto]. }
  lia.
Qed.

Lemma elem_of_keys {ord : DictOrder} {V : Type} (m : gmap Z V) (k : Z) :
  k ∈ keys m <-> is_Some (m !! k).
Proof.
  unfold keys. rewrite (dict_order_perm V m), list_elem_of_fmap. split.
  - intros ([k' v] & -> & Hin). apply elem_of_map_to_list in Hin. eauto.
  - intros [v Hv]. exists (k, v). split; [reflexivity|].
    now apply elem_of_map_to_list.
Qed.

Lemma NoDup_keys {ord : DictOrder} {V : Type} (m : gmap Z V) : NoDup (keys m).
Proof.
  unfold keys. rewrite (dict_order_perm V m). apply NoDup_fst_map_to_list.
Qed.

(** Lines 47-50 on a state with a non-zero total: the destinations whose
    weight is below the cutoff are collected, in order. *)
Lemma cull_collect_ok (s : MarkovState) (cutoffWeight : Q)
    (dests cullList : list Z) :
  transistions_total s <> 0 ->
  Forall (fun d => is_Some (edges s !! d)) dests ->
  cull_collect s cutoffWeight dests cullList =
    Ret (cullList ++ List.filter (below s cutoffWeight) dests)%list.
Proof.
  intros Htot Hall. revert cullList.
  induction Hall as [|d l [c Hd] Hl IH]; intros cullList; simpl.
  - now rewrite app_nil_r.
  - unfold weight, below. rewrite Hd.
    destruct (Z.eqb (transistions_total s) 0) eqn:E;
      [apply Z.eqb_eq in E; contradiction|].
    fold (edge_weight s c).
    destruct (Qltb (edge_weight s c) cutoffWeight).
    + rewrite IH. now rewrite <- app_assoc.
    + apply IH.
Qed.

(** Lines 51-52. *)
Lemma lookup_cull_delete (e : gmap Z Z) (cullList : list Z) (k : Z) :
  foldl (fun e destID => delete destID e) e cullList !! k =
    if decide (k ∈ cullList) then None else e !! k.
Proof.
  revert e. induction cullList as [|d l IH]; intros e; cbn [foldl].
  - destruct (decide (k ∈ [])) as [Hin|_]; [|reflexivity].
    now apply elem_of_nil in Hin.
  - rewrite IH.
    destruct (decide (k ∈ l)) as [Hl|Hl];
      destruct (decide (k ∈ d :: l)) as [Hdl|Hdl].
    + reflexivity.
    + exfalso. apply Hdl, elem_of_cons. auto.
    + apply elem_of_cons in Hdl. destruct Hdl as [ -> |Hdl].
      * apply lookup_delete_eq.
      * contradiction.
    + apply lookup_delete_ne. intros ->. apply Hdl, elem_of_cons. auto.
Qed.

(** The loop body of [cull] on a well-formed source: it succeeds, and an
    edge stays exactly when its weight is not below the cutoff. *)
Lemma cull_source_spec (cutoffWeight : Q) (s : MarkovState) :
  wf_state s ->
  exists s',
    cull_source cutoffWeight s = Ret s' /\
    stateID s' = stateID s /\
    transistions_total s' = transistions_total s /\
    forall d c,
      edges s' !! d = Some c <->
      edges s !! d = Some c /\ ~ Qlt (edge_weight s c) cutoffWeight.
Proof.
  intros Hwf. unfold cull_source.
  assert (Hcollect :
    cull_collect s cutoffWeight (keys (edges s)) [] =
      Ret (List.filter (below s cutoffWeight) (keys (edges s)))).
  { destruct (keys (edges s)) as [|d0 l0] eqn:Hkeys; [reflexivity|].
    rewrite <- Hkeys.
    assert (Hd0 : is_Some (edges s !! d0)).
    { apply elem_of_keys. rewrite Hkeys. apply elem_of_cons. auto. }
    destruct Hd0 as [c0 Hd0].
    pose proof (wf_count_bounds s d0 c0 Hwf Hd0) as Hb.
    rewrite cull_collect_ok; [reflexivity|lia|].
    apply Forall_forall. intros d Hd. now apply elem_of_keys. }
  rewrite Hcollect. eexists. split; [reflexivity|].
  split; [reflexivity|]. split; [reflexivity|].
  intros d c. unfold cull_delete. cbn [edges].
  rewrite lookup_cull_delete.
  case_decide as Hin.
  - apply list_elem_of_In, filter_In in Hin. destruct Hin as [_ Hbelow].
    unfold below in Hbelow. split; [discriminate|].
    intros [Hd Hnlt]. rewrite Hd in Hbelow. unfold Qltb in Hbelow.
    destruct (Qlt_le_dec (edge_weight s c) cutoffWeight);
      [contradiction|discriminate].
  - split.
    + intros Hd. split; [exact Hd|]. intros Hlt. apply Hin.
      apply list_elem_of_In, filter_In. split.
      * apply list_elem_of_In, elem_of_keys. eauto.
      * unfold below. rewrite Hd. unfold Qltb.
        destruct (Qlt_le_dec (edge_weight s c) cutoffWeight) as [|Hle];
          [reflexivity|].
        exfalso. eapply Qlt_not_le; eauto.
    + tauto.
Qed.

(** The loop of line 44 over sources that are all well formed. *)
Lemma cull_sources_spec (cutoffWeight : Q) (sources : list Z)
    (m : MarkovModel) :
  NoDup sources ->
  (forall k, k ∈ sources -> exists s, m !! k = Some s /\ wf_state s) ->
  exists m',
    cull_sources cutoffWeight m sources = Ret m' /\
    forall k,
      (k ∈ sources ->
       exists s s', m !! k = Some s /\
                    cull_source cutoffWeight s = Ret s' /\
                    m' !! k = Some s') /\
      (k ∉ sources -> m' !! k = m !! k).
Proof.
  intros Hnd. revert m.
  induction Hnd as [|a l Ha Hl IH]; intros m Hwf; cbn [cull_sources].
  - exists m. split; [reflexivity|]. intros k. split; [|reflexivity].
    intros Hk. now apply elem_of_nil in Hk.
  - destruct (Hwf a) as (s & Hs & Hwfs); [apply elem_of_cons; auto|].
    rewrite Hs.
    destruct (cull_source_spec cutoffWeight s Hwfs) as (s' & Hcull & _).
    rewrite Hcull.
    destruct (IH (<[a := s']> m)) as (m' & Hm' & Hchar).
    { intros k Hk. rewrite lookup_insert_ne by (intros ->; contradiction).
      apply Hwf, elem_of_cons. auto. }
    exists m'. split; [exact Hm'|]. intros k. split.
    + intros Hk. apply elem_of_cons in Hk. destruct Hk as [ -> |Hk].
      * exists s, s'. repeat split; auto.
        destruct (Hchar a) as [_ Hout]. rewrite (Hout Ha).
        apply lookup_insert_eq.
      * destruct (Hchar k) as [Hin _].
        destruct (Hin Hk) as (s1 & s1' & Hs1 & Hc1 & Hm1).
        exists s1, s1'. repeat split; auto.
        rewrite lookup_insert_ne in Hs1 by (intros ->; contradiction).
        exact Hs1.
    + intros Hk. destruct (Hchar k) as [_ Hout].
      rewrite Hout by (intros Hkl; apply Hk, elem_of_cons; auto).
      apply lookup_insert_ne. intros ->. apply Hk, elem_of_cons. auto.
Qed.

(** Against the cutoff one half, the weight of an edge is a comparison
    of twice its count with the total. *)
Lemma weight_lt_half (s : MarkovState) (c : Z) (cutoffWeight : Q) :
  0 < transistions_total s ->
  Qeq cutoffWeight (Qmake 1 2) ->
  (Qlt (edge_weight s c) cutoffWeight <-> 2 * c < transistions_total s).
Proof.
  intros Hpos Hcut. rewrite Hcut. unfold edge_weight.
  destruct (transistions_total s) as [|t|t]; try lia.
  unfold Qlt, Qdiv, Qmult, Qinv, inject_Z. simpl. lia.
Qed.

Lemma weight_eq_half (s : MarkovState) (c : Z) :
  0 < transistions_total s ->
  (Qeq (edge_weight s c) (Qmake 1 2) <-> 2 * c = transistions_total s).
Proof.
  intros Hpos. unfold edge_weight.
  destruct (transistions_total s) as [|t|t]; try lia.
  unfold Qeq, Qdiv, Qmult, Qinv, inject_Z. simpl. lia.
Qed.

(** What survives the cutoff one half: at most one edge, unless the
    source has two edges of weight one half, which both stay. *)
Lemma half_survivors (s : MarkovState) (e' : gmap Z Z) (cutoffWeight : Q) :
  wf_state s ->
  Qeq cutoffWeight (Qmake 1 2) ->
  (forall d c,
      e' !! d = Some c <->
      edges s !! d = Some c /\ ~ Qlt (edge_weight s c) cutoffWeight) ->
  (size e' <= 1)%nat \/
  (size (edges s) = 2%nat /\ e' = edges s /\
   forall d c, edges s !! d = Some c ->
               Qeq (edge_weight s c) (Qmake 1 2)).
Proof.
  intros Hwf Hcut Hchar.
  destruct (le_lt_dec (size e') 1) as [Hle|Hgt]; [left; exact Hle|right].
  assert (Hne : e' <> ∅).
  { intros ->. rewrite map_size_empty in Hgt. lia. }
  destruct (map_choose _ Hne) as (d1 & c1 & Hd1).
  assert (Hne2 : delete d1 e' <> ∅).
  { intros Hempty. apply map_size_empty_iff in Hempty.
    rewrite map_size_delete_Some in Hempty by eauto. lia. }
  destruct (map_choose _ Hne2) as (d2 & c2 & Hd2).
  rewrite lookup_delete in Hd2.
  destruct (decide (d1 = d2)) as [|Hne12]; [discriminate|].
  apply Hchar in Hd1. destruct Hd1 as [He1 Hw1].
  apply Hchar in Hd2. destruct Hd2 as [He2 Hw2].
  pose proof (wf_count_bounds s d1 c1 Hwf He1) as Hb1.
  assert (Htot : 0 < transistions_total s) by lia.
  rewrite (weight_lt_half s c1 _ Htot Hcut) in Hw1.
  rewrite (weight_lt_half s c2 _ Htot Hcut) in Hw2.
  destruct Hwf as [Hpos Hsum].
  rewrite (edge_sum_delete _ d1 c1 He1) in Hsum.
  assert (He2' : delete d1 (edges s) !! d2 = Some c2).
  { rewrite lookup_delete_ne by assumption. exact He2. }
  rewrite (edge_sum_delete _ d2 c2 He2') in Hsum.
  set (rest := delete d2 (delete d1 (edges s))) in *.
  assert (Hrest : Z.of_nat (size rest) <= edge_sum rest).
  { apply edge_sum_ge_size. intros d c Hd. subst rest.
    rewrite lookup_delete in Hd. case_decide; [discriminate|].
    rewrite lookup_delete in Hd. case_decide; [discriminate|]. eauto. }
  assert (Hempty : rest = ∅).
  { apply map_size_empty_iff. lia. }
  assert (Hall : forall d c, edges s !! d = Some c -> 2 * c = transistions_total s).
  { intros d c Hd.
    destruct (decide (d = d1)) as [ -> |Hn1]; [assert (c = c1) by congruence; lia|].
    destruct (decide (d = d2)) as [ -> |Hn2]; [assert (c = c2) by congruence; lia|].
    assert (Hin : rest !! d = Some c).
    { subst rest. rewrite !lookup_delete_ne by congruence. exact Hd. }
    rewrite Hempty, lookup_empty in Hin. discriminate. }
  split; [|split].
  - assert (Hs1 : size (delete d1 (edges s)) = pred (size (edges s)))
      by (apply map_size_delete_Some; eauto).
    assert (Hs2 : size rest = pred (size (delete d1 (edges s))))
      by (apply map_size_delete_Some; eauto).
    rewrite Hempty, map_size_empty in Hs2.
    assert (size (edges s) <> 0%nat).
    { apply map_size_non_empty_iff. intros Hem. rewrite Hem in He1.
      now rewrite lookup_empty in He1. }
    assert (size (delete d1 (edges s)) <> 0%nat).
    { apply map_size_non_empty_iff. intros Hem. rewrite Hem in He2'.
      now rewrite lookup_empty in He2'. }
    lia.
  - apply map_eq. intros k.
    destruct (edges s !! k) as [c|] eqn:Hk.
    + apply Hchar. split; [exact Hk|].
      rewrite (weight_lt_half s c _ Htot Hcut).
      specialize (Hall k c Hk). lia.
    + destruct (e' !! k) as [c|] eqn:Hk'; [|reflexivity].
      apply Hchar in Hk'. destruct Hk' as [Hk' _]. congruence.
  - intros d c Hd. apply weight_eq_half; [exact Htot|]. eauto.
Qed.

(** ** Rounding to a double *)

Lemma rne_div_bounds (a b : Z) :
  0 <= a -> 0 < b ->
  2 * Double.rne_div a b * b <= 2 * a + b /\
  2 * a <= 2 * Double.rne_div a b * b + b /\
  0 <= Double.rne_div a b.
Proof.
  intros Ha Hb. unfold Double.rne_div.
  pose proof (Z.div_mod a b ltac:(lia)) as Hdm.
  pose proof (Z.mod_pos_bound a b Hb) as Hr.
  pose proof (Z.div_pos a b Ha Hb) as Hq.
  set (q := a / b) in *. set (r := a mod b) in *.
  destruct (Z.compare_spec (2 * r) b) as [He|Hl|Hg].
  - destruct (Z.even q); nia.
  - nia.
  - nia.
Qed.

Lemma pow2_pos (x : Z) : 0 <= x -> 0 < 2 ^ x.
Proof. intros. apply Z.pow_pos_nonneg; lia. Qed.

Lemma pow2_succ (x : Z) : 0 <= x -> 2 ^ (x + 1) = 2 * 2 ^ x.
Proof. intros. rewrite Z.pow_add_r by lia. lia. Qed.

Lemma pow2_le (x y : Z) : 0 <= x <= y -> 2 ^ x <= 2 ^ y.
Proof. intros. apply Z.pow_le_mono_r; lia. Qed.

(** [ilog2_ratio a b] is the [L] with [2^L <= a / b < 2^(L+1)]. *)
Lemma ilog2_ratio_spec (a b : Z) :
  0 < a -> 0 < b ->
  let L := Double.ilog2_ratio a b in
  (0 <= L -> b * 2 ^ L <= a /\ a < b * 2 ^ (L + 1)) /\
  (L < 0 -> b <= a * 2 ^ (- L) /\ a * 2 ^ (- L - 1) < b).
Proof.
  intros Ha Hb. unfold Double.ilog2_ratio.
  pose proof (Z.log2_spec a Ha) as [HA1 HA2].
  pose proof (Z.log2_spec b Hb) as [HB1 HB2].
  pose proof (Z.log2_nonneg a) as Hla. pose proof (Z.log2_nonneg b) as Hlb.
  rewrite <- Z.add_1_r in HA2, HB2.
  rewrite pow2_succ in HA2, HB2 by lia.
  set (la := Z.log2 a) in *. set (lb := Z.log2 b) in *.
  pose proof (pow2_pos la Hla) as HpA. pose proof (pow2_pos lb Hlb) as HpB.
  destruct (Z.leb_spec 0 (la - lb)) as [Hk|Hk].
  - assert (HAB : 2 ^ la = 2 ^ lb * 2 ^ (la - lb)).
    { rewrite <- Z.pow_add_r by lia. f_equal. lia. }
    pose proof (pow2_pos (la - lb) Hk) as Hpk.
    destruct (Z.leb_spec (b * 2 ^ (la - lb)) a) as [Ht|Ht]; cbv zeta.
    + split; [|lia]. intros _. split; [exact Ht|].
      rewrite pow2_succ by lia. nia.
    + split.
      * intros HL. replace (la - lb - 1 + 1) with (la - lb) by lia.
        split; [|exact Ht].
        assert (Hk' : 2 ^ (la - lb) = 2 * 2 ^ (la - lb - 1)).
        { rewrite <- pow2_succ by lia. f_equal. lia. }
        pose proof (pow2_pos (la - lb - 1) HL). nia.
      * intros HL. assert (Hk0 : la - lb = 0) by lia.
        rewrite Hk0 in *. replace (- (0 - 1)) with 1 by lia.
        replace (1 - 1) with 0 by lia. change (2 ^ 0) with 1 in *.
        change (2 ^ 1) with 2. nia.
  - assert (HAB : 2 ^ lb = 2 ^ la * 2 ^ (- (la - lb))).
    { rewrite <- Z.pow_add_r by lia. f_equal. lia. }
    pose proof (pow2_pos (- (la - lb)) ltac:(lia)) as Hpk.
    destruct (Z.leb_spec b (a * 2 ^ (- (la - lb)))) as [Ht|Ht]; cbv zeta.
    + split; [lia|]. intros _. split; [exact Ht|].
      assert (Hk' : 2 ^ (- (la - lb)) = 2 * 2 ^ (- (la - lb) - 1)).
      { rewrite <- pow2_succ by lia. f_equal. lia. }
      pose proof (pow2_pos (- (la - lb) - 1) ltac:(lia)). nia.
    + split; [lia|]. intros _.
      replace (- (la - lb - 1)) with (- (la - lb) + 1) by lia.
      replace (- (la - lb) + 1 - 1) with (- (la - lb)) by lia.
      rewrite pow2_succ by lia. split; [nia|exact Ht].
Qed.

Lemma ilog2_ratio_nonpos (c t : Z) :
  0 < c <= t -> Double.ilog2_ratio c t <= 0.
Proof.
  intros Hct.
  pose proof (ilog2_ratio_spec c t ltac:(lia) ltac:(lia)) as [Hnn _].
  cbv zeta in Hnn.
  destruct (Z.le_gt_cases (Double.ilog2_ratio c t) 0) as [?|HL];
    [assumption|].
  destruct (Hnn ltac:(lia)) as [Hlow _].
  assert (2 ^ 1 <= 2 ^ Double.ilog2_ratio c t) by (apply pow2_le; lia).
  change (2 ^ 1) with 2 in *. nia.
Qed.

(** A quotient that is at most one: the exponent is negative and the
    mantissa at most [2^(-e)], so the double is at most one. *)
Lemma nearest_le_one (c t : Z) :
  0 < c <= t ->
  let '(M, e) := Double.nearest c t in
  e < 0 /\ 0 <= M <= 2 ^ (- e).
Proof.
  intros Hct. unfold Double.nearest.
  pose proof (ilog2_ratio_nonpos c t Hct) as HL.
  set (L := Double.ilog2_ratio c t) in *.
  set (e := Z.max (L - 52) (-1074)).
  assert (He : e < 0) by lia.
  destruct (Z.ltb_spec e 0) as [_|?]; [|lia].
  split; [exact He|].
  pose proof (pow2_pos (- e) ltac:(lia)) as HP.
  set (P := 2 ^ (- e)) in *.
  pose proof (rne_div_bounds (c * P) t ltac:(nia) ltac:(lia))
    as (Hup & _ & Hnn0).
  split; [exact Hnn0|]. nia.
Qed.

(** The comparison of line 49 with one half, for a total below [2^54]:
    rounding to a double does not change it. *)
Lemma nearest_below_half (c t : Z) :
  0 < c <= t -> t < 2 ^ 54 ->
  let '(M, e) := Double.nearest c t in
  e < 0 /\ (2 * M < 2 ^ (- e) <-> 2 * c < t) /\
           (2 * c = t -> 2 * M = 2 ^ (- e)).
Proof.
  intros Hct Ht. unfold Double.nearest.
  pose proof (ilog2_ratio_spec c t ltac:(lia) ltac:(lia)) as [Hnn Hneg].
  cbv zeta in Hnn, Hneg.
  pose proof (ilog2_ratio_nonpos c t Hct) as HL.
  set (L := Double.ilog2_ratio c t) in *.
  assert (HL' : -54 <= L).
  { destruct (Z.le_gt_cases (-54) L) as [?|HL']; [assumption|].
    destruct (Hneg ltac:(lia)) as [_ Hup].
    assert (2 ^ 54 <= 2 ^ (- L - 1)) by (apply pow2_le; lia).
    nia. }
  replace (Z.max (L - 52) (-1074)) with (L - 52) by lia.
  destruct (Z.ltb_spec (L - 52) 0) as [_|?]; [|lia].
  split; [lia|].
  assert (HPH : 2 ^ (- (L - 52)) = 2 * 2 ^ (- (L - 52) - 1)).
  { rewrite <- pow2_succ by lia. f_equal. lia. }
  pose proof (pow2_pos (- (L - 52) - 1) ltac:(lia)) as HH.
  set (P := 2 ^ (- (L - 52))) in *. set (Hf := 2 ^ (- (L - 52) - 1)) in *.
  pose proof (rne_div_bounds (c * P) t ltac:(nia) ltac:(lia))
    as (Hup & Hlow & _).
  set (M := Double.rne_div (c * P) t) in *.
  assert (Hlt : 2 * c < t -> M < Hf).
  { intros Hc.
    assert (HL2 : L <= -2).
    { destruct (Z.le_gt_cases L (-2)) as [?|HL2]; [assumption|].
      assert (HLc : L = 0 \/ L = -1) by lia.
      destruct HLc as [HL0 | HL0].
      - destruct (Hnn ltac:(lia)) as [Hlow0 _]. rewrite HL0 in Hlow0.
        change (2 ^ 0) with 1 in Hlow0. lia.
      - destruct (Hneg ltac:(lia)) as [Hlow0 _]. rewrite HL0 in Hlow0.
        change (2 ^ (- -1)) with 2 in Hlow0. lia. }
    assert (HP54 : 2 ^ 54 <= P) by (apply pow2_le; lia).
    nia. }
  assert (Hge : t <= 2 * c -> Hf <= M) by (intros Hc; nia).
  split; [split; intros Hx|intros Hx].
  - destruct (Z.lt_ge_cases (2 * c) t) as [?|Hc]; [assumption|].
    specialize (Hge Hc). lia.
  - specialize (Hlt Hx). lia.
  - assert (Hf <= M) by (apply Hge; lia).
    assert (M <= Hf) by nia. lia.
Qed.

(** Line 100 on an edge of a state whose counts are positive and at most
    the total: the double [double_weight] is returned, no exception. *)
Lemma weight_double_ok (s : MarkovState) (d c : Z) :
  edges s !! d = Some c -> 0 < c <= transistions_total s ->
  weight_double s d = Ret (double_weight s c).
Proof.
  intros Hd Hc. unfold weight_double, true_div, double_weight. rewrite Hd.
  destruct (Z.eqb_spec (transistions_total s) 0) as [?|_]; [lia|].
  destruct (Z.eqb_spec c 0) as [?|_]; [lia|].
  rewrite (Z.abs_eq c), (Z.abs_eq (transistions_total s)) by lia.
  pose proof (nearest_le_one c (transistions_total s) Hc) as Hn.
  destruct (Double.nearest c (transistions_total s)) as [M e].
  destruct Hn as (He & HM0 & HM).
  assert (Hov : Double.overflows (M, e) = false).
  { unfold Double.overflows.
    destruct (Z.ltb_spec e 0) as [_|?]; [|lia].
    apply Z.leb_gt. pose proof (pow2_pos (- e) ltac:(lia)).
    assert (1 < 2 ^ 1024) by (apply Z.pow_gt_1; lia). nia. }
  rewrite Hov.
  rewrite (Z.sgn_pos c), (Z.sgn_pos (transistions_total s)) by lia.
  reflexivity.
Qed.

Lemma double_weight_lt_half (s : MarkovState) (c : Z) (cutoffWeight : Q) :
  0 < c <= transistions_total s -> transistions_total s < 2 ^ 54 ->
  Qeq cutoffWeight (Qmake 1 2) ->
  (Qlt (double_weight s c) cutoffWeight <-> 2 * c < transistions_total s).
Proof.
  intros Hc Ht Hcut. rewrite Hcut. unfold double_weight.
  pose proof (nearest_below_half c (transistions_total s) Hc Ht) as Hn.
  destruct (Double.nearest c (transistions_total s)) as [M e].
  destruct Hn as (He & Hlt & _). rewrite <- Hlt.
  unfold Double.value. destruct (Z.ltb_spec e 0) as [_|?]; [|lia].
  pose proof (pow2_pos (- e) ltac:(lia)) as HP.
  unfold Qlt. cbn [Qnum Qden]. rewrite Z2Pos.id by exact HP. lia.
Qed.

Lemma double_weight_eq_half (s : MarkovState) (c : Z) :
  0 < c -> transistions_total s < 2 ^ 54 ->
  2 * c = transistions_total s ->
  Qeq (double_weight s c) (Qmake 1 2).
Proof.
  intros Hc Ht H2. unfold double_weight.
  pose proof (nearest_below_half c (transistions_total s) ltac:(lia) Ht)
    as Hn.
  destruct (Double.nearest c (transistions_total s)) as [M e].
  destruct Hn as (He & _ & Heq). specialize (Heq H2).
  unfold Double.value. destruct (Z.ltb_spec e 0) as [_|?]; [|lia].
  pose proof (pow2_pos (- e) ltac:(lia)) as HP.
  unfold Qeq. cbn [Qnum Qden]. rewrite Z2Pos.id by exact HP. lia.
Qed.

(** ** cull on doubles *)

(** Lines 47-50 on a state whose counts are positive and at most the
    total: the destinations whose double weight is below the cutoff are
    collected, in order. *)
Lemma cull_collect_double_ok (s : MarkovState) (cutoffWeight : Q)
    (dests cullList : list Z) :
  Forall (fun d => exists c, edges s !! d = Some c /\
                             0 < c <= transistions_total s) dests ->
  cull_collect_double s cutoffWeight dests cullList =
    Ret (cullList ++ List.filter (below_double s cutoffWeight) dests)%list.
Proof.
  intros Hall. revert cullList.
  induction Hall as [|d l (c & Hd & Hc) Hl IH]; intros cullList; simpl.
  - now rewrite app_nil_r.
  - rewrite (weight_double_ok s d c Hd Hc). unfold below_double.
    rewrite Hd.
    destruct (Qltb (double_weight s c) cutoffWeight).
    + rewrite IH. now rewrite <- app_assoc.
    + apply IH.
Qed.

(** The loop body of [cull_double] on a well-formed source: it succeeds,
    and an edge stays exactly when its double weight is not below the
    cutoff. *)
Lemma cull_source_double_spec {ord : DictOrder} (cutoffWeight : Q)
    (s : MarkovState) :
  wf_state s ->
  exists s',
    cull_source_double cutoffWeight s = Ret s' /\
    stateID s' = stateID s /\
    transistions_total s' = transistions_total s /\
    forall d c,
      edges s' !! d = Some c <->
      edges s !! d = Some c /\ ~ Qlt (double_weight s c) cutoffWeight.
Proof.
  intros Hwf. unfold cull_source_double.
  rewrite cull_collect_double_ok.
  2:{ apply Forall_forall. intros d Hd. apply elem_of_keys in Hd.
      destruct Hd as [c Hd]. exists c. split; [exact Hd|].
      pose proof (wf_count_bounds s d c Hwf Hd). lia. }
  cbn [app]. eexists. split; [reflexivity|].
  split; [reflexivity|]. split; [reflexivity|].
  intros d c. unfold cull_delete. cbn [edges].
  rewrite lookup_cull_delete.
  case_decide as Hin.
  - apply list_elem_of_In, filter_In in Hin. destruct Hin as [_ Hbelow].
    unfold below_double in Hbelow. split; [discriminate|].
    intros [Hd Hnlt]. rewrite Hd in Hbelow. unfold Qltb in Hbelow.
    destruct (Qlt_le_dec (double_weight s c) cutoffWeight);
      [contradiction|discriminate].
  - split.
    + intros Hd. split; [exact Hd|]. intros Hlt. apply Hin.
      apply list_elem_of_In, filter_In. split.
      * apply list_elem_of_In, elem_of_keys. eauto.
      * unfold below_double. rewrite Hd. unfold Qltb.
        destruct (Qlt_le_dec (double_weight s c) cutoffWeight) as [|Hle];
          [reflexivity|].
        exfalso. eapply Qlt_not_le; eauto.
    + tauto.
Qed.

(** The loop of line 44 over sources that are all well formed. *)
Lemma cull_sources_double_spec {ord : DictOrder} (cutoffWeight : Q)
    (sources : list Z) (m : MarkovModel) :
  NoDup sources ->
  (forall k, k ∈ sources -> exists s, m !! k = Some s /\ wf_state s) ->
  exists m',
    cull_sources_double cutoffWeight m sources = Ret m' /\
    forall k,
      (k ∈ sources ->
       exists s s', m !! k = Some s /\
                    cull_source_double cutoffWeight s = Ret s' /\
                    m' !! k = Some s') /\
      (k ∉ sources -> m' !! k = m !! k).
Proof.
  intros Hnd. revert m.
  induction Hnd as [|a l Ha Hl IH]; intros m Hwf; cbn [cull_sources_double].
  - exists m. split; [reflexivity|]. intros k. split; [|reflexivity].
    intros Hk. now apply elem_of_nil in Hk.
  - destruct (Hwf a) as (s & Hs & Hwfs); [apply elem_of_cons; auto|].
    rewrite Hs.
    destruct (cull_source_double_spec cutoffWeight s Hwfs)
      as (s' & Hcull & _).
    rewrite Hcull.
    destruct (IH (<[a := s']> m)) as (m' & Hm' & Hchar).
    { intros k Hk. rewrite lookup_insert_ne by (intros ->; contradiction).
      apply Hwf, elem_of_cons. auto. }
    exists m'. split; [exact Hm'|]. intros k. split.
    + intros Hk. apply elem_of_cons in Hk. destruct Hk as [ -> |Hk].
      * exists s, s'. repeat split; auto.
        destruct (Hchar a) as [_ Hout]. rewrite (Hout Ha).
        apply lookup_insert_eq.
      * destruct (Hchar k) as [Hin _].
        destruct (Hin Hk) as (s1 & s1' & Hs1 & Hc1 & Hm1).
        exists s1, s1'. repeat split; auto.
        rewrite lookup_insert_ne in Hs1 by (intros ->; contradiction).
        exact Hs1.
    + intros Hk. destruct (Hchar k) as [_ Hout].
      rewrite Hout by (intros Hkl; apply Hk, elem_of_cons; auto).
      apply lookup_insert_ne. intros ->. apply Hk, elem_of_cons. auto.
Qed.

(** [cull_double] on a model built by [addTransition]. *)
Lemma cull_double_built {ord : DictOrder} (m : MarkovModel)
    (cutoffWeight : Q) :
  built m ->
  exists m',
    cull_double m cutoffWeight = Ret m' /\
    forall k,
      match m !! k with
      | None => m' !! k = None
      | Some s =>
          exists s',
            m' !! k = Some s' /\
            stateID s' = stateID s /\
            transistions_total s' = transistions_total s /\
            forall d c,
              edges s' !! d = Some c <->
              edges s !! d = Some c /\
              ~ Qlt (double_weight s c) cutoffWeight
      end.
Proof.
  intros Hb. unfold cull_double.
  destruct (cull_sources_double_spec cutoffWeight (keys m) m)
    as (m' & Hm' & Hchar).
  { apply NoDup_keys. }
  { intros k Hk. apply elem_of_keys in Hk. destruct Hk as [s Hs].
    exists s. split; [exact Hs|]. eapply built_wf; eauto. }
  exists m'. split; [exact Hm'|]. intros k.
  destruct (m !! k) as [s|] eqn:Hs.
  - destruct (Hchar k) as [Hin _].
    destruct Hin as (s0 & s' & Hs0 & Hcull & Hs'); [apply elem_of_keys; eauto|].
    assert (s0 = s) by congruence. subst s0.
    destruct (cull_source_double_spec cutoffWeight s (built_wf m Hb _ _ Hs))
      as (s'' & Hcull' & Hrest).
    assert (s'' = s') by congruence. subst s''.
    exists s'. split; [exact Hs'|exact Hrest].
  - destruct (Hchar k) as [_ Hout]. rewrite Hout; [exact Hs|].
    intros Hin. apply elem_of_keys in Hin. destruct Hin as [s Hs'].
    congruence.
Qed.

(** C7. On a model built by [addTransition], and whatever the order in
    which the dicts are iterated, [cull] succeeds and removes from every
    source exactly the edges whose weight, the double that line 100
    returns for [edges[to] / transistions_total], is below the cutoff.
    At the cutoff one half a source whose total is below [2^54] keeps at
    most one edge, unless it has exactly two destinations of weight one
    half each, and then both edges stay. *)
Theorem cull_drops_below_cutoff {ord : DictOrder} (m : MarkovModel)
    (cutoffWeight : Q) :
  built m ->
  exists m',
    cull_double m cutoffWeight = Ret m' /\
    forall sourceID,
      match m !! sourceID with
      | None => m' !! sourceID = None
      | Some source =>
          exists source',
            m' !! sourceID = Some source' /\
            stateID source' = stateID source /\
            transistions_total source' = transistions_total source /\
            (forall destID c,
                edges source !! destID = Some c ->
                weight_double source destID =
                  Ret (double_weight source c)) /\
            (forall destID c,
                edges source' !! destID = Some c <->
                edges source !! destID = Some c /\
                ~ Qlt (double_weight source c) cutoffWeight) /\
            (Qeq cutoffWeight PROBABILITY_CUTTOFF ->
             (transistions_total source < 2 ^ 54 ->
              (size (edges source') <= 1)%nat \/
              (size (edges source) = 2%nat /\
               edges source' = edges source /\
               forall destID c,
                 edges source !! destID = Some c ->
                 Qeq (double_weight source c) (Qmake 1 2))) /\
             (size (edges source) = 2%nat ->
              (forall destID c,
                  edges source !! destID = Some c ->
                  Qeq (double_weight source c) (Qmake 1 2)) ->
              edges source' = edges source))
      end.
Proof.
  intros Hbuilt.
  destruct (cull_double_built m cutoffWeight Hbuilt) as (m' & Hm' & Hchar).
  exists m'. split; [exact Hm'|]. intros sourceID. specialize (Hchar sourceID).
  destruct (m !! sourceID) as [source|] eqn:Hsrc; [|exact Hchar].
  destruct Hchar as (s' & Hs' & Hid & Htot & Hedges).
  pose proof (built_wf m Hbuilt sourceID source Hsrc) as Hwf.
  exists s'. split; [exact Hs'|]. split; [exact Hid|].
  split; [exact Htot|]. split.
  { intros destID c Hd. apply weight_double_ok; [exact Hd|].
    pose proof (wf_count_bounds source destID c Hwf Hd). lia. }
  split; [exact Hedges|].
  intros Hcut. unfold PROBABILITY_CUTTOFF in Hcut. split.
  - intros Hbound.
    assert (Hexact : forall d c,
               edges s' !! d = Some c <->
               edges source !! d = Some c /\
               ~ Qlt (edge_weight source c) cutoffWeight).
    { intros d c. rewrite Hedges.
      split; intros [Hd Hn]; (split; [exact Hd|]);
        pose proof (wf_count_bounds source d c Hwf Hd) as Hb;
        rewrite (double_weight_lt_half source c _ ltac:(lia) Hbound Hcut)
          in *;
        rewrite (weight_lt_half source c _ ltac:(lia) Hcut) in *;
        exact Hn. }
    destruct (half_survivors source (edges s') cutoffWeight Hwf Hcut Hexact)
      as [Hle|(Hsz & Heq & Hhalf)]; [left; exact Hle|right].
    split; [exact Hsz|]. split; [exact Heq|].
    intros destID c Hd.
    pose proof (wf_count_bounds source destID c Hwf Hd) as Hb.
    apply double_weight_eq_half; [lia|exact Hbound|].
    apply (weight_eq_half source c ltac:(lia)). eauto.
  - intros _ Hhalf. apply map_eq. intros k.
    destruct (edges source !! k) as [c|] eqn:Hk.
    + apply Hedges. split; [exact Hk|].
      rewrite Hcut, (Hhalf k c Hk). apply Qlt_irrefl.
    + destruct (edges s' !! k) as [c|] eqn:Hk'; [|reflexivity].
      apply Hedges in Hk'. destruct Hk' as [Hk' _]. congruence.
Qed.

Lemma cull_drops_below_cutoff_witness :
  built model_tie /\
  exists m',
    cull_double model_tie PROBABILITY_CUTTOFF = Ret m' /\
    forall sourceID,
      match model_tie !! sourceID with
      | None => m' !! sourceID = None
      | Some source =>
          exists source',
            m' !! sourceID = Some source' /\
            stateID source' = stateID source /\
            transistions_total source' = transistions_total source /\
            (forall destID c,
                edges source !! destID = Some c ->
                weight_double source destID =
                  Ret (double_weight source c)) /\
            (forall destID c,
                edges source' !! destID = Some c <->
                edges source !! destID = Some c /\
                ~ Qlt (double_weight source c) PROBABILITY_CUTTOFF) /\
            (Qeq PROBABILITY_CUTTOFF PROBABILITY_CUTTOFF ->
             (transistions_total source < 2 ^ 54 ->
              (size (edges source') <= 1)%nat \/
              (size (edges source) = 2%nat /\
               edges source' = edges source /\
               forall destID c,
                 edges source !! destID = Some c ->
                 Qeq (double_weight source c) (Qmake 1 2))) /\
             (size (edges source) = 2%nat ->
              (forall destID c,
                  edges source !! destID = Some c ->
                  Qeq (double_weight source c) (Qmake 1 2)) ->
              edges source' = edges source))
      end.
Proof.
  assert (Hbuilt : built model_tie).
  { unfold model_tie. apply built_add, built_add, built_init. }
  split; [exact Hbuilt|].
  exact (cull_drops_below_cutoff model_tie PROBABILITY_CUTTOFF Hbuilt).
Defined.

(** [addTransition] on an edge that is there. *)
Lemma addTransition_again (m : MarkovModel) (f t : Z) (s : MarkovState)
    (c : Z) :
  m !! f = Some s -> edges s !! t = Some c ->
  addTransition m f t =
    <[f := mkMarkovState (stateID s) (transistions_total s + 1)
             (<[t := c + 1]> (edges s))]> m.
Proof.
  intros Hf Ht. unfold addTransition. rewrite Hf, Hf.
  unfold MarkovState_addTransition. rewrite Ht. cbv zeta. rewrite Ht.
  reflexivity.
Qed.

(** The same transition recorded [n] more times. *)
Lemma built_again (m : MarkovModel) (f t : Z) (s : MarkovState) (c n : Z) :
  built m -> m !! f = Some s -> edges s !! t = Some c -> 0 <= n ->
  built (<[f := mkMarkovState (stateID s) (transistions_total s + n)
                  (<[t := c + n]> (edges s))]> m).
Proof.
  intros Hb Hf Ht Hn. revert n Hn. apply natlike_ind.
  - rewrite !Z.add_0_r, (insert_id (edges s)) by exact Ht.
    rewrite insert_id; [exact Hb|]. rewrite Hf. now destruct s.
  - intros n Hn IH.
    apply (built_add _ f t) in IH.
    erewrite addTransition_again in IH;
      [|apply lookup_insert_eq|cbn [edges]; apply lookup_insert_eq].
    cbn [stateID transistions_total edges] in IH.
    rewrite !insert_insert_eq in IH.
    replace (transistions_total s + Z.succ n)
      with (transistions_total s + n + 1) by lia.
    replace (c + Z.succ n) with (c + n + 1) by lia.
    exact IH.
Qed.

(** [model_wide] is a model the script can build: [2^54 + 1] transitions
    out of one source. *)
Lemma built_model_wide : built model_wide.
Proof.
  assert (H1 : built (addTransition MarkovModel_init 1 2))
    by apply built_add, built_init.
  apply (built_again _ 1 2 (mkMarkovState 1 1 (<[2 := 1]> ∅)) 1
           (2 ^ 53 - 1)) in H1; [|reflexivity|reflexivity|lia].
  apply (built_add _ 1 3) in H1.
  apply (built_again _ 1 3
           (mkMarkovState 1 (2 ^ 53 + 1) (<[3 := 1]> (<[2 := 2 ^ 53]> ∅)))
           1 (2 ^ 53 - 1)) in H1; [|vm_compute; reflexivity|reflexivity|lia].
  apply (built_add _ 1 4) in H1.
  match type of H1 with
  | built ?m => assert (Heq : model_wide = m) by (vm_compute; reflexivity)
  end.
  rewrite Heq. exact H1.
Qed.

(** Past [2^54] the rounding shows.  [model_wide] is built by
    [addTransition]; of the three destinations of its source the two of
    count [2^53] have the exact weight [2^53 / (2^54 + 1)], below one
    half, and the double weight one half.  Both stay: at the cutoff one
    half a source with three destinations keeps two edges. *)
Lemma cull_wide_counterexample :
  built model_wide /\
  model_wide !! 1 = Some source_wide /\
  size (edges source_wide) = 3%nat /\
  Qlt (edge_weight source_wide (2 ^ 53)) (Qmake 1 2) /\
  weight_double source_wide 2 = Ret (Qmake (2 ^ 53) (2 ^ 54)) /\
  weight_double source_wide 3 = Ret (Qmake (2 ^ 53) (2 ^ 54)) /\
  exists m' source',
    cull_double model_wide PROBABILITY_CUTTOFF = Ret m' /\
    m' !! 1 = Some source' /\
    size (edges source') = 2%nat /\
    edges source' !! 2 = Some (2 ^ 53) /\
    edges source' !! 3 = Some (2 ^ 53).
Proof.
  split; [exact built_model_wide|].
  split; [reflexivity|]. split; [reflexivity|]. split; [reflexivity|].
  split; [vm_compute; reflexivity|]. split; [vm_compute; reflexivity|].
  exists (<[1 := mkMarkovState 1 (2 ^ 54 + 1)
                   (<[2 := 2 ^ 53]> (<[3 := 2 ^ 53]> ∅))]> ∅),
         (mkMarkovState 1 (2 ^ 54 + 1)
            (<[2 := 2 ^ 53]> (<[3 := 2 ^ 53]> ∅))).
  split; [vm_compute; reflexivity|]. repeat split.
Qed.

(** [Double.nearest] against the division of the Standard Library's IEEE
    754 specification. *)
Example nearest_is_the_IEEE_quotient :
  forallb (fun '(a, b) => same_double (spec_div a b) (Double.nearest a b))
          sample_quotients = true /\
  Double.nearest 1 10 = (7205759403792794, -56) /\
  Qlt (Qmake 1 10) (Double.value (Double.nearest 1 10)) /\
  true_div 1 0 = Raise ZeroDivisionError /\
  true_div (2 ^ 1024) 1 = Raise OverflowError /\
  true_div 0 7 = Ret (inject_Z 0) /\
  true_div (-1) 2 = Ret (Qmake (- 2 ^ 52) (2 ^ 53)).
Proof.
  split; [vm_compute; reflexivity|]. split; [vm_compute; reflexivity|].
  split; [vm_compute; reflexivity|]. split; [reflexivity|].
  split; [vm_compute; reflexivity|]. split; [reflexivity|].
  vm_compute. reflexivity.
Qed.

(** The tie stays whole; of counts two and one the larger stays; three
    equal destinations all go. *)
Example cull_examples :
  cull model_tie PROBABILITY_CUTTOFF = Ret model_tie /\
  cull (addTransition model_tie 1 2) PROBABILITY_CUTTOFF =
    Ret (<[1 := mkMarkovState 1 3 (<[2 := 2]> ∅)]> ∅) /\
  cull (addTransition model_tie 1 4) PROBABILITY_CUTTOFF =
    Ret (<[1 := mkMarkovState 1 3 ∅]> ∅).
Proof. repeat split; vm_compute; reflexivity. Qed.

(** A name that already starts with the base name is left alone. *)
Example safeName_noop_examples :
  safeName_noop "z_x" "z_x1" = true /\
  safeName_noop "z_x" "z_x" = true /\
  safeName_noop "z_x1" "z_x" = false /\
  safeName_noop "" "sub_1000" = true.
Proof. repeat split; reflexivity. Qed.

(** * Further properties *)

(** ** The matcher finds matches *)

Lemma run_length_sound (c : ascii -> bool) (limit : option nat)
    (s : list ascii) :
  let n := Re.run_length c limit s in
  (n <= length s)%nat /\
  Forall (fun a => c a = true) (firstn n s) /\
  match limit with Some h => (n <= h)%nat | None => True end.
Proof.
  revert limit. induction s as [|a t IH]; intros limit; cbn zeta.
  - destruct limit as [[|h]|]; simpl; repeat split; auto; lia.
  - destruct limit as [[|h]|]; simpl.
    + repeat split; auto; lia.
    + destruct (c a) eqn:Ha; simpl.
      * destruct (IH (Some h)) as (H1 & H2 & H3). simpl in *.
        repeat split; [lia|constructor; auto|lia].
      * repeat split; auto; lia.
    + destruct (c a) eqn:Ha; simpl.
      * destruct (IH None) as (H1 & H2 & _). simpl in *.
        repeat split; [lia|constructor; auto].
      * repeat split; auto; lia.
Qed.

Lemma Forall_firstn_le {A : Type} (P : A -> Prop) (l : list A) (k n : nat) :
  (k <= n)%nat -> Forall P (firstn n l) -> Forall P (firstn k l).
Proof.
  revert k n. induction l as [|a t IH]; intros k n Hkn Hall.
  - destruct k; constructor.
  - destruct k as [|k]; [constructor|].
    destruct n as [|n]; [lia|].
    simpl in *. inversion Hall; subst. constructor; auto.
    apply (IH k n); [lia|assumption].
Qed.

(** What [match_here] returns is the length of a prefix of the input
    that the pattern matches. *)
Lemma match_here_sound (p : Re.pattern) (s : list ascii) (n : nat) :
  Re.match_here p s = Some n ->
  (n <= length s)%nat /\ matches p (firstn n s).
Proof.
  revert s n. induction p as [|it rest IH]; intros s n Hm.
  - injection Hm as <-. split; [lia|reflexivity].
  - cbn [Re.match_here] in Hm.
    apply try_counts_some in Hm. destruct Hm as (k & Hk & Hf).
    destruct (Re.match_here rest (skipn k s)) as [m|] eqn:Hrest;
      [|discriminate].
    simpl in Hf. injection Hf as <-.
    destruct (IH _ _ Hrest) as (Hlen & Hmatch).
    pose proof (run_length_sound (Re.cls it) (Re.rmax it) s) as Hrun.
    cbv zeta in Hrun. destruct Hrun as (Hrl & Hall & Hlim).
    rewrite length_skipn in Hlen.
    split; [lia|].
    exists (firstn k s), (firstn m (skipn k s)).
    split; [|split; [|split]].
    + rewrite <- (firstn_skipn k s) at 1.
      rewrite firstn_app, firstn_firstn.
      rewrite length_firstn.
      replace (Init.Nat.min (k + m) k) with k by lia.
      replace (k + m - Init.Nat.min k (length s))%nat with m by lia.
      reflexivity.
    + eapply Forall_firstn_le; [|exact Hall]. lia.
    + rewrite length_firstn. split; [lia|].
      destruct (Re.rmax it); [lia|exact I].
    + exact Hmatch.
Qed.

(** ** Names the script writes *)

Lemma bad_prefix_z (x : string) :
  BADPREFIXES_RE_match (String "z" x) = false.
Proof. reflexivity. Qed.

(** X1. A name built by the formula of lines 238, 259 and 415,
    ["z_" + stripExistingPrefix(name)], is not empty and matches no
    placeholder prefix, so the thing that carries it is named; and the
    formula applied to such a name gives the same name back: the marker
    does not pile up. *)
Theorem naming_formula_stable (x : string) (a e : Z) (isf : bool)
    (cache : option (gset Z)) :
  let n := "z_" ++ stripExistingPrefix x in
  isNamed (mkThing a e isf n cache) = true /\
  "z_" ++ stripExistingPrefix n = n.
Proof.
  cbv zeta. rewrite !append_cons. split.
  - reflexivity.
  - change ("" ++ stripExistingPrefix x) with (stripExistingPrefix x).
    now rewrite stripExistingPrefix_z_underscore.
Qed.

(** X2. [AUTONAMED_RE] matches exactly the names that start with ["z_"]
    or with ["z"], one character other than a newline, and ["_"]; every
    other name, the empty one included, is returned unchanged by
    [stripExistingPrefix]. *)
Theorem stripExistingPrefix_matches (name : string) :
  (re_match AUTONAMED_RE name = true <->
   (exists rest, name = String "z" (String "_" rest)) \/
   (exists c rest, Re.dot c = true /\
                   name = String "z" (String c (String "_" rest)))) /\
  (re_match AUTONAMED_RE name = false -> stripExistingPrefix name = name).
Proof.
  split; [|apply stripExistingPrefix_no_match].
  unfold re_match, PyStr.chars.
  destruct name as [|a [|b [|c rest]]]; cbn.
  - split; [discriminate|]. intros [[r Hr]|(c & r & _ & Hr)]; discriminate.
  - unfold Re.lit. destruct (Ascii.eqb a "z"); cbn;
      (split; [discriminate|]);
      intros [[r Hr]|(c & r & _ & Hr)]; discriminate.
  - unfold Re.lit.
    destruct (Ascii.eqb_spec a "z") as [ -> |Ha]; cbn.
    + destruct (Re.dot b) eqn:Hb; cbn.
      * destruct (Ascii.eqb_spec b "_") as [ -> |Hb']; cbn.
        -- split; [eauto|reflexivity].
        -- split; [discriminate|].
           intros [[r Hr]|(c & r & _ & Hr)]; [congruence|discriminate].
      * destruct (Ascii.eqb_spec b "_") as [ -> |Hb']; cbn.
        -- discriminate Hb.
        -- split; [discriminate|].
           intros [[r Hr]|(c & r & _ & Hr)]; [congruence|discriminate].
    + split; [discriminate|].
      intros [[r Hr]|(c' & r & _ & Hr)]; congruence.
  - unfold Re.lit.
    destruct (Ascii.eqb_spec a "z") as [ -> |Ha]; cbn.
    + destruct (Re.dot b) eqn:Hb; cbn.
      * destruct (Ascii.eqb_spec c "_") as [ -> |Hc]; cbn.
        -- split; [|reflexivity]. intros _. right. eauto.
        -- destruct (Ascii.eqb_spec b "_") as [ -> |Hb']; cbn.
           ++ split; [eauto|reflexivity].
           ++ split; [discriminate|].
              intros [[r Hr]|(c' & r & _ & Hr)]; congruence.
      * destruct (Ascii.eqb_spec b "_") as [ -> |Hb']; cbn.
        -- discriminate Hb.
        -- split; [discriminate|].
           intros [[r Hr]|(c' & r & Hd & Hr)]; [congruence|].
           injection Hr as -> -> ->. congruence.
    + split; [discriminate|].
      intros [[r Hr]|(c' & r & _ & Hr)]; congruence.
Qed.

(** ** More on sanitizeString *)

Lemma of_chars_chars (s : string) : PyStr.of_chars (PyStr.chars s) = s.
Proof. apply string_of_list_ascii_of_string. Qed.

Lemma length_chars (s : string) : length (PyStr.chars s) = String.length s.
Proof. induction s as [|c s IH]; simpl; congruence. Qed.

(** X3. The texts [sanitizeString] leaves as they are are exactly those
    made of characters of [A-Za-z0-9_] with no two underscores in a row
    and no underscore at either end. *)
Theorem sanitizeString_fixed_points (s : string) :
  sanitizeString s = s <-> sanitized (PyStr.chars s).
Proof.
  unfold sanitizeString. split.
  - intros Hfix. rewrite <- Hfix at 1. rewrite chars_of_chars.
    apply sanitizeChars_sanitized.
  - intros Hsan. rewrite sanitizeChars_fixed by assumption.
    apply of_chars_chars.
Qed.

(** Replacing matches that are not empty by one character does not
    lengthen a text. *)
Lemma sub_one_length (p : Re.pattern) (c : ascii) (s : list ascii) :
  (forall s', Re.match_here p s' <> Some O) ->
  (length (Re.sub p [c] s) <= length s)%nat.
Proof.
  intros Hpos.
  apply (sub_scan_ind p [c]
           (fun s out => (length out <= length s)%nat)); auto.
  - intros a t out _ Hle. simpl. lia.
  - intros a t n out _ Hle. rewrite length_skipn in Hle. simpl. lia.
Qed.

Lemma lstrip_length (ch : ascii) (l : list ascii) :
  (length (PyStr.lstrip_chars ch l) <= length l)%nat.
Proof.
  induction l as [|a t IH]; simpl; [lia|].
  destruct (Ascii.eqb a ch); simpl; lia.
Qed.

Lemma rstrip_length (ch : ascii) (l : list ascii) :
  (length (PyStr.rstrip_chars ch l) <= length l)%nat.
Proof.
  induction l as [|a t IH]; simpl; [lia|].
  destruct (PyStr.rstrip_chars ch t); simpl in *.
  - destruct (Ascii.eqb a ch); simpl; lia.
  - lia.
Qed.

(** X4. [sanitizeString] never lengthens a text. *)
Theorem sanitizeString_length (s : string) :
  (String.length (sanitizeString s) <= String.length s)%nat.
Proof.
  unfold sanitizeString. rewrite <- !length_chars, chars_of_chars.
  unfold sanitizeChars, PyStr.strip_chars, underscore.
  set (l := PyStr.chars s).
  pose proof (sub_one_length FORMAT_RE "_" l) as H1.
  pose proof (sub_one_length NONWORD_RE "_" (Re.sub FORMAT_RE ["_"%char] l))
    as H2.
  pose proof (sub_one_length UNDERSCORES_RE "_"
                (Re.sub NONWORD_RE ["_"%char]
                   (Re.sub FORMAT_RE ["_"%char] l))) as H3.
  set (l3 := Re.sub UNDERSCORES_RE _ _) in *.
  pose proof (lstrip_length "_" l3) as H4.
  pose proof (rstrip_length "_" (PyStr.lstrip_chars "_" l3)) as H5.
  assert (forall it rest s', (1 <= Re.rmin it)%nat ->
            Re.match_here (it :: rest) s' <> Some O) as Hpos
    by (intros; now apply match_here_positive).
  specialize (H1 ltac:(intros; apply Hpos; simpl; lia)).
  specialize (H2 ltac:(intros; apply Hpos; simpl; lia)).
  specialize (H3 ltac:(intros; apply Hpos; simpl; lia)).
  lia.
Qed.

Lemma fmt_conv_alnum (a : ascii) : fmt_conv a = true -> alnum a = true.
Proof.
  unfold fmt_conv, Re.oneof, PyStr.chars. simpl. intros H.
  repeat (apply orb_true_iff in H; destruct H as [H|H]);
    try discriminate; apply Ascii.eqb_eq in H; subst a; reflexivity.
Qed.

(** A format directive ends in a letter. *)
Lemma format_needs_letter (s : list ascii) :
  Forall (fun a => alnum a = false) s -> Re.match_here FORMAT_RE s = None.
Proof.
  intros Hno. destruct (Re.match_here FORMAT_RE s) as [n|] eqn:Hm;
    [|reflexivity].
  exfalso. apply match_here_sound in Hm. destruct Hm as [_ Hm].
  assert (Hpre : Forall (fun a => alnum a = false) (firstn n s))
    by now apply Forall_take.
  unfold FORMAT_RE in Hm. cbn [matches] in Hm.
  destruct Hm as (l1 & r1 & E1 & _ & _ & l2 & r2 & E2 & _ & _
                  & l3 & r3 & E3 & _ & _ & l4 & r4 & E4 & _ & _
                  & l5 & r5 & E5 & Hconv & [Hlen _] & _).
  destruct l5 as [|a l5]; [simpl in Hlen; lia|].
  inversion Hconv as [|? ? Ha _]; subst.
  apply fmt_conv_alnum in Ha.
  rewrite E1 in Hpre.
  rewrite !Forall_app in Hpre.
  destruct Hpre as (_ & _ & _ & _ & Hpre & _).
  inversion Hpre as [|? ? Hna _]; subst. simpl in Hna, Ha. congruence.
Qed.

Lemma sub_format_no_letter (s : list ascii) :
  Forall (fun a => alnum a = false) s ->
  Re.sub FORMAT_RE underscore s = s.
Proof.
  induction s as [|a t IH]; [reflexivity|]. intros Hno.
  rewrite sub_cons, format_needs_letter by assumption.
  inversion Hno; subst. now rewrite IH.
Qed.

Lemma sub_nonword_no_letter (s : list ascii) :
  Forall (fun a => alnum a = false) s ->
  Forall (eq "_"%char) (Re.sub NONWORD_RE underscore s).
Proof.
  apply (sub_scan_ind NONWORD_RE underscore
           (fun s out => Forall (fun a => alnum a = false) s ->
                         Forall (eq "_"%char) out)).
  - intros s'. apply match_here_positive. simpl. lia.
  - constructor.
  - intros c t out Hm IH Hno. inversion Hno as [|? ? Hc Ht]; subst.
    constructor; [|auto].
    unfold NONWORD_RE in Hm. rewrite match_here_plus in Hm.
    rewrite run_length_unbounded_cons in Hm.
    unfold alnum in Hc.
    destruct (Re.word c); [|discriminate Hm].
    simpl in Hc. apply negb_false_iff, lit_true in Hc. now subst.
  - intros c t n out _ IH Hno. inversion Hno as [|? ? _ Ht]; subst.
    constructor; [reflexivity|]. apply IH. now apply Forall_drop.
Qed.

Lemma sub_underscores_all_underscore (s : list ascii) :
  Forall (eq "_"%char) s ->
  Forall (eq "_"%char) (Re.sub UNDERSCORES_RE underscore s).
Proof.
  apply (sub_scan_ind UNDERSCORES_RE underscore
           (fun s out => Forall (eq "_"%char) s -> Forall (eq "_"%char) out)).
  - intros s'. apply match_here_positive. simpl. lia.
  - constructor.
  - intros c t out _ IH Hall. inversion Hall; subst. constructor; auto.
  - intros c t n out _ IH Hall. inversion Hall; subst.
    constructor; [reflexivity|]. apply IH. now apply Forall_drop.
Qed.

Lemma lstrip_all_underscore (l : list ascii) :
  Forall (eq "_"%char) l -> PyStr.lstrip_chars "_" l = [].
Proof.
  induction 1 as [|a t <- _ IH]; [reflexivity|]. simpl. exact IH.
Qed.

(** X5. A text without a letter or a digit is sanitized to the empty
    text: its format directives, punctuation and underscores all go. *)
Theorem sanitizeString_no_letter (s : string) :
  Forall (fun a => alnum a = false) (PyStr.chars s) ->
  sanitizeString s = "".
Proof.
  intros Hno. unfold sanitizeString, sanitizeChars, PyStr.strip_chars.
  rewrite sub_format_no_letter by assumption.
  rewrite lstrip_all_underscore; [reflexivity|].
  apply sub_underscores_all_underscore. now apply sub_nonword_no_letter.
Qed.

Lemma sanitizeString_no_letter_witness :
  Forall (fun a => alnum a = false) (PyStr.chars "% _-- %+.!") /\
  sanitizeString "% _-- %+.!" = "".
Proof.
  assert (Hno : Forall (fun a => alnum a = false)
                       (PyStr.chars "% _-- %+.!"))
    by (repeat constructor).
  split; [exact Hno|].
  exact (sanitizeString_no_letter "% _-- %+.!" Hno).
Defined.

(** ** The name of a string *)

Lemma slice_to_from (n : nat) (s : string) :
  PyStr.slice_to n s ++ PyStr.slice_from n s = s.
Proof.
  revert s. induction n as [|n IH]; intros [|c s]; try reflexivity.
  cbn [PyStr.slice_to PyStr.slice_from]. rewrite append_cons.
  now rewrite IH.
Qed.

Lemma slice_to_short (n : nat) (s : string) :
  (String.length s <= n)%nat -> PyStr.slice_to n s = s.
Proof.
  revert s. induction n as [|n IH]; intros [|c s] Hlen; simpl in *;
    try reflexivity; try lia.
  rewrite IH by lia. reflexivity.
Qed.

(** X6. The name [fixupIdaStringNames] hands to [safeName] has at most
    256 characters and is the start of ["z_" + sanitizeString(text)];
    it is all of it when that has at most 256 characters. *)
Theorem string_newName_prefix (text : string) :
  (String.length (string_newName text) <= 256)%nat /\
  (exists rest, "z_" ++ sanitizeString text = string_newName text ++ rest) /\
  ((String.length ("z_" ++ sanitizeString text) <= 256)%nat ->
   string_newName text = "z_" ++ sanitizeString text).
Proof.
  split; [apply string_newName_length|]. unfold string_newName. split.
  - exists (PyStr.slice_from 256 ("z_" ++ sanitizeString text)).
    symmetry. apply slice_to_from.
  - apply slice_to_short.
Qed.

(** ** More on the transition model *)

Lemma lookup_addTransition (m : MarkovModel) (f t k : Z) :
  addTransition m f t !! k =
    if decide (f = k)
    then Some (MarkovState_addTransition
                 (default (MarkovState_init f) (m !! f)) t)
    else m !! k.
Proof.
  unfold addTransition.
  destruct (m !! f) as [st|] eqn:Hf.
  - rewrite Hf. cbn [from_option id]. apply lookup_insert.
  - rewrite lookup_insert_eq, insert_insert_eq. cbn [from_option id].
    apply lookup_insert.
Qed.

Lemma edges_addTransition (s : MarkovState) (t d : Z) :
  edges (MarkovState_addTransition s t) !! d =
    if decide (t = d) then Some (default 0 (edges s !! t) + 1)
    else edges s !! d.
Proof.
  unfold MarkovState_addTransition.
  destruct (edges s !! t) as [c|] eqn:Ht; cbv zeta; cbn [edges].
  - rewrite Ht. cbn [from_option id]. apply lookup_insert.
  - rewrite lookup_insert_eq, insert_insert_eq. cbn [from_option id].
    apply lookup_insert.
Qed.

(** X7. [addTransition] counts: it adds one to the count of the edge it
    is given and to the total of its source, makes both when they are
    not there yet, and leaves every other count as it was. *)
Theorem addTransition_counts (m : MarkovModel) (f t f' t' : Z) :
  edge_count (addTransition m f t) f' t' =
    edge_count m f' t' + (if decide (f = f' /\ t = t') then 1 else 0) /\
  total_count (addTransition m f t) f' =
    total_count m f' + (if decide (f = f') then 1 else 0).
Proof.
  unfold edge_count, total_count. rewrite lookup_addTransition.
  destruct (decide (f = f')) as [ <- |Hf].
  - rewrite edges_addTransition.
    destruct (m !! f) as [s|] eqn:Hs; cbn [from_option id].
    + destruct (decide (t = t')) as [ <- |Ht].
      * rewrite decide_True by (split; reflexivity). cbn. split; lia.
      * rewrite decide_False by tauto. split; cbn; lia.
    + cbn [MarkovState_init edges transistions_total MarkovState_addTransition].
      rewrite lookup_empty.
      destruct (decide (t = t')) as [ <- |Ht].
      * rewrite decide_True by (split; reflexivity). cbn. split; lia.
      * rewrite decide_False by tauto. rewrite lookup_empty. cbn.
        split; lia.
  - rewrite decide_False by tauto. split; lia.
Qed.

Lemma built_state (m : MarkovModel) :
  built m -> forall sourceID source,
    m !! sourceID = Some source ->
    stateID source = sourceID /\ edges source <> ∅.
Proof.
  induction 1 as [|m f t Hb IH]; intros sourceID source Hs.
  - unfold MarkovModel_init in Hs. now rewrite lookup_empty in Hs.
  - rewrite lookup_addTransition in Hs.
    destruct (decide (f = sourceID)) as [ <- |Hne]; [|eauto].
    injection Hs as <-. split.
    + destruct (m !! f) as [s|] eqn:Hf; cbn; [|reflexivity].
      apply (IH f s Hf).
    + intros Hempty.
      pose proof (edges_addTransition
                    (default (MarkovState_init f) (m !! f)) t t) as Ht.
      rewrite Hempty, lookup_empty, decide_True in Ht by reflexivity.
      discriminate.
Qed.

(** X8. In a model built by [addTransition] every state sits under its
    own [stateID], has at least one edge, counts every edge at least
    once, and its total is the sum of its counts. *)
Theorem built_invariant (m : MarkovModel) (sourceID : Z)
    (source : MarkovState) :
  built m ->
  m !! sourceID = Some source ->
  stateID source = sourceID /\
  edges source <> ∅ /\
  edge_sum (edges source) = transistions_total source /\
  1 <= transistions_total source /\
  forall destID c,
    edges source !! destID = Some c -> 1 <= c <= transistions_total source.
Proof.
  intros Hb Hs.
  destruct (built_state m Hb _ _ Hs) as [Hid Hne].
  pose proof (built_wf m Hb _ _ Hs) as Hwf.
  split; [exact Hid|]. split; [exact Hne|]. split; [apply Hwf|].
  split.
  - destruct (map_choose _ Hne) as (d & c & Hd).
    pose proof (wf_count_bounds _ _ _ Hwf Hd). lia.
  - intros d c Hd. now apply wf_count_bounds with (d := d).
Qed.

Lemma built_invariant_witness :
  built model_tie /\
  model_tie !! 1 = Some (mkMarkovState 1 2 (<[3 := 1]> (<[2 := 1]> ∅))) /\
  let source := mkMarkovState 1 2 (<[3 := 1]> (<[2 := 1]> ∅)) in
  stateID source = 1 /\
  edges source <> ∅ /\
  edge_sum (edges source) = transistions_total source /\
  1 <= transistions_total source /\
  forall destID c,
    edges source !! destID = Some c -> 1 <= c <= transistions_total source.
Proof.
  assert (Hb : built model_tie).
  { unfold model_tie. apply built_add, built_add, built_init. }
  assert (Hs : model_tie !! 1
               = Some (mkMarkovState 1 2 (<[3 := 1]> (<[2 := 1]> ∅))))
    by (vm_compute; reflexivity).
  split; [exact Hb|]. split; [exact Hs|].
  exact (built_invariant model_tie 1 _ Hb Hs).
Defined.






(** ** Culling twice *)

Lemma cull_source_cullable (cutoffWeight : Q) (s : MarkovState) :
  cullable s ->
  exists s',
    cull_source cutoffWeight s = Ret s' /\
    stateID s' = stateID s /\
    transistions_total s' = transistions_total s /\
    forall d c,
      edges s' !! d = Some c <->
      edges s !! d = Some c /\ ~ Qlt (edge_weight s c) cutoffWeight.
Proof.
  intros Hsafe. unfold cull_source.
  assert (Hcollect :
    cull_collect s cutoffWeight (keys (edges s)) [] =
      Ret (List.filter (below s cutoffWeight) (keys (edges s)))).
  { destruct (keys (edges s)) as [|d0 l0] eqn:Hkeys; [reflexivity|].
    rewrite <- Hkeys.
    assert (Hne : edges s <> ∅).
    { intros Hem.
      assert (Hin : d0 ∈ keys (edges s))
        by (rewrite Hkeys; apply elem_of_cons; auto).
      apply elem_of_keys in Hin. destruct Hin as [c0 Hc0].
      rewrite Hem, lookup_empty in Hc0. discriminate. }
    rewrite cull_collect_ok; [reflexivity|auto|].
    apply Forall_forall. intros d Hd. now apply elem_of_keys. }
  rewrite Hcollect. eexists. split; [reflexivity|].
  split; [reflexivity|]. split; [reflexivity|].
  intros d c. unfold cull_delete. cbn [edges].
  rewrite lookup_cull_delete.
  destruct (decide (d ∈ List.filter (below s cutoffWeight)
                                    (keys (edges s)))) as [Hin|Hin].
  - apply list_elem_of_In, filter_In in Hin. destruct Hin as [_ Hbelow].
    unfold below in Hbelow. split; [discriminate|].
    intros [Hd Hnlt]. rewrite Hd in Hbelow. unfold Qltb in Hbelow.
    destruct (Qlt_le_dec (edge_weight s c) cutoffWeight);
      [contradiction|discriminate].
  - split; [|tauto].
    intros Hd. split; [exact Hd|]. intros Hlt. apply Hin.
    apply list_elem_of_In, filter_In. split.
    + apply list_elem_of_In, elem_of_keys. eauto.
    + unfold below. rewrite Hd. unfold Qltb.
      destruct (Qlt_le_dec (edge_weight s c) cutoffWeight) as [|Hle];
        [reflexivity|].
      exfalso. eapply Qlt_not_le; eauto.
Qed.


Lemma MarkovState_eq (s1 s2 : MarkovState) :
  stateID s1 = stateID s2 ->
  transistions_total s1 = transistions_total s2 ->
  edges s1 = edges s2 -> s1 = s2.
Proof. destruct s1, s2. simpl. now intros -> -> ->. Qed.

Lemma cull_built (m : MarkovModel) (cutoffWeight : Q) :
  built m ->
  exists m',
    cull m cutoffWeight = Ret m' /\
    forall k,
      match m !! k with
      | None => m' !! k = None
      | Some s =>
          exists s',
            m' !! k = Some s' /\
            stateID s' = stateID s /\
            transistions_total s' = transistions_total s /\
            forall d c,
              edges s' !! d = Some c <->
              edges s !! d = Some c /\
              ~ Qlt (edge_weight s c) cutoffWeight
      end.
Proof.
  intros Hb. unfold cull.
  destruct (cull_sources_spec cutoffWeight (keys m) m) as (m' & Hm' & Hchar).
  { apply NoDup_keys. }
  { intros k Hk. apply elem_of_keys in Hk. destruct Hk as [s Hs].
    exists s. split; [exact Hs|]. eapply built_wf; eauto. }
  exists m'. split; [exact Hm'|]. intros k.
  destruct (m !! k) as [s|] eqn:Hs.
  - destruct (Hchar k) as [Hin _].
    destruct Hin as (s0 & s' & Hs0 & Hcull & Hs'); [apply elem_of_keys; eauto|].
    assert (s0 = s) by congruence. subst s0.
    destruct (cull_source_spec cutoffWeight s (built_wf m Hb _ _ Hs))
      as (s'' & Hcull' & Hrest).
    assert (s'' = s') by congruence. subst s''.
    exists s'. split; [exact Hs'|exact Hrest].
  - destruct (Hchar k) as [_ Hout]. rewrite Hout; [exact Hs|].
    intros Hin. apply elem_of_keys in Hin. destruct Hin as [s Hs'].
    congruence.
Qed.



(** ** The exact quotient and the double

    At the cutoff the script passes, and while no total reaches [2^54],
    the cull on doubles is the cull on exact quotients. *)
Lemma cull_double_exact_half {ord : DictOrder} (m : MarkovModel) :
  built m ->
  (forall k s, m !! k = Some s -> transistions_total s < 2 ^ 54) ->
  cull_double m PROBABILITY_CUTTOFF = cull m PROBABILITY_CUTTOFF.
Proof.
  intros Hb Hbound.
  destruct (cull_double_built m PROBABILITY_CUTTOFF Hb) as (m1 & Hm1 & Hc1).
  destruct (cull_built m PROBABILITY_CUTTOFF Hb) as (m2 & Hm2 & Hc2).
  rewrite Hm1, Hm2. f_equal. apply map_eq. intros k.
  specialize (Hc1 k). specialize (Hc2 k).
  destruct (m !! k) as [s|] eqn:Hk; [|congruence].
  destruct Hc1 as (s1 & Hs1 & Hid1 & Htot1 & He1).
  destruct Hc2 as (s2 & Hs2 & Hid2 & Htot2 & He2).
  rewrite Hs1, Hs2. f_equal.
  apply MarkovState_eq; [congruence|congruence|].
  pose proof (built_wf m Hb k s Hk) as Hwf.
  assert (Hcut : Qeq PROBABILITY_CUTTOFF (Qmake 1 2)) by reflexivity.
  assert (Hsame : forall d c,
             edges s1 !! d = Some c <-> edges s2 !! d = Some c).
  { intros d c. rewrite He1, He2.
    split; intros [Hd Hn]; (split; [exact Hd|]);
      pose proof (wf_count_bounds s d c Hwf Hd) as Hcb;
      rewrite (double_weight_lt_half s c _ ltac:(lia)
                 (Hbound k s Hk) Hcut) in *;
      rewrite (weight_lt_half s c _ ltac:(lia) Hcut) in *;
      exact Hn. }
  apply map_eq. intros d.
  destruct (edges s1 !! d) as [c|] eqn:Hd1.
  - symmetry. now apply Hsame.
  - destruct (edges s2 !! d) as [c|] eqn:Hd2; [|reflexivity].
    apply Hsame in Hd2. congruence.
Qed.

(** ** The cache of getXrefs *)

Section MoreThingFacts.

Context {db : Type} `{IDA db}.

Lemma collect_xrefs_fields (d : db) (t t' : Thing) :
  addr t' = addr t -> endEA t' = endEA t -> isFunction t' = isFunction t ->
  collect_xrefs d t' = collect_xrefs d t.
Proof.
  intros Ha He Hf. unfold collect_xrefs, outside. now rewrite Ha, He, Hf.
Qed.

(** X11. [getXrefs] keeps what it found only when it found something.
    After a first call on a fresh thing, a second call gives the same
    set back without looking at the database if that set is not empty;
    if it is empty, the second call searches again. *)
Theorem getXrefs_cache (d d' : db) (t : Thing) :
  xrefs t = None ->
  let xs := fst (getXrefs d t) in
  let t' := snd (getXrefs d t) in
  addr t' = addr t /\ endEA t' = endEA t /\
  isFunction t' = isFunction t /\ name t' = name t /\
  xrefs t' = Some xs /\
  (xs <> ∅ -> getXrefs d' t' = (xs, t')) /\
  (xs = ∅ -> getXrefs d' t' = getXrefs d' t).
Proof.
  intros Hfresh. cbv zeta.
  assert (Heq : getXrefs d t =
                (collect_xrefs d t,
                 mkThing (addr t) (endEA t) (isFunction t) (name t)
                         (Some (collect_xrefs d t)))).
  { unfold getXrefs. now rewrite Hfresh. }
  rewrite Heq. cbn [fst snd addr endEA isFunction name xrefs].
  repeat split.
  - intros Hne. unfold getXrefs. cbn [xrefs].
    destruct (decide (collect_xrefs d t = ∅)); [contradiction|reflexivity].
  - intros Hem. unfold getXrefs. rewrite Hfresh. cbn [xrefs].
    rewrite Hem. rewrite decide_True by reflexivity.
    cbn [addr endEA isFunction name].
    rewrite (collect_xrefs_fields d' _ t) by reflexivity. reflexivity.
Qed.

End MoreThingFacts.

Lemma getXrefs_cache_witness :
  let d := db_call in
  let d' := db_end in
  let t := Thing_init d 4096 in
  xrefs t = None /\
  let xs := fst (getXrefs d t) in
  let t' := snd (getXrefs d t) in
  addr t' = addr t /\ endEA t' = endEA t /\
  isFunction t' = isFunction t /\ name t' = name t /\
  xrefs t' = Some xs /\
  (xs <> ∅ -> getXrefs d' t' = (xs, t')) /\
  (xs = ∅ -> getXrefs d' t' = getXrefs d' t).
Proof.
  split; [reflexivity|].
  apply (getXrefs_cache db_call db_end (Thing_init db_call 4096)).
  reflexivity.
Defined.

(** ** What safeName leaves alone *)

Section SafeNameFrame.

Context {db : Type} `{IDA db} `{!IDA_frame db}.

Lemma replay_frame (d : db) (a f : Z) (names : list string) :
  (forall x, x <> a -> Name (snd (replay d a f names)) x = Name d x) /\
  (forall y, get_func (snd (replay d a f names)) y = get_func d y).
Proof.
  revert d. induction names as [|n l IH]; intros d; simpl.
  - auto.
  - pose proof (MakeNameEx_Name d a n f) as HN.
    pose proof (MakeNameEx_get_func d a n f) as HF.
    destruct (MakeNameEx d a n f) as [r d1]. cbn [snd] in *.
    destruct (IH d1) as [IHN IHF].
    destruct (replay d1 a f l) as [rs d2]. cbn [snd] in *.
    split.
    + intros x Hx. rewrite IHN by assumption. now apply HN.
    + intros y. rewrite IHF. apply HF.
Qed.

Lemma safeName_ida (a : Z) (baseName oldName : string) (w : World db) :
  exists tried,
    ida (snd (safeName a baseName oldName w)) =
      snd (replay (ida w) a name_flags tried).
Proof.
  destruct (safeName_noop baseName oldName) eqn:Hnoop.
  - exists []. unfold safeName. now rewrite Hnoop.
  - rewrite safeName_not_noop by assumption.
    set (w1 := mkWorld _ _ _ _).
    destruct (safeName_loop_spec a baseName oldName suffixes baseName w1)
      as (k & _ & Hida & _).
    cbv zeta in Hida. eexists. exact Hida.
Qed.

(** X12. Whatever happens in a call of [safeName], the name at every
    address other than [addr] is what it was before, and no function has
    moved. *)
Theorem safeName_touches_one_address (a x : Z) (baseName oldName : string)
    (w : World db) :
  x <> a ->
  let w' := snd (safeName a baseName oldName w) in
  Name (ida w') x = Name (ida w) x /\
  forall y, get_func (ida w') y = get_func (ida w) y.
Proof.
  intros Hx. cbv zeta.
  destruct (safeName_ida a baseName oldName w) as [tried ->].
  destruct (replay_frame (ida w) a name_flags tried) as [HN HF].
  split; [now apply HN|exact HF].
Qed.

End SafeNameFrame.

Lemma safeName_touches_one_address_witness :
  let w := sim_world db_taken in
  let w' := snd (safeName 4096 "z_x" "sub_1000" w) in
  8192 <> 4096 /\
  Name (ida w') 8192 = Name (ida w) 8192 /\
  forall y, get_func (ida w') y = get_func (ida w) y.
Proof.
  assert (Hx : 8192 <> 4096) by discriminate.
  split; [exact Hx|].
  exact (safeName_touches_one_address 4096 8192 "z_x" "sub_1000"
           (sim_world db_taken) Hx).
Defined.

(** ** The candidates are all different *)

Lemma str_inj (x y : Z) : PyStr.str x = PyStr.str y -> x = y.
Proof.
  unfold PyStr.str. intros Heq.
  assert (Hnn : forall z, Z.to_int z <> Decimal.Pos Decimal.Nil /\
                          Z.to_int z <> Decimal.Neg Decimal.Nil).
  { intros [|p|p]; simpl; split; try discriminate;
      intros [= Hp]; now apply DecimalPos.Unsigned.to_uint_nonnil in Hp. }
  apply DecimalZ.to_int_inj.
  assert (Some (Z.to_int x) = Some (Z.to_int y)) as [= ->]; [|reflexivity].
  rewrite <- (NilZero.isi (Z.to_int x)) by apply Hnn.
  rewrite <- (NilZero.isi (Z.to_int y)) by apply Hnn.
  now rewrite Heq.
Qed.

Lemma str_not_empty (x : Z) : PyStr.str x <> "".
Proof.
  unfold PyStr.str. intros Heq.
  assert (Hsome : NilZero.int_of_string (NilZero.string_of_int (Z.to_int x))
                  = None) by now rewrite Heq.
  rewrite NilZero.isi in Hsome; [discriminate| |].
  - destruct x as [|p|p]; simpl; try discriminate;
      intros [= Hp]; now apply DecimalPos.Unsigned.to_uint_nonnil in Hp.
  - destruct x as [|p|p]; simpl; try discriminate;
      intros [= Hp]; now apply DecimalPos.Unsigned.to_uint_nonnil in Hp.
Qed.

Lemma append_inj_l (s t1 t2 : string) : s ++ t1 = s ++ t2 -> t1 = t2.
Proof.
  induction s as [|c s IH]; [auto|].
  rewrite !append_cons. intros [= Heq]. auto.
Qed.

Lemma NoDup_range (n : Z) : NoDup (PyStr.range n).
Proof.
  unfold PyStr.range. apply NoDup_fmap_2; [apply _|].
  apply NoDup_seq.
Qed.

(** X13. The 10001 names a call of [safeName] may try, built at line
    132 from the suffixes of line 131, are pairwise different: no name
    is offered to the database twice. *)
Theorem candidates_distinct (baseName : string) :
  NoDup (map (String.append baseName) suffixes) /\
  Z.of_nat (length (map (String.append baseName) suffixes)) = 10001.
Proof.
  split.
  - rewrite candidates_suffixes. unfold candidates. apply NoDup_cons. split.
    + intros Hin. apply list_elem_of_fmap in Hin.
      destruct Hin as (x & Heq & _).
      rewrite <- (append_empty_r baseName) in Heq at 1.
      apply append_inj_l in Heq. symmetry in Heq.
      now apply str_not_empty in Heq.
    + apply NoDup_fmap_2; [|apply NoDup_range].
      intros x y Heq. now apply append_inj_l, str_inj in Heq.
  - rewrite length_map. apply length_suffixes.
Qed.

(** ** Passes that find nothing to do *)

Section FixedPoints.

Context {db : Type} `{IDA db}.

(** A loop whose body does nothing at any of its elements does
    nothing. *)
Lemma for_each_skip {A S : Type} (l : list A) (body : A -> S -> M db S)
    (s : S) (w : World db) :
  (forall a, a ∈ l -> body a s w = (Ret s, w)) ->
  for_each l body s w = (Ret s, w).
Proof.
  induction l as [|a l IH]; intros Hbody; [reflexivity|].
  rewrite for_each_cons, Hbody by (apply elem_of_cons; auto).
  apply IH. intros b Hb. apply Hbody, elem_of_cons. auto.
Qed.

Lemma tester_source_skip (markovModel : MarkovModel) (sourceID : Z)
    (counts : Z * Z) (w : World db) :
  sourceID ∈ keys markovModel ->
  isNamed (Thing_init (ida w) sourceID) = true \/
  Forall (fun destID => isNamed (Thing_init (ida w) destID) = false)
         (dests_of markovModel sourceID) ->
  tester_source markovModel sourceID counts w = (Ret counts, w).
Proof.
  intros Hin Hcase. unfold tester_source, bind, get_db.
  destruct (isNamed (Thing_init (ida w) sourceID)) eqn:Hsrc; [reflexivity|].
  destruct Hcase as [Hn|Hdests]; [discriminate|].
  apply elem_of_keys in Hin. destruct Hin as [source Hs].
  unfold dests_of in Hdests. rewrite Hs in *.
  apply for_each_skip. intros destID Hd.
  rewrite Forall_forall in Hdests. specialize (Hdests _ Hd).
  destruct counts as [c ct]. rewrite tester_dest_eq. cbv zeta.
  now rewrite Hdests.
Qed.

(** X14. When every source of the model is named or has no named
    destination, a pass of [tester] makes no change: it calls
    [safeName] not once, leaves the database and the counters alone, and
    the loop of line 403 ends after this one pass. *)
Theorem tester_pass_fixed_point (markovModel : MarkovModel)
    (iteration changes_total : Z) (w : World db) :
  nothing_to_propagate (ida w) markovModel ->
  let res := tester_pass markovModel iteration changes_total w in
  fst res = Ret (0, changes_total) /\
  ida (snd res) = ida w /\
  renamesTotal (snd res) = renamesTotal w /\
  events (snd res) = events w /\
  forall fuel,
    tester_while (S fuel) markovModel 1 changes_total iteration w =
      (Ret (Some changes_total), snd res).
Proof.
  intros Hnothing.
  assert (Hpass : exists lines,
            tester_pass markovModel iteration changes_total w =
              (Ret (0, changes_total),
               mkWorld (ida w) (renamesTotal w) (stdout w ++ lines)
                       (events w))).
  { unfold tester_pass. unfold bind at 1. unfold print at 1.
    set (w1 := mkWorld _ _ _ _).
    unfold bind at 1.
    rewrite for_each_skip.
    - unfold bind, print, ret. cbn [fst ida renamesTotal stdout events].
      subst w1. cbn [ida renamesTotal stdout events].
      rewrite <- app_assoc. eexists. reflexivity.
    - intros sourceID Hin. apply tester_source_skip; [exact Hin|].
      unfold nothing_to_propagate in Hnothing.
      rewrite Forall_forall in Hnothing. exact (Hnothing _ Hin). }
  destruct Hpass as [lines Hpass]. cbv zeta. rewrite Hpass.
  cbn [fst snd ida renamesTotal events]. repeat split.
  intros fuel. cbn [tester_while]. cbn [Z.gtb Z.compare].
  unfold bind at 1. rewrite Hpass.
  destruct fuel; reflexivity.
Qed.

End FixedPoints.

Lemma tester_pass_fixed_point_witness :
  let w := sim_world db_cycle in
  let res := tester_pass model_cycle 0 0 w in
  nothing_to_propagate (ida w) model_cycle /\
  fst res = Ret (0, 0) /\
  ida (snd res) = ida w /\
  renamesTotal (snd res) = renamesTotal w /\
  events (snd res) = events w /\
  forall fuel,
    tester_while (S fuel) model_cycle 1 0 0 w = (Ret (Some 0), snd res).
Proof.
  assert (Hn : nothing_to_propagate (ida (sim_world db_cycle)) model_cycle).
  { unfold nothing_to_propagate. vm_compute.
    repeat (constructor; [right; repeat constructor|]). constructor. }
  split; [exact Hn|].
  exact (tester_pass_fixed_point model_cycle 0 0 (sim_world db_cycle) Hn).
Defined.

Section MainFixedPoint.

Context {db : Type} `{IDA db}.

Lemma renameData_head_skip (head changes : Z) (w : World db) :
  unnamed_data (ida w) head = false ->
  renameData_head head changes w = (Ret changes, w).
Proof.
  intros Hskip. unfold renameData_head, bind, get_db.
  unfold unnamed_data in Hskip. cbv zeta in Hskip. now rewrite Hskip.
Qed.

Lemma renameFunctions_func_skip (funcAddr changes : Z) (w : World db) :
  isNamed (Thing_init (ida w) funcAddr) = true ->
  renameFunctions_func funcAddr changes w = (Ret changes, w).
Proof.
  intros Hnamed. unfold renameFunctions_func, bind, get_db.
  now rewrite Hnamed.
Qed.

Lemma renameData_all_named (w : World db) :
  all_named (ida w) ->
  renameData w =
    (Ret 0, mkWorld (ida w) (renamesTotal w)
                    (stdout w ++ ["Renaming Data..."]) (events w)).
Proof.
  intros [Hdata _]. unfold renameData.
  unfold bind at 1. unfold print at 1.
  set (w1 := mkWorld _ _ _ _).
  unfold bind at 1, get_db at 1.
  apply for_each_skip. intros [[segment clazz] segEnd] Hin.
  rewrite Forall_forall in Hdata. specialize (Hdata _ Hin).
  cbn [fst snd] in Hdata.
  destruct (String.eqb_spec clazz "CODE") as [ -> |Hne]; [reflexivity|].
  destruct Hdata as [Hcode|Hheads]; [contradiction|].
  unfold bind, get_db. apply for_each_skip. intros head Hhead.
  apply renameData_head_skip.
  rewrite Forall_forall in Hheads. exact (Hheads _ Hhead).
Qed.

Lemma renameFunctions_all_named (w : World db) :
  all_named (ida w) ->
  renameFunctions w =
    (Ret 0, mkWorld (ida w) (renamesTotal w)
                    (stdout w ++ ["Renaming Functions..."]) (events w)).
Proof.
  intros [_ Hfunc]. unfold renameFunctions.
  unfold bind at 1. unfold print at 1.
  set (w1 := mkWorld _ _ _ _).
  unfold bind at 1, get_db at 1.
  apply for_each_skip. intros funcAddr Hin.
  apply renameFunctions_func_skip.
  rewrite Forall_forall in Hfunc. exact (Hfunc _ Hin).
Qed.

(** X15. On a database without unnamed data outside the code segments
    and without unnamed functions, a pass of [main] makes no change and
    calls [safeName] not once, and the loop of line 433 ends after this
    one pass. *)
Theorem main_pass_fixed_point (iteration : Z) (w : World db) :
  all_named (ida w) ->
  let res := main_pass (iteration + 1) w in
  fst res = Ret 0 /\
  ida (snd res) = ida w /\
  renamesTotal (snd res) = renamesTotal w /\
  events (snd res) = events w /\
  forall fuel,
    main_while (S fuel) 1 iteration w =
      (Ret (Some (iteration + 1)), snd res).
Proof.
  intros Hall.
  assert (Hpass : exists lines,
            main_pass (iteration + 1) w =
              (Ret 0, mkWorld (ida w) (renamesTotal w) (stdout w ++ lines)
                              (events w))).
  { unfold main_pass. unfold bind at 1. unfold print at 1.
    set (w1 := mkWorld _ _ _ _).
    unfold bind at 1. rewrite (renameData_all_named w1) by exact Hall.
    unfold bind at 1. unfold print at 1.
    set (w2 := mkWorld _ _ _ _).
    unfold bind at 1. rewrite (renameFunctions_all_named w2) by exact Hall.
    unfold bind, print, ret. subst w2 w1.
    cbn [ida renamesTotal stdout events]. rewrite <- !app_assoc.
    eexists. reflexivity. }
  destruct Hpass as [lines Hpass]. cbv zeta. rewrite Hpass.
  cbn [fst snd ida renamesTotal events]. repeat split.
  intros fuel. cbn [main_while]. cbn [Z.gtb Z.compare].
  unfold bind at 1. rewrite Hpass.
  destruct fuel; reflexivity.
Qed.

End MainFixedPoint.

Lemma main_pass_fixed_point_witness :
  let w := sim_world db_named in
  let res := main_pass (0 + 1) w in
  all_named (ida w) /\
  fst res = Ret 0 /\
  ida (snd res) = ida w /\
  renamesTotal (snd res) = renamesTotal w /\
  events (snd res) = events w /\
  forall fuel,
    main_while (S fuel) 1 0 w = (Ret (Some (0 + 1)), snd res).
Proof.
  assert (Hall : all_named (ida (sim_world db_named))).
  { unfold all_named. split.
    - vm_compute. constructor; [left; reflexivity|].
      constructor; [right; repeat constructor|]. constructor.
    - vm_compute. repeat constructor. }
  split; [exact Hall|].
  exact (main_pass_fixed_point 0 (sim_world db_named) Hall).
Defined.

(** ** fixupIdaStringNames at the edges *)

Section FixupFacts.

Context {db : Type} `{IDA db}.

Lemma safeName_outcome (a : Z) (baseName oldName : string) (w : World db) :
  fst (safeName a baseName oldName w) = Ret tt \/
  exists msg, fst (safeName a baseName oldName w) = Raise (RaisedString msg).
Proof.
  destruct (safeName_noop baseName oldName) eqn:Hnoop.
  - left. unfold safeName. now rewrite Hnoop.
  - rewrite safeName_not_noop by assumption.
    set (w1 := mkWorld _ _ _ _).
    destruct (safeName_loop_spec a baseName oldName suffixes baseName w1)
      as (k & _ & _ & _ & _ & Hout).
    cbv zeta in Hout.
    destruct Hout as [(Hr & _)|(_ & _ & msg & Hr & _)]; eauto.
Qed.

(** A loop raises what one of its bodies raises. *)
Lemma for_each_raise_from {A S : Type} (P : exn -> Prop) (l : list A)
    (body : A -> S -> M db S) (s : S) (w : World db) (e : exn) :
  (forall a s w e, a ∈ l -> fst (body a s w) = Raise e -> P e) ->
  fst (for_each l body s w) = Raise e -> P e.
Proof.
  revert s w. induction l as [|a l IH]; intros s w Hbody Hr.
  - discriminate Hr.
  - rewrite for_each_cons in Hr.
    destruct (body a s w) as [[s'|e'] w'] eqn:Hb.
    + apply (IH s' w'); [|exact Hr].
      intros b s0 w0 e0 Hin. apply Hbody, elem_of_cons. auto.
    + cbn [fst] in Hr. injection Hr as <-.
      apply (Hbody a s w); [apply elem_of_cons; auto|]. now rewrite Hb.
Qed.

(** A loop with an element at which the body always raises does not
    finish. *)
Lemma for_each_must_raise {A S : Type} (l : list A)
    (body : A -> S -> M db S) (a : A) (s : S) (w : World db) :
  a ∈ l ->
  (forall s w, exists e, fst (body a s w) = Raise e) ->
  exists e, fst (for_each l body s w) = Raise e.
Proof.
  revert s w. induction l as [|b l IH]; intros s w Hin Hraise.
  - now apply elem_of_nil in Hin.
  - rewrite for_each_cons.
    apply elem_of_cons in Hin.
    destruct (body b s w) as [[s'|e'] w'] eqn:Hb.
    + destruct Hin as [ <- |Hin].
      * destruct (Hraise s w) as [e He]. rewrite Hb in He. discriminate.
      * now apply IH.
    + cbn [fst]. eauto.
Qed.

(** X16. [fixupIdaStringNames] does nothing at all on a database whose
    strings all have no name or a name that starts with ["z_"]: it
    returns and leaves the run state as it was. *)
Theorem fixupIdaStringNames_nothing_to_do (w : World db) :
  Forall (fun s => exists ea text,
              s = Some (ea, text) /\
              (Name (ida w) ea = "" \/
               PyStr.startswith (Name (ida w) ea) "z_" = true))
         (Strings_default (ida w)) ->
  fixupIdaStringNames w = (Ret tt, w).
Proof.
  intros Hall. unfold fixupIdaStringNames.
  unfold bind at 1, get_db at 1. unfold bind at 1.
  rewrite for_each_skip; [reflexivity|].
  intros s Hin. rewrite Forall_forall in Hall.
  destruct (Hall _ Hin) as (ea & text & -> & Hname).
  unfold bind, get_db.
  destruct Hname as [ -> | -> ]; [reflexivity|].
  now rewrite andb_false_r.
Qed.

(** X17. [fixupIdaStringNames] reads [s.ea] of every item of
    [Strings()] without testing the item first: when an item is [None]
    the function does not return, it raises, and what it raises is
    [AttributeError] or the exception of [safeName] at an earlier
    string. *)
Theorem fixupIdaStringNames_none_item (w : World db) :
  None ∈ Strings_default (ida w) ->
  exists e,
    fst (fixupIdaStringNames w) = Raise e /\
    (e = AttributeError "ea" \/ exists msg, e = RaisedString msg).
Proof.
  intros Hin. unfold fixupIdaStringNames.
  unfold bind at 1, get_db at 1.
  set (body := fun (s : option (Z * string)) (_ : unit) => _).
  destruct (for_each_must_raise (Strings_default (ida w)) body None tt w Hin)
    as [e He].
  { intros s w0. exists (AttributeError "ea"). reflexivity. }
  exists e. unfold bind. 
  destruct (for_each (Strings_default (ida w)) body tt w) as [[u|e'] w'] eqn:Hf;
    cbn [fst] in He; [discriminate|].
  injection He as ->. split; [reflexivity|].
  apply (for_each_raise_from
           (fun e => e = AttributeError "ea" \/ exists msg, e = RaisedString msg)
           (Strings_default (ida w)) body tt w e); [|now rewrite Hf].
  intros [[ea text]|] s0 w0 e0 _ Hr.
  - subst body. cbn beta iota in Hr. unfold bind, get_db in Hr.
    destruct (negb (String.eqb (Name (ida w0) ea) "")
              && negb (PyStr.startswith (Name (ida w0) ea) "z_")).
    + right.
      destruct (safeName_outcome ea (string_newName text)
                  (Name (ida w0) ea) w0) as [Hok|[msg Hmsg]].
      * rewrite Hok in Hr. discriminate.
      * rewrite Hmsg in Hr. injection Hr as <-. eauto.
    + discriminate Hr.
  - subst body. cbn in Hr. injection Hr as <-. auto.
Qed.

End FixupFacts.

Lemma fixupIdaStringNames_nothing_to_do_witness :
  let w := sim_world db_named in
  Forall (fun s => exists ea text,
              s = Some (ea, text) /\
              (Name (ida w) ea = "" \/
               PyStr.startswith (Name (ida w) ea) "z_" = true))
         (Strings_default (ida w)) /\
  fixupIdaStringNames w = (Ret tt, w).
Proof.
  assert (Hall : Forall (fun s => exists ea text,
              s = Some (ea, text) /\
              (Name (ida (sim_world db_named)) ea = "" \/
               PyStr.startswith (Name (ida (sim_world db_named)) ea) "z_"
               = true))
         (Strings_default (ida (sim_world db_named)))).
  { constructor; [|constructor].
    exists 12292, "hello". split; [reflexivity|]. left. reflexivity. }
  split; [exact Hall|].
  exact (fixupIdaStringNames_nothing_to_do (sim_world db_named) Hall).
Defined.

Lemma fixupIdaStringNames_none_item_witness :
  let w := sim_world db_none in
  None ∈ Strings_default (ida w) /\
  exists e,
    fst (fixupIdaStringNames w) = Raise e /\
    (e = AttributeError "ea" \/ exists msg, e = RaisedString msg).
Proof.
  assert (Hin : None ∈ Strings_default (ida (sim_world db_none))).
  { apply list_elem_of_further, list_elem_of_here. }
  split; [exact Hin|].
  exact (fixupIdaStringNames_none_item (sim_world db_none) Hin).
Defined.

(** ** The candidate kept for a function *)

Section CandidateFacts.

Context {db : Type} `{IDA db}.

Lemma processStringXrefs_eq (d : db) (ea : Z) (text : string)
    (functionsHash : gmap Z link) :
  processStringXrefs d (ea, text) functionsHash =
    match qualifying_refs d ea with
    | [refAddr] =>
        record_candidate (func_of d refAddr, refAddr, PyStr.strip text)
                         functionsHash
    | _ => functionsHash
    end.
Proof.
  pose proof (string_links_qualifying d ea text) as Hl.
  destruct (qualifying_refs d ea) as [|r [|r' l]] eqn:Hq.
  - unfold processStringXrefs. cbn [fst snd]. now rewrite Hl.
  - now apply processStringXrefs_record.
  - unfold processStringXrefs. cbn [fst snd]. now rewrite Hl.
Qed.

Lemma lookup_record_candidate (lnk : link) (fh : gmap Z link) (f : Z) :
  record_candidate lnk fh !! f =
    if decide (fst (fst lnk) = f)
    then Some (match fh !! f with
               | Some lastLink =>
                   if snd (fst lnk) <? snd (fst lastLink) then lnk
                   else lastLink
               | None => lnk
               end)
    else fh !! f.
Proof.
  unfold record_candidate.
  destruct (decide (lnk.1.1 = f)) as [ <- |Hne].
  - destruct (fh !! lnk.1.1) as [lastLink|] eqn:Hl.
    + destruct (lnk.1.2 <? lastLink.1.2).
      * apply lookup_insert_eq.
      * exact Hl.
    + apply lookup_insert_eq.
  - destruct (fh !! lnk.1.1) as [lastLink|] eqn:Hl.
    + destruct (lnk.1.2 <? lastLink.1.2).
      * now apply lookup_insert_ne.
      * reflexivity.
    + now apply lookup_insert_ne.
Qed.

Lemma collect_fold_gen (d : db) (l : list (option (Z * string)))
    (idx : list Z) (fh : gmap Z link) (w : World db) :
  length idx = length l ->
  let res :=
    for_each (combine idx l)
      (fun '(index, stringItem) functionsHash =>
         match stringItem with
         | None =>
             bind (print ("Nothing for string #" ++ PyStr.str index))
                  (fun _ => ret functionsHash)
         | Some item => ret (processStringXrefs d item functionsHash)
         end)
      fh w in
  fst res =
    Ret (foldl (fun functionsHash stringItem =>
                  match stringItem with
                  | Some item => processStringXrefs d item functionsHash
                  | None => functionsHash
                  end) fh l) /\
  ida (snd res) = ida w /\
  renamesTotal (snd res) = renamesTotal w /\
  events (snd res) = events w.
Proof.
  revert idx fh w. induction l as [|item l IH]; intros idx fh w Hlen.
  - destruct idx; [|discriminate]. cbn. auto.
  - destruct idx as [|i idx]; [discriminate|].
    injection Hlen as Hlen. cbv zeta. cbn [combine].
    rewrite for_each_cons. cbn [foldl].
    destruct item as [item|].
    + unfold ret at 1. apply (IH idx _ w Hlen).
    + unfold bind at 1, print at 1, ret at 1.
      set (w1 := mkWorld _ _ _ _).
      destruct (IH idx fh w1 Hlen) as (H1 & H2 & H3 & H4).
      cbv zeta in *. auto.
Qed.

(** The loop of lines 335-339 fills the table and only prints. *)
Lemma collect_functionsHash_fold (d : db) (w : World db) :
  fst (collect_functionsHash d w) = Ret (fold_strings d (Strings_C d)) /\
  ida (snd (collect_functionsHash d w)) = ida w /\
  renamesTotal (snd (collect_functionsHash d w)) = renamesTotal w /\
  events (snd (collect_functionsHash d w)) = events w.
Proof.
  unfold collect_functionsHash, fold_strings, PyStr.enumerate.
  apply collect_fold_gen. now rewrite length_map, length_seq.
Qed.

(** What is in the table after some strings. *)
Lemma fold_strings_spec (d : db) (items : list (option (Z * string))) :
  let fh := fold_strings d items in
  (forall f l,
      fh !! f = Some l ->
      fst (fst l) = f /\
      exists ea text r,
        Some (ea, text) ∈ items /\ qualifying_refs d ea = [r] /\
        l = (func_of d r, r, PyStr.strip text)) /\
  (forall ea text r,
      Some (ea, text) ∈ items -> qualifying_refs d ea = [r] ->
      exists l, fh !! func_of d r = Some l /\ snd (fst l) <= r).
Proof.
  unfold fold_strings.
  induction items as [|item items IH] using rev_ind.
  - cbn. split.
    + intros f l Hl. now rewrite lookup_empty in Hl.
    + intros ea text r Hin. now apply elem_of_nil in Hin.
  - rewrite foldl_app. cbn [foldl].
    set (fh := foldl _ ∅ items) in *. cbv zeta in IH.
    destruct IH as [IH1 IH2].
    assert (Hmono : forall x, x ∈ items -> x ∈ (items ++ [item])%list).
    { intros x Hx. apply elem_of_app. auto. }
    destruct item as [[ea0 text0]|].
    + rewrite processStringXrefs_eq.
      destruct (qualifying_refs d ea0) as [|r0 [|r1 rest]] eqn:Hq.
      * split.
        -- intros f l Hl. destruct (IH1 f l Hl) as (Hf & ea & text & r & Hin & Hr & ->).
           split; [exact Hf|]. exists ea, text, r. auto.
        -- intros ea text r Hin Hr.
           apply elem_of_app in Hin. destruct Hin as [Hin|Hin]; [eauto|].
           apply list_elem_of_singleton in Hin. injection Hin as -> ->.
           congruence.
      * split.
        -- intros f l Hl. rewrite lookup_record_candidate in Hl.
           cbn [fst snd] in Hl.
           destruct (decide (func_of d r0 = f)) as [Hf|Hf].
           ++ injection Hl as <-.
              destruct (fh !! f) as [lastLink|] eqn:Hlast.
              ** destruct (r0 <? lastLink.1.2).
                 --- split; [exact Hf|]. exists ea0, text0, r0.
                     split; [apply elem_of_app; right; apply list_elem_of_here|].
                     auto.
                 --- destruct (IH1 f lastLink Hlast)
                       as (Hf' & ea & text & r & Hin & Hr & ->).
                     split; [exact Hf'|]. exists ea, text, r. auto.
              ** split; [exact Hf|]. exists ea0, text0, r0.
                 split; [apply elem_of_app; right; apply list_elem_of_here|].
                 auto.
           ++ destruct (IH1 f l Hl) as (Hf' & ea & text & r & Hin & Hr & ->).
              split; [exact Hf'|]. exists ea, text, r. auto.
        -- intros ea text r Hin Hr.
           rewrite lookup_record_candidate. cbn [fst snd].
           apply elem_of_app in Hin. destruct Hin as [Hin|Hin].
           ++ destruct (IH2 ea text r Hin Hr) as (l & Hl & Hle).
              destruct (decide (func_of d r0 = func_of d r)) as [Hf|Hf].
              ** rewrite Hl. destruct (Z.ltb_spec r0 l.1.2).
                 --- eexists. split; [reflexivity|]. cbn. lia.
                 --- eexists. split; [reflexivity|]. exact Hle.
              ** eauto.
           ++ apply list_elem_of_singleton in Hin. injection Hin as -> ->.
              assert (r = r0) by congruence. subst r.
              rewrite decide_True by reflexivity.
              destruct (fh !! func_of d r0) as [lastLink|].
              ** destruct (Z.ltb_spec r0 lastLink.1.2).
                 --- eexists. split; [reflexivity|]. cbn. lia.
                 --- eexists. split; [reflexivity|]. lia.
              ** eexists. split; [reflexivity|]. cbn. lia.
      * split.
        -- intros f l Hl. destruct (IH1 f l Hl) as (Hf & ea & text & r & Hin & Hr & ->).
           split; [exact Hf|]. exists ea, text, r. auto.
        -- intros ea text r Hin Hr.
           apply elem_of_app in Hin. destruct Hin as [Hin|Hin]; [eauto|].
           apply list_elem_of_singleton in Hin. injection Hin as -> ->.
           congruence.
    + split.
      * intros f l Hl. destruct (IH1 f l Hl) as (Hf & ea & text & r & Hin & Hr & ->).
        split; [exact Hf|]. exists ea, text, r. auto.
      * intros ea text r Hin Hr.
        apply elem_of_app in Hin. destruct Hin as [Hin|Hin]; [eauto|].
        apply list_elem_of_singleton in Hin. discriminate.
Qed.

(** X18. The loop of lines 335-339 always finishes, strings that are
    [None] included, and changes nothing but the output.  In the table
    it builds, the candidate of a function comes from a string with
    exactly one qualifying reference, that reference lies in the
    function, and no such string of the function is referred to from a
    lower address. *)
Theorem collect_functionsHash_lowest (d : db) (w : World db) :
  exists functionsHash,
    fst (collect_functionsHash d w) = Ret functionsHash /\
    ida (snd (collect_functionsHash d w)) = ida w /\
    renamesTotal (snd (collect_functionsHash d w)) = renamesTotal w /\
    events (snd (collect_functionsHash d w)) = events w /\
    (forall f l,
        functionsHash !! f = Some l ->
        fst (fst l) = f /\
        exists ea text r,
          Some (ea, text) ∈ Strings_C d /\ qualifying_refs d ea = [r] /\
          l = (func_of d r, r, PyStr.strip text)) /\
    (forall ea text r,
        Some (ea, text) ∈ Strings_C d -> qualifying_refs d ea = [r] ->
        exists l, functionsHash !! func_of d r = Some l /\
                  snd (fst l) <= r).
Proof.
  exists (fold_strings d (Strings_C d)).
  destruct (collect_functionsHash_fold d w) as (H1 & H2 & H3 & H4).
  destruct (fold_strings_spec d (Strings_C d)) as [H5 H6].
  auto 10.
Qed.

End CandidateFacts.

(** On [db_two_strings] the candidate of [sub_1000] is the string
    referred to from the lower address, whatever the order of the
    strings. *)
Example fold_strings_lowest_example :
  fold_strings db_two_strings (sim_strings db_two_strings) =
    {[4096 := (4096, 4100, "first")]} /\
  fold_strings db_two_strings (rev (sim_strings db_two_strings)) =
    {[4096 := (4096, 4100, "first")]}.
Proof. split; vm_compute; reflexivity. Qed.

(** ** A thing seen once *)

Lemma fold_state_fields (s : MarkovState) (dests : list Z) :
  stateID (fold_state s dests) = stateID s /\
  transistions_total (fold_state s dests) =
    transistions_total s + Z.of_nat (length dests).
Proof.
  unfold fold_state. revert s.
  induction dests as [|a l IH]; intros s; cbn [foldl length].
  - split; [reflexivity|lia].
  - destruct (IH (MarkovState_addTransition s a)) as [H1 H2].
    rewrite H1, H2. cbn [MarkovState_addTransition stateID transistions_total].
    split; [reflexivity|lia].
Qed.

Lemma fold_state_edges (s : MarkovState) (dests : list Z) (x : Z) :
  NoDup dests ->
  edges (fold_state s dests) !! x =
    if decide (x ∈ dests) then Some (default 0 (edges s !! x) + 1)
    else edges s !! x.
Proof.
  unfold fold_state. intros Hnd. revert s.
  induction Hnd as [|a l Ha Hl IH]; intros s; cbn [foldl].
  - rewrite decide_False by apply not_elem_of_nil. reflexivity.
  - rewrite IH. rewrite !edges_addTransition.
    destruct (decide (x ∈ l)) as [Hx|Hx];
      destruct (decide (x ∈ a :: l)) as [Hxa|Hxa];
      destruct (decide (a = x)) as [Hax|Hax]; subst;
      first [ reflexivity
            | contradiction
            | exfalso; apply Hxa, elem_of_cons; auto; fail
            | exfalso; apply elem_of_cons in Hxa; destruct Hxa; congruence ].
Qed.

Lemma fold_addTransition (m : MarkovModel) (f : Z) (dests : list Z) (k : Z) :
  foldl (fun m x => addTransition m f x) m dests !! k =
    if decide (f = k)
    then match dests with
         | [] => m !! f
         | _ => Some (fold_state (default (MarkovState_init f) (m !! f))
                                 dests)
         end
    else m !! k.
Proof.
  revert m. induction dests as [|a l IH]; intros m; cbn [foldl].
  - destruct (decide (f = k)) as [ -> |]; reflexivity.
  - rewrite IH. destruct (decide (f = k)) as [ <- |Hne].
    + destruct l as [|b l'];
        rewrite lookup_addTransition, decide_True by reflexivity;
        reflexivity.
    + rewrite lookup_addTransition, decide_False by assumption.
      reflexivity.
Qed.

Section SeenOnce.

Context {db : Type} `{IDA db}.

(** X19. A thing that is not yet a source of the model and is added by
    lines 375-376 or 385-386 gets one edge of count 1 for each of its
    references, with their number as total; other sources stay as they
    are, and a thing without references adds nothing.  All its weights
    being equal, [cull] at one half keeps all its edges when it has at
    most two and none when it has three or more. *)
Theorem add_xrefs_fresh (d : db) (head : Z) (m : MarkovModel) :
  let thing := Thing_init d head in
  let xs := fst (getXrefs d thing) in
  let m1 := add_xrefs d thing m in
  m !! addr thing = None ->
  (forall k, k <> addr thing -> m1 !! k = m !! k) /\
  (xs = ∅ -> m1 = m) /\
  (xs <> ∅ ->
   exists s s',
     m1 !! addr thing = Some s /\
     stateID s = addr thing /\
     transistions_total s = Z.of_nat (size xs) /\
     (forall x, edges s !! x = if decide (x ∈ xs) then Some 1 else None) /\
     cull_source PROBABILITY_CUTTOFF s = Ret s' /\
     ((size xs <= 2)%nat -> edges s' = edges s) /\
     ((3 <= size xs)%nat -> edges s' = ∅)).
Proof.
  intros thing xs m1 Hfresh. subst m1. unfold add_xrefs. fold xs.
  pose proof (NoDup_elements xs) as Hnd.
  assert (Hlen : length (elements xs) = size xs) by reflexivity.
  split; [|split].
  - intros k Hk. rewrite fold_addTransition.
    now rewrite decide_False by congruence.
  - intros Hem. rewrite Hem, elements_empty. reflexivity.
  - intros Hne.
    assert (Hel : elements xs <> []).
    { intros Hnil. apply Hne. now apply elements_empty_inv, leibniz_equiv in Hnil. }
    set (s := fold_state (MarkovState_init (addr thing)) (elements xs)).
    assert (Hs : foldl (fun m x => addTransition m (addr thing) x) m
                       (elements xs) !! addr thing = Some s).
    { rewrite fold_addTransition, decide_True by reflexivity.
      rewrite Hfresh. cbn [from_option id].
      destruct (elements xs); [contradiction|reflexivity]. }
    destruct (fold_state_fields (MarkovState_init (addr thing)) (elements xs))
      as [Hid Htot].
    fold s in Hid, Htot. cbn [MarkovState_init stateID transistions_total] in *.
    rewrite Hlen in Htot.
    assert (Hedges : forall x,
              edges s !! x = if decide (x ∈ xs) then Some 1 else None).
    { intros x. subst s. rewrite fold_state_edges by assumption.
      cbn [MarkovState_init edges]. rewrite lookup_empty. cbn.
      destruct (decide (x ∈ elements xs)) as [Hin|Hin];
        destruct (decide (x ∈ xs)) as [Hin'|Hin']; try reflexivity;
        exfalso; rewrite elem_of_elements in Hin; contradiction. }
    assert (Hpos : 0 < transistions_total s).
    { rewrite Htot. destruct (size xs) eqn:Hsz; [|lia].
      exfalso. apply Hne. now apply size_empty_inv, leibniz_equiv in Hsz. }
    destruct (cull_source_cullable PROBABILITY_CUTTOFF s) as
      (s' & Hcull & _ & _ & Hchar).
    { intros _. lia. }
    exists s, s'.
    split; [exact Hs|]. split; [exact Hid|]. split; [lia|].
    split; [exact Hedges|]. split; [exact Hcull|].
    assert (Hhalf : Qeq PROBABILITY_CUTTOFF (Qmake 1 2)) by reflexivity.
    split.
    + intros Hle. apply map_eq. intros x.
      destruct (edges s !! x) as [c|] eqn:Hx.
      * apply Hchar. split; [exact Hx|].
        rewrite (weight_lt_half s c _ Hpos Hhalf).
        rewrite Hedges in Hx. destruct (decide (x ∈ xs)); [|discriminate].
        injection Hx as <-. lia.
      * destruct (edges s' !! x) as [c|] eqn:Hx'; [|reflexivity].
        apply Hchar in Hx'. destruct Hx' as [Hx' _]. congruence.
    + intros Hge. apply map_eq. intros x. rewrite lookup_empty.
      destruct (edges s' !! x) as [c|] eqn:Hx'; [|reflexivity].
      apply Hchar in Hx'. destruct Hx' as [Hx Hnlt].
      rewrite (weight_lt_half s c _ Hpos Hhalf) in Hnlt.
      rewrite Hedges in Hx. destruct (decide (x ∈ xs)); [|discriminate].
      injection Hx as <-. lia.
Qed.

End SeenOnce.

Lemma add_xrefs_fresh_witness :
  let d := db_two in
  let m : MarkovModel := ∅ in
  let thing := Thing_init d 4096 in
  let xs := fst (getXrefs d thing) in
  let m1 := add_xrefs d thing m in
  m !! addr thing = None /\
  (forall k, k <> addr thing -> m1 !! k = m !! k) /\
  (xs = ∅ -> m1 = m) /\
  (xs <> ∅ ->
   exists s s',
     m1 !! addr thing = Some s /\
     stateID s = addr thing /\
     transistions_total s = Z.of_nat (size xs) /\
     (forall x, edges s !! x = if decide (x ∈ xs) then Some 1 else None) /\
     cull_source PROBABILITY_CUTTOFF s = Ret s' /\
     ((size xs <= 2)%nat -> edges s' = edges s) /\
     ((3 <= size xs)%nat -> edges s' = ∅)).
Proof.
  assert (Hfresh : (∅ : MarkovModel) !! addr (Thing_init db_two 4096) = None)
    by apply lookup_empty.
  split; [exact Hfresh|].
  exact (add_xrefs_fresh db_two 4096 ∅ Hfresh).
Defined.
